(** * ser2net [utils.c]: the string-to-argv tokenizer and the other
      utilities

    A shallow embedding of [gettok], [str_to_argv] and [str_to_argv_free]
    from [src/utils/utils.c], and the properties of the tokenizer that the
    specification states about them; then the other functions of the
    file ([cmpstrval], [strisallzero], [scan_int], [write_ignore_fail] and
    the baud rate tables with their lookups) and further properties of
    all of them.

    Conventions.
    - A [char] is represented by its byte, a [Z] in [0, 256).  The only
      arithmetic the source does on a [char] is
      [cval = cval * base + *p - '0'] (and the two hexadecimal variants);
      [base] is an [unsigned int], so the right-hand side is computed
      modulo [2^32] and then stored into a [char]: the stored byte is the
      result modulo 256 whatever the signedness of [char].
    - A C string is the list of the bytes in front of its terminating NUL.
      A pointer into the working buffer is the list of the bytes from that
      position on; reading [*p] at the end of the list, or at a 0 byte,
      reads the terminator.
    - [gettok] resolves a token in place: it reads through [p] and stores
      through [o] into the same buffer.  The module [Tok] is the tokenizer
      on the bytes still to be read, with the bytes stored through [o]
      since [o = t] kept as the list [out]; the token handed back through
      [*tok] is that list.  The module [InPlace] is the tokenizer on the
      buffer itself, with [p] and [o] as positions, and [InPlaceFacts]
      shows that it returns what [Tok] returns and leaves each token of
      [Tok] in the buffer, NUL-terminated, at the position handed out.
    - The character classes of [<ctype.h>] are those of the C locale. *)

From Stdlib Require Import ZArith List Bool Lia.
From Stdlib Require Strings.String Strings.Ascii.
From stdpp Require Import gmap list.
Import ListNotations.
Import Stdlib.Strings.String.StringSyntax.
Delimit Scope string_scope with string.

Local Open Scope Z_scope.

(** ** Characters *)

Module Ctype.

Definition isdigit (c : Z) : bool := (48 <=? c) && (c <=? 57).

Definition isupper (c : Z) : bool := (65 <=? c) && (c <=? 90).

Definition isxdigit (c : Z) : bool :=
  isdigit c || ((65 <=? c) && (c <=? 70)) || ((97 <=? c) && (c <=? 102)).

(** Storing an [unsigned int] result into a [char]. *)
Definition to_char (v : Z) : Z := v mod 256.

End Ctype.

Import Ctype.

(** Character constants of the source. *)
Abbreviation NUL := 0 (only parsing).
Abbreviation SQUOTE := 39 (only parsing).     (* the single quote *)
Abbreviation DQUOTE := 34 (only parsing).     (* the double quote *)
Abbreviation BACKSLASH := 92 (only parsing).
Abbreviation CH_0 := 48 (only parsing).
Abbreviation CH_8 := 56 (only parsing).
Abbreviation CH_9 := 57 (only parsing).
Abbreviation CH_A := 65 (only parsing).
Abbreviation CH_a := 97 (only parsing).
Abbreviation CH_x := 120 (only parsing).

(** ** The tokenizer core *)

Module Tok.

(** A token: the bytes [gettok] stored between [t] and [o]. *)
Definition token := list Z.

(** [strchr(s, c) != NULL]; the terminator of [s] counts as part of it. *)
Fixpoint strchr (s : list Z) (c : Z) : bool :=
  match s with
  | [] => c =? NUL
  | x :: s' => if x =? NUL then c =? NUL else (x =? c) || strchr s' c
  end.

(** [static bool is_sep_space(char c, char *seps)] *)
Definition is_sep_space (c : Z) (seps : list Z) : bool :=
  negb (c =? NUL) && strchr seps c.

(** [*s] for a pointer [s] into a NUL-terminated buffer. *)
Definition deref (s : list Z) : Z :=
  match s with
  | [] => NUL
  | c :: _ => c
  end.

(** [static char *skip_spaces(char *s, char *seps)] *)
Fixpoint skip_spaces (s : list Z) (seps : list Z) : list Z :=
  match s with
  | [] => []
  | c :: s' => if is_sep_space c seps then skip_spaces s' seps else s
  end.

(** [static bool isodigit(char c)] *)
Definition isodigit (c : Z) : bool :=
  isdigit c && negb (c =? CH_8) && negb (c =? CH_9).

(** The locals of [gettok] that change while a token is scanned. *)
Record scan_state : Type := ScanState {
  out : list Z;      (* the bytes stored through [o] so far *)
  inquote : Z;       (* [char inquote] *)
  escape : Z;        (* [unsigned int escape] *)
  base : Z;          (* [unsigned int base] *)
  cval : Z           (* [char cval] *)
}.

(** The initializers: [inquote = '\0', escape = 0, base = 8, cval = 0]. *)
Definition init_state : scan_state :=
  {| out := []; inquote := NUL; escape := 0; base := 8; cval := 0 |}.

(** [*o++ = b] *)
Definition emit (b : Z) (st : scan_state) : scan_state :=
  {| out := out st ++ [b]; inquote := inquote st; escape := escape st;
     base := base st; cval := cval st |}.

Definition set_inquote (q : Z) (st : scan_state) : scan_state :=
  {| out := out st; inquote := q; escape := escape st;
     base := base st; cval := cval st |}.

Definition set_escape (e : Z) (st : scan_state) : scan_state :=
  {| out := out st; inquote := inquote st; escape := e;
     base := base st; cval := cval st |}.

Definition set_base (b : Z) (st : scan_state) : scan_state :=
  {| out := out st; inquote := inquote st; escape := escape st;
     base := b; cval := cval st |}.

Definition set_cval (v : Z) (st : scan_state) : scan_state :=
  {| out := out st; inquote := inquote st; escape := escape st;
     base := base st; cval := v |}.

(** How one iteration of the [for] loop ends: it goes on to [p++] and the
    loop test, or it leaves the loop through [p++; break]. *)
Inductive ctl : Type := Next | Break.

(** The code from the label [process_char] to the end of the loop body. *)
Definition process_char (seps : list Z) (st : scan_state) (c : Z)
  : scan_state * ctl :=
  if c =? inquote st then (set_inquote NUL st, Next)
  else if (inquote st =? NUL) && ((c =? SQUOTE) || (c =? DQUOTE))
       then (set_inquote c st, Next)
  else if c =? BACKSLASH then (set_escape 1 st, Next)
  else if (inquote st =? NUL) && is_sep_space c seps then (st, Break)
  else (emit c st, Next).

(** The [switch] of the one-character escapes. *)
Definition named_escape (c : Z) : Z :=
  if c =? 97 then 7            (* 'a' -> '\a' *)
  else if c =? 98 then 8       (* 'b' -> '\b' *)
  else if c =? 102 then 12     (* 'f' -> '\f' *)
  else if c =? 110 then 10     (* 'n' -> '\n' *)
  else if c =? 114 then 13     (* 'r' -> '\r' *)
  else if c =? 116 then 9      (* 't' -> '\t' *)
  else if c =? 118 then 11     (* 'v' -> '\v' *)
  else c.

(** The value [cval] takes when the digit [c] is consumed. *)
Definition accumulate (v b c : Z) : Z :=
  if isodigit c then to_char (v * b + c - CH_0)
  else if isupper c then to_char (v * b + c - CH_A)
  else to_char (v * b + c - CH_a).

(** One iteration of the loop body on the character [c = *p] (not NUL).
    [escape++] is only reached with [escape] equal to 1 or 2. *)
Definition step (seps : list Z) (st : scan_state) (c : Z)
  : scan_state * ctl :=
  if negb (escape st =? 0) then
    if escape st =? 1 then
      let st := set_cval 0 st in
      if isodigit c then
        (set_escape (escape st + 1) (set_cval (c - CH_0) (set_base 8 st)),
         Next)
      else if c =? CH_x then
        (set_escape (escape st + 1) (set_base 16 st), Next)
      else
        (set_escape 0 (emit (named_escape c) st), Next)
    else if 2 <=? escape st then
      if ((base st =? 16) && isxdigit c) || isodigit c then
        let st := set_cval (accumulate (cval st) (base st) c) st in
        if 3 <=? escape st then (set_escape 0 (emit (cval st) st), Next)
        else (set_escape (escape st + 1) st, Next)
      else
        process_char seps (set_escape 0 (emit (cval st) st)) c
    else (st, Next)
  else process_char seps st c.

(** How the loop was left. *)
Inductive loop_exit : Type :=
| AtEnd     (* the loop test [*p] failed *)
| AtSep.    (* [break] on a separator *)

(** [for (; *p; p++) { ... }]: the state after the loop, the final [p],
    and the way the loop was left. *)
Fixpoint scan (seps : list Z) (st : scan_state) (p : list Z)
  : scan_state * list Z * loop_exit :=
  match p with
  | [] => (st, [], AtEnd)
  | c :: p' =>
      if c =? NUL then (st, p, AtEnd)
      else match step seps st c with
           | (st', Next) => scan seps st' p'
           | (st', Break) => (st', p', AtSep)
           end
  end.

(** The flush after the loop:
    [if ((base == 8 && escape > 1) || (base == 16 && escape > 2))]. *)
Definition end_flush (st : scan_state) : scan_state :=
  if ((base st =? 8) && (1 <? escape st))
     || ((base st =? 16) && (2 <? escape st))
  then set_escape 0 (emit (cval st) st)
  else st.

(** [static int gettok(char **s, char **tok, char *seps)].
    The arguments [s] and [tok] are the values of [*s] and [*tok] on
    entry; the result is the return value and the values of [*s] and
    [*tok] on exit ([None] is the null pointer).  On the error return
    [*tok] is left as it was. *)
Definition gettok (s : list Z) (tok : option token) (seps : list Z)
  : Z * list Z * option token :=
  let t := skip_spaces s seps in
  if deref t =? NUL then (0, t, None)
  else
    let '(st, p, _) := scan seps init_state t in
    let st := end_flush st in
    if negb (inquote st =? NUL) || negb (escape st =? 0)
    then (-1, p, tok)
    else (0, p, Some (out st)).

End Tok.

Import Tok.

(** The default separators of [str_to_argv]: space, form feed, newline,
    carriage return, tab and vertical tab. *)
Definition default_seps : list Z := [32; 12; 10; 13; 9; 11].

(** ** Memory and the caller's outputs *)

Module Mem.

Definition block := nat.

(** What a slot of the [char **argv] array holds. *)
Inductive slot : Type :=
| Uninit                   (* never stored to *)
| Null                     (* the null pointer *)
| TokPtr (t : token)       (* a pointer to the token [t] in the buffer *)
| BufPtr (b : block).      (* a pointer to the start of a block *)

(** An allocated object.  The bytes of the working buffer are not kept
    here: they go through [gettok], and the tokens it hands out are kept
    with the pointers to them. *)
Inductive obj : Type :=
| StrBuf                        (* the block of [strdup] *)
| Array (slots : list slot).    (* a block of [char *] slots *)

(** The part of the machine [str_to_argv] acts on: the allocated blocks,
    the number of allocation requests made so far with the success or
    failure of every request (the n-th request fails when [alloc_ok n] is
    [false]), and the objects [r_argc] and [r_argv] point to. *)
Record world : Type := World {
  heap : gmap block obj;
  requests : nat;
  alloc_ok : nat -> bool;
  out_argc : Z;                  (* [*r_argc], an [int] *)
  out_argv : option block        (* [*r_argv]; [None] is NULL *)
}.

Definition set_heap (h : gmap block obj) (w : world) : world :=
  {| heap := h; requests := requests w; alloc_ok := alloc_ok w;
     out_argc := out_argc w; out_argv := out_argv w |}.

Definition tick (w : world) : world :=
  {| heap := heap w; requests := S (requests w); alloc_ok := alloc_ok w;
     out_argc := out_argc w; out_argv := out_argv w |}.

(** The result of running a piece of code: it returns, or it does
    something the C standard leaves undefined (a store outside an array,
    the release of a block that is not allocated), or the embedding's
    loop bound was too small. *)
Inductive outcome (A : Type) : Type :=
| Returns (a : A) (w : world)
| Fault
| OutOfFuel.
Arguments Returns {A} a w.
Arguments Fault {A}.
Arguments OutOfFuel {A}.

Definition M (A : Type) : Type := world -> outcome A.

Definition ret {A} (a : A) : M A := fun w => Returns a w.

Definition bind {A B} (m : M A) (k : A -> M B) : M B :=
  fun w => match m w with
           | Returns a w' => k a w'
           | Fault => Fault
           | OutOfFuel => OutOfFuel
           end.

Definition fault {A} : M A := fun _ => Fault.
Definition out_of_fuel {A} : M A := fun _ => OutOfFuel.

(** A request for a new block holding [o]: the address of a block that
    was not allocated before, or NULL. *)
Definition alloc (o : obj) : M (option block) :=
  fun w =>
    if alloc_ok w (requests w) then
      let b := fresh (dom (heap w)) in
      Returns (Some b) (set_heap (<[b := o]> (heap w)) (tick w))
    else Returns None (tick w).

(** The bytes of a C string: those in front of the first NUL. *)
Fixpoint c_str (s : list Z) : list Z :=
  match s with
  | [] => []
  | c :: s' => if c =? NUL then [] else c :: c_str s'
  end.

(** [strdup(s)]: the request for the block; the bytes of the copy are
    [c_str s]. *)
Definition strdup (s : list Z) : M (option block) :=
  alloc StrBuf.

(** [malloc(sizeof(char * ) * n)] *)
Definition malloc_array (n : Z) : M (option block) :=
  alloc (Array (replicate (Z.to_nat n) Uninit)).

(** The slots of a block of [n] slots that takes over the slots [sl]. *)
Definition resize (sl : list slot) (n : Z) : list slot :=
  take (Z.to_nat n) sl ++ replicate (Z.to_nat n - length sl)%nat Uninit.

(** [realloc(b, sizeof(char * ) * n)]: on success the slots move to a new
    block and the old one is released; on failure nothing changes. *)
Definition realloc_array (b : block) (n : Z) : M (option block) :=
  fun w =>
    match heap w !! b with
    | Some (Array sl) =>
        match alloc (Array (resize sl n)) w with
        | Returns (Some b') w' =>
            Returns (Some b') (set_heap (delete b (heap w')) w')
        | r => r
        end
    | _ => Fault
    end.

(** [free(b)] for a non-null [b]. *)
Definition free (b : block) : M unit :=
  fun w =>
    match heap w !! b with
    | Some _ => Returns tt (set_heap (delete b (heap w)) w)
    | None => Fault
    end.

(** [a[i] = v] for the array block [a]. *)
Definition store (a : block) (i : Z) (v : slot) : M unit :=
  fun w =>
    match heap w !! a with
    | Some (Array sl) =>
        if (0 <=? i) && (i <? Z.of_nat (length sl)) then
          let sl' := <[Z.to_nat i := v]> sl in
          Returns tt (set_heap (<[a := Array sl']> (heap w)) w)
        else Fault
    | _ => Fault
    end.

(** [a[i]] for the array block [a]. *)
Definition load (a : block) (i : Z) : M slot :=
  fun w =>
    match heap w !! a with
    | Some (Array sl) =>
        if 0 <=? i then
          match sl !! Z.to_nat i with
          | Some v => Returns v w
          | None => Fault
          end
        else Fault
    | _ => Fault
    end.

(** [*r_argc = n; *r_argv = a;] *)
Definition write_results (n : Z) (a : block) : M unit :=
  fun w =>
    Returns tt {| heap := heap w; requests := requests w;
                  alloc_ok := alloc_ok w;
                  out_argc := n; out_argv := Some a |}.

End Mem.

Import Mem.

Notation "'let!' x ':=' m 'in' k" := (bind m (fun x => k))
  (at level 10, x name, m at level 100, k at level 200).

(** ** The argument-vector builder *)

Module Argv.

Definition ENOMEM : Z := 12.

(** Arithmetic on [unsigned int], and the conversion to [int]. *)
Definition two32 : Z := 4294967296.
Definition u32 (z : Z) : Z := z mod two32.
Definition to_int (z : Z) : Z :=
  if u32 z <? 2147483648 then u32 z else u32 z - two32.

(** The code from the label [out] on. *)
Definition out_label (orig_s argv : block) (argc err : Z) : M Z :=
  if negb (err =? 0) then
    let! _ := free orig_s in let! _ := free argv in ret err
  else
    let! _ := write_results (to_int argc) argv in ret err.

(** The [while (tok && !err)] loop with the code that follows it.  The
    arguments are the locals on entry to the loop test; [fuel] bounds the
    number of iterations. *)
Fixpoint argv_loop (fuel : nat) (seps : list Z) (orig_s argv : block)
    (args argc err : Z) (s : list Z) (tok : option token) : M Z :=
  match tok, err =? 0 with
  | Some t, true =>
      match fuel with
      | O => out_of_fuel
      | S fuel' =>
          let! grown :=
            (if u32 (args - 2) <=? argc then
               let! nargv := realloc_array argv (u32 (args + 10)) in
               match nargv with
               | None => ret None
               | Some a => ret (Some (a, u32 (args + 10)))
               end
             else ret (Some (argv, args))) in
          match grown with
          | None => out_label orig_s argv argc ENOMEM
          | Some (argv, args) =>
              let! _ := store argv argc (TokPtr t) in
              let '(err, s, tok) := gettok s tok seps in
              argv_loop fuel' seps orig_s argv args (u32 (argc + 1))
                        err s tok
          end
      end
  | _, _ =>
      let! _ := store argv argc Null in
      let! _ := store argv (u32 (argc + 1)) (BufPtr orig_s) in
      out_label orig_s argv argc err
  end.

(** [int str_to_argv(const char *ins, int *r_argc, char ***r_argv,
    char *seps)].  [ins] is the caller's string and [seps] the separator
    string or [None] for NULL; [tok0] is whatever the uninitialized local
    [tok] holds on entry. *)
Definition str_to_argv (tok0 : option token) (ins : list Z)
    (seps : option (list Z)) : M Z :=
  let! orig_s := strdup ins in
  match orig_s with
  | None => ret ENOMEM
  | Some orig_s =>
      let s := c_str ins in
      let seps := match seps with
                  | None => default_seps
                  | Some l => l
                  end in
      let! argv := malloc_array 10 in
      match argv with
      | None => let! _ := free orig_s in ret ENOMEM
      | Some argv =>
          let '(err, s', tok) := gettok s tok0 seps in
          argv_loop (S (length s)) seps orig_s argv 10 0 err s' tok
      end
  end.

(** [void str_to_argv_free(int argc, char **argv)] *)
Definition str_to_argv_free (argc : Z) (argv : option block) : M unit :=
  match argv with
  | None => ret tt
  | Some a =>
      let! v := load a (argc + 1) in
      match v with
      | BufPtr b => let! _ := free b in free a
      | Null => free a
      | _ => fault
      end
  end.

(** A machine with no block allocated, in which every request succeeds. *)
Definition fresh_world : world :=
  {| heap := ∅; requests := 0; alloc_ok := fun _ => true;
     out_argc := 0; out_argv := None |}.

(** What a caller reads back after a successful call: the first [*r_argc]
    slots of [*r_argv]. *)
Definition result_slots (w : world) : option (list slot) :=
  match out_argv w with
  | None => None
  | Some a =>
      match heap w !! a with
      | Some (Array sl) => Some (take (Z.to_nat (out_argc w)) sl)
      | _ => None
      end
  end.

End Argv.

Import Argv.

(** ** The token sequence, without the memory *)

Module Pure.

(** The error code the loop of [str_to_argv] ends with and the tokens it
    stores into [argv] on the way, from the loop test on. *)
Fixpoint collect (fuel : nat) (seps : list Z) (err : Z) (s : list Z)
    (tok : option token) : option (Z * list token) :=
  match tok, err =? 0 with
  | Some t, true =>
      match fuel with
      | O => None
      | S fuel' =>
          let '(err', s', tok') := gettok s tok seps in
          match collect fuel' seps err' s' tok' with
          | Some (e, toks) => Some (e, t :: toks)
          | None => None
          end
      end
  | _, _ => Some (err, [])
  end.

(** The same from the first call of [gettok] on. *)
Definition tokenize (tok0 : option token) (seps : list Z) (s : list Z)
  : option (Z * list token) :=
  let '(err, s', tok) := gettok s tok0 seps in
  collect (S (length s)) seps err s' tok.

(** [ends_in seps s st]: cutting the buffer [s] into tokens, the token
    scan that runs into the end of the buffer does so in state [st]. *)
Inductive ends_in (seps : list Z) : list Z -> scan_state -> Prop :=
| ends_here s st p :
    scan seps init_state (skip_spaces s seps) = (st, p, AtEnd) ->
    ends_in seps s st
| ends_later s st' p st :
    scan seps init_state (skip_spaces s seps) = (st', p, AtSep) ->
    ends_in seps p st ->
    ends_in seps s st.

End Pure.

Import Pure.

(** ** Where the bytes of a token come from *)

(** The tokenizer once more, with every store through [o] labelled with the
    place in the code that makes it.  The plain state is carried along
    unchanged, so that forgetting the labels gives [gettok] back. *)

Module Prov.

Inductive origin : Type :=
| Verbatim (q : Z)  (* [*o++ = *p] under [process_char], with [inquote = q] *)
| Escaped.          (* a store made by the escape code *)

(** A token with the origin of each of its bytes. *)
Definition ttoken := list (Z * origin).

Definition erase (t : ttoken) : token := map fst t.

Record tstate : Type := TState {
  st : scan_state;
  tout : ttoken
}.

Definition tinit : tstate := {| st := init_state; tout := [] |}.

Definition temit (b : Z) (g : origin) (ts : tstate) : tstate :=
  {| st := emit b (st ts); tout := tout ts ++ [(b, g)] |}.

Definition tset (f : scan_state -> scan_state) (ts : tstate) : tstate :=
  {| st := f (st ts); tout := tout ts |}.

Definition tprocess_char (seps : list Z) (ts : tstate) (c : Z)
  : tstate * ctl :=
  if c =? inquote (st ts) then (tset (set_inquote NUL) ts, Next)
  else if (inquote (st ts) =? NUL) && ((c =? SQUOTE) || (c =? DQUOTE))
       then (tset (set_inquote c) ts, Next)
  else if c =? BACKSLASH then (tset (set_escape 1) ts, Next)
  else if (inquote (st ts) =? NUL) && is_sep_space c seps then (ts, Break)
  else (temit c (Verbatim (inquote (st ts))) ts, Next).

Definition tstep (seps : list Z) (ts : tstate) (c : Z) : tstate * ctl :=
  if negb (escape (st ts) =? 0) then
    if escape (st ts) =? 1 then
      let ts := tset (set_cval 0) ts in
      if isodigit c then
        (tset (fun s => set_escape (escape s + 1)
                          (set_cval (c - CH_0) (set_base 8 s))) ts, Next)
      else if c =? CH_x then
        (tset (fun s => set_escape (escape s + 1) (set_base 16 s)) ts, Next)
      else
        (tset (set_escape 0) (temit (named_escape c) Escaped ts), Next)
    else if 2 <=? escape (st ts) then
      if ((base (st ts) =? 16) && isxdigit c) || isodigit c then
        let ts :=
          tset (fun s => set_cval (accumulate (cval s) (base s) c) s) ts in
        if 3 <=? escape (st ts)
        then (tset (set_escape 0) (temit (cval (st ts)) Escaped ts), Next)
        else (tset (fun s => set_escape (escape s + 1) s) ts, Next)
      else
        tprocess_char seps
          (tset (set_escape 0) (temit (cval (st ts)) Escaped ts)) c
    else (ts, Next)
  else tprocess_char seps ts c.

Fixpoint tscan (seps : list Z) (ts : tstate) (p : list Z)
  : tstate * list Z * loop_exit :=
  match p with
  | [] => (ts, [], AtEnd)
  | c :: p' =>
      if c =? NUL then (ts, p, AtEnd)
      else match tstep seps ts c with
           | (ts', Next) => tscan seps ts' p'
           | (ts', Break) => (ts', p', AtSep)
           end
  end.

Definition tend_flush (ts : tstate) : tstate :=
  if ((base (st ts) =? 8) && (1 <? escape (st ts)))
     || ((base (st ts) =? 16) && (2 <? escape (st ts)))
  then tset (set_escape 0) (temit (cval (st ts)) Escaped ts)
  else ts.

Definition tgettok (s : list Z) (tok : option ttoken) (seps : list Z)
  : Z * list Z * option ttoken :=
  let t := skip_spaces s seps in
  if deref t =? NUL then (0, t, None)
  else
    let '(ts, p, _) := tscan seps tinit t in
    let ts := tend_flush ts in
    if negb (inquote (st ts) =? NUL) || negb (escape (st ts) =? 0)
    then (-1, p, tok)
    else (0, p, Some (tout ts)).

Fixpoint tcollect (fuel : nat) (seps : list Z) (err : Z) (s : list Z)
    (tok : option ttoken) : option (Z * list ttoken) :=
  match tok, err =? 0 with
  | Some t, true =>
      match fuel with
      | O => None
      | S fuel' =>
          let '(err', s', tok') := tgettok s tok seps in
          match tcollect fuel' seps err' s' tok' with
          | Some (e, toks) => Some (e, t :: toks)
          | None => None
          end
      end
  | _, _ => Some (err, [])
  end.

Definition ttokenize (tok0 : option ttoken) (seps : list Z) (s : list Z)
  : option (Z * list ttoken) :=
  let '(err, s', tok) := tgettok s tok0 seps in
  tcollect (S (length s)) seps err s' tok.

(** A separator byte of a labelled token is not a plain copy made
    outside quotes. *)
Definition not_plain_sep (seps : list Z) (bg : Z * origin) : Prop :=
  is_sep_space (fst bg) seps = true ->
  snd bg = Escaped \/ exists q, q <> NUL /\ snd bg = Verbatim q.

End Prov.

Import Prov.

(** ** The tokenizer core, in place *)

(** [gettok] as it runs on the working buffer: [p] and [o] are positions in
    one and the same block of bytes, every [*p] is a read of that block and
    every [*o++ = b] a store into it, and a token is the position [t] it
    starts at.  The list holds the bytes of the block in front of its last
    NUL: a read at the end of the list reads that NUL.  [o] stays behind
    [p] (the invariant [inv] below), so every store falls on a byte of the
    list, except that the final [*o = 0] can fall on the last NUL itself,
    which it leaves as it is. *)

Module InPlace.

(** [b[i]]; the block ends with a NUL, and so does every read behind it. *)
Definition rd (b : list Z) (i : nat) : Z := default NUL (b !! i).

(** The buffer and the locals of [gettok]. *)
Record regs : Type := Regs {
  buf : list Z;
  p : nat;
  o : nat;
  inquote : Z;
  escape : Z;
  base : Z;
  cval : Z
}.

(** [*o++ = v] *)
Definition put (v : Z) (r : regs) : regs :=
  {| buf := <[o r := v]> (buf r); p := p r; o := S (o r);
     inquote := inquote r; escape := escape r; base := base r;
     cval := cval r |}.

(** [p++] *)
Definition advance (r : regs) : regs :=
  {| buf := buf r; p := S (p r); o := o r;
     inquote := inquote r; escape := escape r; base := base r;
     cval := cval r |}.

Definition with_inquote (q : Z) (r : regs) : regs :=
  {| buf := buf r; p := p r; o := o r;
     inquote := q; escape := escape r; base := base r; cval := cval r |}.

Definition with_escape (e : Z) (r : regs) : regs :=
  {| buf := buf r; p := p r; o := o r;
     inquote := inquote r; escape := e; base := base r; cval := cval r |}.

Definition with_base (b : Z) (r : regs) : regs :=
  {| buf := buf r; p := p r; o := o r;
     inquote := inquote r; escape := escape r; base := b; cval := cval r |}.

Definition with_cval (v : Z) (r : regs) : regs :=
  {| buf := buf r; p := p r; o := o r;
     inquote := inquote r; escape := escape r; base := base r; cval := v |}.

(** The code from the label [process_char] to the end of the loop body. *)
Definition process_char (seps : list Z) (r : regs) : regs * ctl :=
  let c := rd (buf r) (p r) in
  if c =? inquote r then (with_inquote NUL r, Next)
  else if (inquote r =? NUL) && ((c =? SQUOTE) || (c =? DQUOTE))
       then (with_inquote c r, Next)
  else if c =? BACKSLASH then (with_escape 1 r, Next)
  else if (inquote r =? NUL) && is_sep_space c seps then (r, Break)
  else (put c r, Next).

(** One iteration of the loop body. *)
Definition step (seps : list Z) (r : regs) : regs * ctl :=
  let c := rd (buf r) (p r) in
  if negb (escape r =? 0) then
    if escape r =? 1 then
      let r := with_cval 0 r in
      if isodigit c then
        (with_escape (escape r + 1) (with_cval (c - CH_0) (with_base 8 r)),
         Next)
      else if c =? CH_x then
        (with_escape (escape r + 1) (with_base 16 r), Next)
      else
        (with_escape 0 (put (named_escape c) r), Next)
    else if 2 <=? escape r then
      if ((base r =? 16) && isxdigit c) || isodigit c then
        let r := with_cval (accumulate (cval r) (base r) c) r in
        if 3 <=? escape r then (with_escape 0 (put (cval r) r), Next)
        else (with_escape (escape r + 1) r, Next)
      else
        process_char seps (with_escape 0 (put (cval r) r))
    else (r, Next)
  else process_char seps r.

(** [for (; *p; p++) { ... }], for at most [n] iterations. *)
Fixpoint loop (n : nat) (seps : list Z) (r : regs)
  : option (regs * loop_exit) :=
  if rd (buf r) (p r) =? NUL then Some (r, AtEnd)
  else
    match n with
    | O => None
    | S n' =>
        match step seps r with
        | (r', Next) => loop n' seps (advance r')
        | (r', Break) => Some (advance r', AtSep)
        end
    end.

(** [skip_spaces]: the position of the first byte from [s] on that is no
    separator, looking at no more than [n] bytes. *)
Fixpoint skip_spaces (n : nat) (b : list Z) (s : nat) (seps : list Z)
  : nat :=
  match n with
  | O => s
  | S n' =>
      if is_sep_space (rd b s) seps then skip_spaces n' b (S s) seps else s
  end.

(** The flush after the loop. *)
Definition end_flush (r : regs) : regs :=
  if ((base r =? 8) && (1 <? escape r))
     || ((base r =? 16) && (2 <? escape r))
  then with_escape 0 (put (cval r) r)
  else r.

(** [gettok] on the buffer [b], with [*s] at the position [s]: the return
    value, the buffer, [*s] and [*tok] on exit, or [None] when the loop
    bound, the length of the buffer, was too small. *)
Definition gettok (b : list Z) (s : nat) (tok : option nat)
    (seps : list Z) : option (Z * list Z * nat * option nat) :=
  let t := skip_spaces (length b) b s seps in
  if rd b t =? NUL then Some (0, b, t, None)
  else
    match loop (length b) seps
            {| buf := b; p := t; o := t; inquote := NUL; escape := 0;
               base := 8; cval := 0 |} with
    | None => None
    | Some (r, _) =>
        let r := end_flush r in
        if negb (inquote r =? NUL) || negb (escape r =? 0)
        then Some (-1, buf r, p r, tok)
        else Some (0, <[o r := NUL]> (buf r), p r, Some t)
    end.

(** The calls of [gettok] that the loop of [str_to_argv] makes: the last
    return value, the positions of the tokens, and the buffer in the
    end. *)
Fixpoint collect (fuel : nat) (seps : list Z) (err : Z) (b : list Z)
    (s : nat) (tok : option nat) : option (Z * list nat * list Z) :=
  match tok, err =? 0 with
  | Some t, true =>
      match fuel with
      | O => None
      | S fuel' =>
          match gettok b s tok seps with
          | None => None
          | Some (err', b', s', tok') =>
              match collect fuel' seps err' b' s' tok' with
              | Some (e, toks, b'') => Some (e, t :: toks, b'')
              | None => None
              end
          end
      end
  | _, _ => Some (err, [], b)
  end.

Definition tokenize (tok0 : option nat) (seps : list Z) (b : list Z)
  : option (Z * list nat * list Z) :=
  match gettok b 0 tok0 seps with
  | None => None
  | Some (err, b', s', tok) => collect (S (length b)) seps err b' s' tok
  end.

(** The bytes between the positions [t] and [o]. *)
Definition seg (b : list Z) (t o : nat) : list Z := take (o - t) (drop t b).

(** The C string at the position [t] of the buffer [b] is [bytes],
    followed by its terminator. *)
Definition string_at (b : list Z) (t : nat) (bytes : list Z) : Prop :=
  seg b t (t + length bytes) = bytes /\ rd b (t + length bytes) = NUL.

End InPlace.

(** ** The predicates of the statements *)

Module Props.

(** The values the control variables of [gettok] range over. *)
Definition state_ok (st : scan_state) : Prop :=
  (inquote st = NUL \/ inquote st = SQUOTE \/ inquote st = DQUOTE)
  /\ (escape st = 0 \/ escape st = 1
      \/ ((escape st = 2 \/ escape st = 3)
          /\ (base st = 8 \/ base st = 16))).

(** The end of the buffer was reached inside a quote, right after a
    backslash, or right after [\x]. *)
Definition unresolved (st : scan_state) : bool :=
  negb (inquote st =? NUL)
  || (escape st =? 1)
  || ((escape st =? 2) && (base st =? 16)).

(** At least one digit of an octal or hexadecimal escape was consumed and
    the escape is not complete. *)
Definition partial_digits (st : scan_state) : bool :=
  ((base st =? 8) && ((escape st =? 2) || (escape st =? 3)))
  || ((base st =? 16) && (escape st =? 3)).

(** The largest [int]; an input of at most that many bytes is one whose
    tokens the counters of [str_to_argv] can count. *)
Definition INT_MAX : Z := 2147483647.

(** What the loop of [str_to_argv] and the code after it do, from a
    machine [w0] whose array holds the slots [pre] in front of the
    position [argc], given the error code [e] and the tokens [toks] of
    the rest of the token sequence. *)
Definition post (h0 : gmap block obj) (orig_s : block)
    (w0 : world) (pre : list slot) (e : Z) (toks : list token)
    (r : outcome Z) : Prop :=
  match r with
  | Returns err w' =>
      alloc_ok w' = alloc_ok w0 /\
      ((err = ENOMEM /\ (exists n, alloc_ok w0 n = false) /\
        heap w' = h0 /\
        out_argc w' = out_argc w0 /\ out_argv w' = out_argv w0)
       \/ (err = e /\ e <> 0 /\ heap w' = h0 /\
           out_argc w' = out_argc w0 /\ out_argv w' = out_argv w0)
       \/ (err = 0 /\ e = 0 /\
           out_argc w' = Z.of_nat (length pre + length toks) /\
           exists argv' rest,
             out_argv w' = Some argv' /\ h0 !! argv' = None /\
             argv' <> orig_s /\
             heap w' =
               <[argv' := Array (pre ++ map TokPtr toks
                                     ++ [Null; BufPtr orig_s] ++ rest)]>
                 (<[orig_s := StrBuf]> h0)))
  | _ => False
  end.

(** What a call of [str_to_argv] in the world [w] does, given the error
    code [e] and the tokens [toks] of the token sequence of its input:
    it fails for lack of memory, or it fails with [e], in both cases with
    the memory and the caller's outputs as they were; or [e] is 0 and it
    hands out a new array that starts with the tokens, the null pointer
    and the address of the new buffer. *)
Definition str_to_argv_post (w : world) (e : Z)
    (toks : list token) (r : outcome Z) : Prop :=
  match r with
  | Returns err w' =>
      (err = ENOMEM /\ (exists n, alloc_ok w n = false) /\
       heap w' = heap w /\
       out_argc w' = out_argc w /\ out_argv w' = out_argv w)
      \/ (err = e /\ e <> 0 /\ heap w' = heap w /\
          out_argc w' = out_argc w /\ out_argv w' = out_argv w)
      \/ (err = 0 /\ e = 0 /\
          out_argc w' = Z.of_nat (length toks) /\
          exists argv orig_s rest,
            out_argv w' = Some argv /\
            heap w !! argv = None /\ heap w !! orig_s = None /\
            argv <> orig_s /\
            heap w' =
              <[argv := Array (map TokPtr toks
                               ++ [Null; BufPtr orig_s] ++ rest)]>
                (<[orig_s := StrBuf]> (heap w)))
  | _ => False
  end.

(** [if (!seps) seps = default_seps;] *)
Definition seps_of (seps : option (list Z)) : list Z :=
  match seps with
  | None => default_seps
  | Some l => l
  end.

(** For inputs of any length: whenever the loop and the code after it
    return, the code is [ENOMEM] or the code of the token sequence; with
    a nonzero code both blocks have been released and the caller's
    outputs are as they were; with the code 0 the array handed out
    points to tokens of [known] only. *)
Definition released (h0 : gmap block obj) (w0 : world) (e : Z)
    (known : list token) (r : outcome Z) : Prop :=
  match r with
  | Returns err w' =>
      ((err = ENOMEM /\ exists n, alloc_ok w0 n = false) \/ err = e)
      /\ (err <> 0 ->
          heap w' = h0 /\
          out_argc w' = out_argc w0 /\ out_argv w' = out_argv w0)
      /\ (err = 0 ->
          exists argv sl,
            out_argv w' = Some argv /\
            heap w' !! argv = Some (Array sl) /\
            forall t, TokPtr t ∈ sl -> t ∈ known)
  | _ => True
  end.

(** The labelled bytes are the bytes stored. *)
Definition labels_ok (ts : tstate) : Prop := erase (tout ts) = out (st ts).

(** No plain copy made outside quotes is a separator. *)
Definition clean (seps : list Z) (ts : tstate) : Prop :=
  Forall (not_plain_sep seps) (tout ts).

(** The digit class an escape in base [b] collects. *)
Definition digit_class (b c : Z) : bool :=
  if b =? 16 then isxdigit c else isodigit c.

(** The numeric value of a digit character, hexadecimal letters
    standing for 10 to 15. *)
Definition digit_value (c : Z) : Z :=
  if isdigit c then c - CH_0
  else if isupper c then c - CH_A + 10
  else c - CH_a + 10.

(** A machine in which the second request for memory fails. *)
Definition second_request_fails : world :=
  {| heap := ∅; requests := 0; alloc_ok := fun n => Nat.eqb n 0;
     out_argc := 7; out_argv := None |}.

(** The machine after the call on a, backslash, space, b. *)
Definition after_escaped_space : world :=
  {| heap := <[1%nat := Array [TokPtr [97; 32; 98]; Null; BufPtr 0%nat;
                               Uninit; Uninit; Uninit; Uninit; Uninit;
                               Uninit; Uninit]]>
               (<[0%nat := StrBuf]> ∅);
     requests := 2; alloc_ok := fun _ => true;
     out_argc := 1; out_argv := Some 1%nat |}.

(** The state of the tokenizer core that the registers stand for, for a
    token that starts at [t]. *)
Definition abs (t : nat) (r : InPlace.regs) : scan_state :=
  {| out := InPlace.seg (InPlace.buf r) t (InPlace.o r);
     inquote := InPlace.inquote r; escape := InPlace.escape r;
     base := InPlace.base r; cval := InPlace.cval r |}.

(** While the token that starts at [t] in the buffer [b0] is scanned: [o]
    is between [t] and [p], behind [p] by one after a backslash and by two
    while digits are collected, and the buffer differs from [b0] only
    between [t] and [p]. *)
Definition inv (b0 : list Z) (t : nat) (r : InPlace.regs) : Prop :=
  (t <= InPlace.o r)%nat /\ (InPlace.o r <= InPlace.p r)%nat /\
  (InPlace.p r <= length b0)%nat /\
  length (InPlace.buf r) = length b0 /\
  (forall i, (InPlace.p r <= i)%nat -> InPlace.buf r !! i = b0 !! i) /\
  (forall i, (i < t)%nat -> InPlace.buf r !! i = b0 !! i) /\
  (InPlace.escape r <> 0 -> (InPlace.o r < InPlace.p r)%nat) /\
  (2 <= InPlace.escape r -> (InPlace.o r + 2 <= InPlace.p r)%nat).

(** One call of [gettok] on the buffer [b], from the position [s]: it
    returns what [gettok] on the bytes from [s] on returns, it changes no
    byte in front of [s], and the token it hands out is in the buffer, at
    the position handed out, with its terminator, in front of the new
    [*s]. *)
Definition gettok_refines (seps b : list Z) (s : nat)
    (tok : option nat) (tokb : option token) : Prop :=
  exists e b' s' tok' tokb',
    InPlace.gettok b s tok seps = Some (e, b', s', tok') /\
    gettok (drop s b) tokb seps = (e, drop s' b', tokb') /\
    length b' = length b /\ (s <= s' <= length b)%nat /\
    (forall i, (i < s)%nat -> b' !! i = b !! i) /\
    (InPlace.rd b s = NUL -> b' = b /\ tok' = None /\ e = 0) /\
    ((e = -1 /\ tok' = tok /\ tokb' = tokb)
     \/ (e = 0 /\ tok' = None /\ tokb' = None /\ b' = b)
     \/ (e = 0 /\ exists t bytes,
           tok' = Some t /\ tokb' = Some bytes /\
           (s <= t)%nat /\ (t + length bytes <= s')%nat /\
           InPlace.string_at b' t bytes)).

(** The token [*tok] holds on entry to the loop test is in the buffer, in
    front of [*s], or the loop is over. *)
Definition pending (err : Z) (b : list Z) (s : nat)
    (tok : option nat) (tokb : option token) : Prop :=
  err <> 0
  \/ (tok = None /\ tokb = None)
  \/ (exists t bytes,
        tok = Some t /\ tokb = Some bytes /\
        InPlace.string_at b t bytes /\ (t + length bytes <= s)%nat).

(** An input with no backslash and no quote character. *)
Definition plain_input (s : list Z) : Prop :=
  Forall (fun c => c <> BACKSLASH /\ c <> SQUOTE /\ c <> DQUOTE) s.

(** A labelled scan state outside quotes and escapes, all of whose bytes
    are plain copies made outside quotes. *)
Definition all_plain (ts : tstate) : Prop :=
  escape (st ts) = 0 /\ inquote (st ts) = NUL /\
  Forall (fun bg => snd bg = Verbatim NUL) (tout ts).

End Props.

Import Props.

(** * The other utilities of [utils.c] *)

(** ** Strings *)

(** The functions of [<string.h>] that the utilities call, on C strings as
    above: a list of bytes read up to its end or its first 0 byte. *)

Module Str.

(** The bytes of a string literal of the source. *)
Definition bytes (s : String.string) : list Z :=
  map (fun a => Z.of_N (Ascii.N_of_ascii a)) (String.list_ascii_of_string s).

(** [strlen(s)] *)
Fixpoint strlen (s : list Z) : Z :=
  match s with
  | [] => 0
  | c :: s' => if c =? NUL then 0 else 1 + strlen s'
  end.

(** [strncmp(s1, s2, n)], with [n] the value of the [size_t] argument: 0
    when the strings agree on their first [n] bytes or up to a common
    terminator.  The C standard fixes the sign of a nonzero result only,
    and the source only tests the result against 0; the difference of the
    two bytes that differ is the value given here. *)
Fixpoint strncmp (s1 s2 : list Z) (n : Z) : Z :=
  if n <=? 0 then 0
  else
    let c1 := deref s1 in
    let c2 := deref s2 in
    if negb (c1 =? c2) then c1 - c2
    else if c1 =? NUL then 0
    else match s1 with
         | [] => 0
         | _ :: s1' => strncmp s1' (tl s2) (n - 1)
         end.

End Str.

Import Str.

(** ** Prefixes and numbers *)

Module Util.

(** [int cmpstrval(const char *s, const char *prefix, unsigned int *end)].
    The argument [end_] is the value of [*end] on entry; the result is the
    return value and the value of [*end] on exit.  [strlen(prefix)] is
    stored into an [int]: for a prefix of more than [INT_MAX] bytes the
    conversion is implementation-defined, and the result is [None]. *)
Definition cmpstrval (s prefix : list Z) (end_ : Z) : option (Z * Z) :=
  let len := strlen prefix in
  if INT_MAX <? len then None
  else if negb (strncmp s prefix len =? 0) then Some (0, end_)
  else Some (1, len).

(** [while ( *str == '0') str++;] *)
Fixpoint skip_zeros (str : list Z) : list Z :=
  match str with
  | [] => []
  | c :: str' => if c =? CH_0 then skip_zeros str' else str
  end.

(** [int strisallzero(const char *str)] *)
Definition strisallzero (str : list Z) : Z :=
  if deref str =? NUL then 0
  else if deref (skip_zeros str) =? NUL then 1 else 0.

(** The [for (;;)] loop of [scan_int], with [rv] on entry.  [rv] is an
    [int] and never negative here; when [rv * 10] or the sum with the
    digit is more than [INT_MAX] the signed arithmetic overflows, which
    the C standard leaves undefined: the result is [None]. *)
Fixpoint scan_int_loop (rv : Z) (str : list Z) : option Z :=
  match str with
  | [] => Some rv                                    (* case '\0' *)
  | c :: str' =>
      if isdigit c then                              (* case '0' ... '9' *)
        if (rv * 10 <=? INT_MAX) && (rv * 10 + (c - CH_0) <=? INT_MAX)
        then scan_int_loop (rv * 10 + (c - CH_0)) str'
        else None
      else if c =? NUL then Some rv                  (* case '\0' *)
      else Some (-1)                                 (* default *)
  end.

(** [int scan_int(const char *str)] *)
Definition scan_int (str : list Z) : option Z :=
  if deref str =? NUL then Some (-1) else scan_int_loop 0 str.

End Util.

Import Util.

(** ** Writing to a descriptor *)

(** [write_ignore_fail] calls [write(2)] until it returns 0 or fails.  What
    the descriptor does is not in the source: a descriptor is described
    here by the bytes it has taken so far and by its answer to every call,
    which is to take up to some number of bytes or to fail.  [write]
    returns the number of bytes taken, never more than [count], or -1. *)

Module Io.

Inductive answer : Type :=
| Takes (n : nat)    (* room for [n] bytes *)
| Fails.             (* an error: [write] returns -1 *)

Record channel : Type := Channel {
  sent : list Z;               (* the bytes taken so far, in order *)
  calls : nat;                 (* the number of calls of [write] so far *)
  answers : nat -> answer      (* the answer to the n-th call *)
}.

(** [write(fd, data, count)] for the descriptor [ch]: the return value and
    the descriptor after the call.  [data] holds the bytes from the
    pointer [data] on. *)
Definition write (data : list Z) (count : Z) (ch : channel)
  : Z * channel :=
  match answers ch (calls ch) with
  | Takes n =>
      let k := Z.min (Z.of_nat n) count in
      (k, {| sent := sent ch ++ take (Z.to_nat k) data;
             calls := S (calls ch); answers := answers ch |})
  | Fails =>
      (-1, {| sent := sent ch; calls := S (calls ch);
              answers := answers ch |})
  end.

(** [while ((written = write(fd, data, count)) > 0)
       { data += written; count -= written; }],
    for at most [fuel] calls of [write]. *)
Fixpoint write_loop (fuel : nat) (data : list Z) (count : Z)
    (ch : channel) : option channel :=
  match fuel with
  | O => None
  | S fuel' =>
      let '(written, ch') := write data count ch in
      if 0 <? written
      then write_loop fuel' (drop (Z.to_nat written) data)
                      (count - written) ch'
      else Some ch'
  end.

(** [void write_ignore_fail(int fd, const char *data, size_t count)] *)
Definition write_ignore_fail (data : list Z) (count : Z) (ch : channel)
  : option channel :=
  write_loop (S (Z.to_nat count)) data count ch.

End Io.

(** ** Baud rates *)

(** The speed codes [B50], [B75], ... are macros of [<termios.h>]; their
    values, and which of the codes above [B115200] exist, depend on the
    system.  [B T r] is the value of the macro for the rate [r] and
    [defined_B T r] tells whether [#ifdef] finds it. *)

Module Baud.

Record termios_h : Type := Termios {
  B : Z -> Z;
  defined_B : Z -> bool
}.

(** [struct baud_rates_s] *)
Record baud_rates_s : Type := BaudRate {
  real_rate : Z;
  val : Z;
  str : list Z
}.

(** The table entry [{ r, Br, s }]. *)
Definition entry (T : termios_h) (r : Z) (s : String.string)
  : baud_rates_s :=
  {| real_rate := r; val := B T r; str := bytes s |}.

(** The same between [#ifdef Br] and [#endif]. *)
Definition ifdef (T : termios_h) (r : Z) (s : String.string)
  : list baud_rates_s :=
  if defined_B T r then [entry T r s] else [].

(** [baud_rates[]] *)
Definition baud_rates (T : termios_h) : list baud_rates_s :=
  [ entry T 50 "50"%string;
    entry T 75 "75"%string;
    entry T 110 "110"%string;
    entry T 134 "134"%string;
    entry T 150 "150"%string;
    entry T 200 "200"%string;
    entry T 300 "300"%string;
    entry T 600 "600"%string;
    entry T 1200 "1200"%string;
    entry T 1800 "1800"%string;
    entry T 2400 "2400"%string;
    entry T 4800 "4800"%string;
    entry T 9600 "9600"%string;
    entry T 19200 "19200"%string;
    entry T 38400 "38400"%string;
    entry T 57600 "57600"%string;
    entry T 115200 "115200"%string ]
  ++ ifdef T 230400 "230400"%string
  ++ ifdef T 460800 "460800"%string
  ++ ifdef T 500000 "500000"%string
  ++ ifdef T 576000 "576000"%string
  ++ ifdef T 921600 "921600"%string
  ++ ifdef T 1000000 "1000000"%string
  ++ ifdef T 1152000 "1152000"%string
  ++ ifdef T 1500000 "1500000"%string
  ++ ifdef T 2000000 "2000000"%string
  ++ ifdef T 2500000 "2500000"%string
  ++ ifdef T 3000000 "3000000"%string
  ++ ifdef T 3500000 "3500000"%string
  ++ ifdef T 4000000 "4000000"%string.

(** The loop of [get_baud_rate] from the entries [tbl] on.  [v] is [None]
    when the pointer [val] is NULL and otherwise the [int] it points to;
    the result is the return value and that [int] on exit. *)
Fixpoint get_baud_rate_from (tbl : list baud_rates_s) (rate : Z)
    (v : option Z) : Z * option Z :=
  match tbl with
  | [] => (0, v)
  | e :: tbl' =>
      if rate =? real_rate e then
        (1, match v with
            | Some _ => Some (val e)
            | None => None
            end)
      else get_baud_rate_from tbl' rate v
  end.

(** [int get_baud_rate(int rate, int *val)] *)
Definition get_baud_rate (T : termios_h) (rate : Z) (v : option Z)
  : Z * option Z :=
  get_baud_rate_from (baud_rates T) rate v.

Fixpoint get_baud_rate_str_from (tbl : list baud_rates_s) (baud_rate : Z)
  : list Z :=
  match tbl with
  | [] => bytes "unknown speed"%string
  | e :: tbl' =>
      if baud_rate =? val e then str e
      else get_baud_rate_str_from tbl' baud_rate
  end.

(** [const char *get_baud_rate_str(int baud_rate)] *)
Definition get_baud_rate_str (T : termios_h) (baud_rate : Z) : list Z :=
  get_baud_rate_str_from (baud_rates T) baud_rate.

Fixpoint get_rate_from_baud_rate_from (tbl : list baud_rates_s)
    (baud_rate : Z) : Z :=
  match tbl with
  | [] => 0
  | e :: tbl' =>
      if baud_rate =? val e then real_rate e
      else get_rate_from_baud_rate_from tbl' baud_rate
  end.

(** [void get_rate_from_baud_rate(int baud_rate, int *val)]: the value
    stored into [*val]. *)
Definition get_rate_from_baud_rate (T : termios_h) (baud_rate : Z) : Z :=
  get_rate_from_baud_rate_from (baud_rates T) baud_rate.

End Baud.

Module Cisco.

(** [struct cisco_baud_rates_s] *)
Record cisco_baud_rates_s : Type := CiscoRate {
  real_rate : Z;
  cisco_ios_val : Z
}.

(** [cisco_baud_rates[]] *)
Definition cisco_baud_rates : list cisco_baud_rates_s :=
  [ {| real_rate := 300; cisco_ios_val := 3 |};
    {| real_rate := 600; cisco_ios_val := 4 |};
    {| real_rate := 1200; cisco_ios_val := 5 |};
    {| real_rate := 2400; cisco_ios_val := 6 |};
    {| real_rate := 4800; cisco_ios_val := 7 |};
    {| real_rate := 9600; cisco_ios_val := 8 |};
    {| real_rate := 19200; cisco_ios_val := 10 |};
    {| real_rate := 38400; cisco_ios_val := 12 |};
    {| real_rate := 57600; cisco_ios_val := 13 |};
    {| real_rate := 115200; cisco_ios_val := 14 |};
    {| real_rate := 230400; cisco_ios_val := 15 |} ].

Fixpoint cisco_baud_to_baud_from (tbl : list cisco_baud_rates_s)
    (cisco_val : Z) : Z :=
  match tbl with
  | [] => 0
  | e :: tbl' =>
      if cisco_val =? cisco_ios_val e then real_rate e
      else cisco_baud_to_baud_from tbl' cisco_val
  end.

(** [int cisco_baud_to_baud(int cisco_val)] *)
Definition cisco_baud_to_baud (cisco_val : Z) : Z :=
  cisco_baud_to_baud_from cisco_baud_rates cisco_val.



End Cisco.

(** ** The predicates of the further statements *)

Module MoreProps.

(** The number a string of decimal digits denotes, after the digits that
    gave [acc]. *)
Definition decimal_from (acc : Z) (ds : list Z) : Z :=
  fold_left (fun a c => a * 10 + (c - CH_0)) ds acc.

Definition decimal (ds : list Z) : Z := decimal_from 0 ds.

(** A descriptor that takes at least one byte at every call. *)
Definition always_takes (ch : Io.channel) : Prop :=
  forall n, exists m, Io.answers ch n = Io.Takes (S m).

(** A descriptor with room for three bytes at a time. *)
Definition three_at_a_time : Io.channel :=
  {| Io.sent := []; Io.calls := 0; Io.answers := fun _ => Io.Takes 3 |}.

(** A descriptor that takes two bytes and then fails. *)
Definition fails_after_two : Io.channel :=
  {| Io.sent := []; Io.calls := 0;
     Io.answers := fun n => if Nat.eqb n 0 then Io.Takes 2 else Io.Fails |}.

(** The speed codes of [<termios.h>] on Linux, where all of them are
    defined. *)
Definition linux : Baud.termios_h :=
  {| Baud.B := fun r =>
       if r =? 50 then 1 else if r =? 75 then 2 else if r =? 110 then 3
       else if r =? 134 then 4 else if r =? 150 then 5
       else if r =? 200 then 6 else if r =? 300 then 7
       else if r =? 600 then 8 else if r =? 1200 then 9
       else if r =? 1800 then 10 else if r =? 2400 then 11
       else if r =? 4800 then 12 else if r =? 9600 then 13
       else if r =? 19200 then 14 else if r =? 38400 then 15
       else if r =? 57600 then 4097 else if r =? 115200 then 4098
       else if r =? 230400 then 4099 else if r =? 460800 then 4100
       else if r =? 500000 then 4101 else if r =? 576000 then 4102
       else if r =? 921600 then 4103 else if r =? 1000000 then 4104
       else if r =? 1152000 then 4105 else if r =? 1500000 then 4106
       else if r =? 2000000 then 4107 else if r =? 2500000 then 4108
       else if r =? 3000000 then 4109 else if r =? 3500000 then 4110
       else if r =? 4000000 then 4111 else 0;
     Baud.defined_B := fun _ => true |}.

(** The maximal runs of bytes of [s] that are no separators, in order;
    [cur] is the run in front of [s]. *)
Fixpoint fields_from (seps : list Z) (cur : list Z) (s : list Z)
  : list (list Z) :=
  match s with
  | [] => match cur with
          | [] => []
          | _ => [cur]
          end
  | c :: s' =>
      if is_sep_space c seps then
        match cur with
        | [] => fields_from seps [] s'
        | _ => cur :: fields_from seps [] s'
        end
      else fields_from seps (cur ++ [c]) s'
  end.

Definition fields (seps : list Z) (s : list Z) : list (list Z) :=
  fields_from seps [] s.

(** A byte written as a backslash and three octal digits. *)
Definition octal_escape (b : Z) : list Z :=
  [BACKSLASH; CH_0 + b / 64; CH_0 + (b / 8) mod 8; CH_0 + b mod 8].

Definition octal_encode (t : list Z) : list Z :=
  concat (map octal_escape t).

(** A string with no byte that ends or escapes out of a quotation by
    [q]. *)
Definition quotable (q : Z) (t : list Z) : Prop :=
  Forall (fun c => c <> NUL /\ c <> BACKSLASH /\ c <> q) t.

(** A string without a 0 byte: a C string in full. *)
Definition no_nul (s : list Z) : Prop := Forall (fun c => c <> NUL) s.

(** A separator that is no quote, no backslash and no hexadecimal digit:
    between two tokens it can only be a separator. *)
Definition ordinary_sep (seps : list Z) (c : Z) : Prop :=
  is_sep_space c seps = true /\ c <> BACKSLASH /\ c <> SQUOTE /\
  c <> DQUOTE /\ isxdigit c = false.

(** The string of a table entry is the decimal numeral of its rate, and
    the rate is not 0. *)
Definition entry_ok (e : Baud.baud_rates_s) : Prop :=
  scan_int (Baud.str e) = Some (Baud.real_rate e) /\ Baud.real_rate e <> 0.

(** The rates of the entries that are always in [baud_rates], and of those
    under [#ifdef]. *)
Definition always : list Z :=
  [50; 75; 110; 134; 150; 200; 300; 600; 1200; 1800; 2400; 4800; 9600;
   19200; 38400; 57600; 115200].

Definition optional : list Z :=
  [230400; 460800; 500000; 576000; 921600; 1000000; 1152000; 1500000;
   2000000; 2500000; 3000000; 3500000; 4000000].

(** The machine after a successful call, from [fresh_world], on an input
    with the one token [t]. *)
Definition after_one_token (t : token) : world :=
  {| heap := <[1%nat := Array [TokPtr t; Null; BufPtr 0%nat;
                               Uninit; Uninit; Uninit; Uninit; Uninit;
                               Uninit; Uninit]]>
               (<[0%nat := StrBuf]> ∅);
     requests := 2; alloc_ok := fun _ => true;
     out_argc := 1; out_argv := Some 1%nat |}.

(** The bytes that end a token or start a quotation or an escape when
    they stand outside a quotation. *)
Definition special (seps : list Z) (c : Z) : bool :=
  is_sep_space c seps || (c =? BACKSLASH) || (c =? SQUOTE) || (c =? DQUOTE).

(** A string with a backslash in front of every special byte. *)
Definition backslash_escape (seps : list Z) (t : list Z) : list Z :=
  concat (map (fun c => if special seps c then [BACKSLASH; c] else [c]) t).

(** A byte that stands for itself after a backslash: no octal digit, not
    the letter x, and none of the letters of the one-character
    escapes. *)
Definition literal_after_backslash (c : Z) : Prop :=
  isodigit c = false /\ c <> CH_x /\ named_escape c = c.

(** Every separator stands for itself after a backslash. *)
Definition seps_escapable (seps : list Z) : Prop :=
  forall c, is_sep_space c seps = true -> literal_after_backslash c.

(** The decimal digits a string starts with. *)
Fixpoint digit_run (s : list Z) : list Z :=
  match s with
  | [] => []
  | c :: s' => if isdigit c then c :: digit_run s' else []
  end.

(** [scan_int] on [s] stays within [int]: the digits [s] starts with denote
    a number of at most [INT_MAX], so that no [rv * 10 + digit] that the
    loop computes overflows. *)
Definition fits_int (s : list Z) : Prop :=
  decimal (digit_run (c_str s)) <= INT_MAX.

End MoreProps.

Import MoreProps.

(** * Lemmas *)

(** ** Runs of the tokenizer on small inputs *)

Example gettok_abc tok :
  gettok [97; 32; 98] tok default_seps = (0, [98], Some [97]).
Proof. reflexivity. Qed.

Example gettok_escaped_space tok :
  gettok [97; 92; 32; 98] tok default_seps = (0, [], Some [97; 32; 98]).
Proof. reflexivity. Qed.

Example gettok_octal tok :
  gettok [92; 49; 48; 49] tok default_seps = (0, [], Some [65]).
Proof. reflexivity. Qed.

Example gettok_hex_upper tok :
  gettok [92; 120; 52; 65] tok default_seps = (0, [], Some [64]).
Proof. reflexivity. Qed.

Example gettok_trailing_backslash tok :
  gettok [97; 92] tok default_seps = (-1, [], tok).
Proof. reflexivity. Qed.

Example inplace_demo :
  InPlace.tokenize None default_seps [97; 92; 32; 98; 32; 34; 99; 34; 0]
  = Some (0, [0%nat; 5%nat], [97; 32; 98; 0; 32; 99; 0; 34; 0]).
Proof. reflexivity. Qed.

(** ** Facts about the tokenizer core *)

(** Turn the boolean tests of the embedding into propositions. *)
Ltac bool_hyps :=
  repeat match goal with
  | H : _ && _ = true |- _ => apply andb_true_iff in H; destruct H
  | H : _ || _ = false |- _ => apply orb_false_iff in H; destruct H
  | H : negb _ = true |- _ => apply negb_true_iff in H
  | H : negb _ = false |- _ => apply negb_false_iff in H
  | H : (_ =? _) = true |- _ => apply Z.eqb_eq in H
  | H : (_ =? _) = false |- _ => apply Z.eqb_neq in H
  | H : (_ <=? _) = true |- _ => apply Z.leb_le in H
  | H : (_ <=? _) = false |- _ => apply Z.leb_gt in H
  | H : (_ <? _) = true |- _ => apply Z.ltb_lt in H
  | H : (_ <? _) = false |- _ => apply Z.ltb_ge in H
  end.

(** Decide every integer comparison in the goal. *)
Ltac split_tests :=
  repeat match goal with
  | |- context [?a =? ?b] => destruct (Z.eqb_spec a b)
  | |- context [?a <=? ?b] => destruct (Z.leb_spec a b)
  | |- context [?a <? ?b] => destruct (Z.ltb_spec a b)
  end.

Module TokFacts.

Lemma init_state_ok : state_ok init_state.
Proof. unfold state_ok; simpl; lia. Qed.

Lemma process_char_ok seps st c st' k :
  state_ok st -> escape st = 0 ->
  process_char seps st c = (st', k) -> state_ok st'.
Proof.
  unfold state_ok, process_char. intros [Hq He] He0 H.
  repeat case_match; inversion H; subst; clear H; simpl in *;
    bool_hyps; lia.
Qed.

Lemma step_ok seps st c st' k :
  state_ok st -> step seps st c = (st', k) -> state_ok st'.
Proof.
  intros Hok H. unfold step in H.
  destruct (escape st =? 0) eqn:E0; simpl in H.
  { apply Z.eqb_eq in E0. eapply process_char_ok; eauto. }
  destruct (escape st =? 1) eqn:E1.
  { destruct Hok as [Hq He]. unfold state_ok.
    repeat case_match; inversion H; subst; clear H; simpl in *;
      bool_hyps; lia. }
  destruct (2 <=? escape st) eqn:E2; [|inversion H; subst; assumption].
  destruct (((base st =? 16) && isxdigit c) || isodigit c) eqn:Ed.
  - destruct Hok as [Hq He]. unfold state_ok.
    repeat case_match; inversion H; subst; clear H; simpl in *;
      bool_hyps; lia.
  - eapply process_char_ok; [| |exact H]; [|reflexivity].
    destruct Hok as [Hq He]. unfold state_ok; simpl. lia.
Qed.

(** The loop is left through [break] only outside quotes and escapes. *)
Lemma process_char_break seps st c st' :
  escape st = 0 -> process_char seps st c = (st', Break) ->
  st' = st /\ inquote st = NUL /\ is_sep_space c seps = true.
Proof.
  unfold process_char. intros He H.
  repeat case_match; inversion H; subst; clear H; bool_hyps; auto.
Qed.

Lemma step_break seps st c st' :
  step seps st c = (st', Break) ->
  escape st' = 0 /\ inquote st' = NUL /\ is_sep_space c seps = true.
Proof.
  unfold step. intros H.
  destruct (escape st =? 0) eqn:E0; simpl in H.
  { apply Z.eqb_eq in E0.
    destruct (process_char_break _ _ _ _ E0 H) as (-> & ? & ?). auto. }
  repeat case_match; try discriminate.
  apply process_char_break in H; [|reflexivity].
  destruct H as (-> & ? & ?). auto.
Qed.

Lemma scan_ok seps p : forall st st' r e,
  state_ok st -> scan seps st p = (st', r, e) -> state_ok st'.
Proof.
  induction p as [|c p IH]; simpl; intros st st' r e Hok H.
  - inversion H; subst; assumption.
  - destruct (c =? NUL); [inversion H; subst; assumption|].
    destruct (step seps st c) as [st1 k] eqn:Hs.
    pose proof (step_ok _ _ _ _ _ Hok Hs).
    destruct k; [eauto|inversion H; subst; assumption].
Qed.

Lemma scan_sep seps p : forall st st' r,
  scan seps st p = (st', r, AtSep) ->
  escape st' = 0 /\ inquote st' = NUL.
Proof.
  induction p as [|c p IH]; simpl; intros st st' r H; [discriminate|].
  destruct (c =? NUL); [discriminate|].
  destruct (step seps st c) as [st1 k] eqn:Hs.
  destruct k; [eauto|].
  inversion H; subst. apply step_break in Hs. tauto.
Qed.

Lemma scan_end seps p : forall st st' r,
  scan seps st p = (st', r, AtEnd) -> deref r = NUL.
Proof.
  induction p as [|c p IH]; simpl; intros st st' r H.
  - inversion H; reflexivity.
  - destruct (c =? NUL) eqn:Ec.
    + inversion H; subst; simpl. bool_hyps; assumption.
    + destruct (step seps st c) as [st1 [|]]; [eauto|discriminate].
Qed.

Lemma scan_length seps p : forall st st' r e,
  scan seps st p = (st', r, e) ->
  (length r <= length p)%nat
  /\ (deref p <> NUL -> (length r < length p)%nat).
Proof.
  induction p as [|c p IH]; simpl; intros st st' r e H.
  - inversion H; subst; simpl. split; [lia|congruence].
  - destruct (c =? NUL) eqn:Ec.
    + inversion H; subst; simpl. bool_hyps. split; [lia|congruence].
    + destruct (step seps st c) as [st1 [|]].
      * apply IH in H. lia.
      * inversion H; subst. lia.
Qed.

Lemma skip_spaces_length s seps :
  (length (skip_spaces s seps) <= length s)%nat.
Proof.
  induction s as [|c s IH]; simpl; [lia|].
  destruct (is_sep_space c seps); simpl; lia.
Qed.

Lemma skip_spaces_at_nul s seps :
  deref s = NUL -> skip_spaces s seps = s.
Proof.
  destruct s as [|c s]; simpl; [reflexivity|]. intros ->. reflexivity.
Qed.

(** What stops [skip_spaces] is not a separator. *)
Lemma skip_spaces_stops s seps :
  is_sep_space (deref (skip_spaces s seps)) seps = false.
Proof.
  induction s as [|c s IH]; simpl; [reflexivity|].
  destruct (is_sep_space c seps) eqn:E; [assumption|]. simpl. assumption.
Qed.

Lemma end_flush_partial st :
  state_ok st -> partial_digits st = true ->
  end_flush st = set_escape 0 (emit (cval st) st).
Proof.
  unfold state_ok, partial_digits, end_flush. intros [Hq He] H.
  case_match; [reflexivity|]. exfalso.
  revert H H0. split_tests; simpl; intros; try discriminate; lia.
Qed.

Lemma end_flush_other st :
  state_ok st -> partial_digits st = false -> end_flush st = st.
Proof.
  unfold state_ok, partial_digits, end_flush. intros [Hq He] H.
  case_match; [|reflexivity]. exfalso.
  revert H H0. split_tests; simpl; intros; try discriminate; lia.
Qed.

(** The test [inquote || escape] after the flush. *)
Lemma end_flush_test st :
  state_ok st ->
  negb (inquote (end_flush st) =? NUL) || negb (escape (end_flush st) =? 0)
  = unresolved st.
Proof.
  intros Hok. destruct (partial_digits st) eqn:Hp.
  - rewrite (end_flush_partial _ Hok Hp). simpl.
    unfold partial_digits in Hp. unfold unresolved.
    revert Hp. split_tests; simpl; intros; try discriminate;
      try reflexivity; lia.
  - rewrite (end_flush_other _ Hok Hp).
    unfold partial_digits in Hp. unfold unresolved.
    destruct Hok as [Hq He].
    revert Hp. split_tests; simpl; intros; try discriminate;
      try reflexivity; lia.
Qed.

(** The three ways a call of [gettok] goes. *)
Lemma gettok_cases s tok seps :
  let t := skip_spaces s seps in
  (deref t = NUL /\ gettok s tok seps = (0, t, None))
  \/ (deref t <> NUL /\
      exists st p e,
        scan seps init_state t = (st, p, e) /\ state_ok st /\
        gettok s tok seps =
          if unresolved st then (-1, p, tok)
          else (0, p, Some (out (end_flush st)))).
Proof.
  intros t. unfold gettok. fold t.
  destruct (Z.eqb_spec (deref t) NUL) as [E|E]; [left; auto|right].
  split; [assumption|].
  destruct (scan seps init_state t) as [[st p] e] eqn:Hs.
  exists st, p, e. split; [reflexivity|].
  pose proof (scan_ok _ _ _ _ _ _ init_state_ok Hs) as Hok.
  split; [assumption|].
  rewrite (end_flush_test _ Hok). reflexivity.
Qed.

(** [gettok] never moves [*s] backwards, and moves it forwards when it
    hands out a token. *)
Lemma gettok_length s tok seps e s' tok' :
  gettok s tok seps = (e, s', tok') ->
  (length s' <= length s)%nat.
Proof.
  intros H. pose proof (skip_spaces_length s seps).
  destruct (gettok_cases s tok seps) as [[_ G]|(Hd & st & p & x & Hs & _ & G)];
    rewrite G in H.
  - inversion H; subst. assumption.
  - apply scan_length in Hs.
    destruct (unresolved st); inversion H; subst; lia.
Qed.

Lemma gettok_shrinks s tok seps s' t :
  gettok s tok seps = (0, s', Some t) ->
  (length s' < length s)%nat.
Proof.
  intros H. pose proof (skip_spaces_length s seps).
  destruct (gettok_cases s tok seps) as [[_ G]|(Hd & st & p & x & Hs & _ & G)];
    rewrite G in H.
  - inversion H.
  - apply scan_length in Hs. destruct Hs as [_ Hs]. specialize (Hs Hd).
    destruct (unresolved st); inversion H; subst; lia.
Qed.

End TokFacts.

Module PureFacts.
Import TokFacts.

Lemma scan_at_nul seps st p :
  deref p = NUL -> scan seps st p = (st, p, AtEnd).
Proof. destruct p as [|c p]; simpl; [reflexivity|]. intros ->. reflexivity. Qed.

Lemma collect_null fuel seps err s :
  collect fuel seps err s None = Some (err, []).
Proof. destruct fuel; reflexivity. Qed.

Lemma collect_err fuel seps err s tok :
  err <> 0 -> collect fuel seps err s tok = Some (err, []).
Proof.
  intros H. apply Z.eqb_neq in H.
  destruct fuel, tok; simpl; rewrite ?H; reflexivity.
Qed.

Lemma ends_in_total seps : forall s, exists st, ends_in seps s st.
Proof.
  intros s. remember (length s) as n eqn:Hn.
  revert s Hn. induction n as [n IH] using lt_wf_ind. intros s ->.
  destruct (scan seps init_state (skip_spaces s seps)) as [[st p] e] eqn:Hs.
  destruct e.
  - exists st. eapply ends_here; eauto.
  - destruct (Z.eq_dec (deref (skip_spaces s seps)) NUL) as [E|E].
    { rewrite (scan_at_nul _ _ _ E) in Hs. discriminate. }
    pose proof (skip_spaces_length s seps).
    apply scan_length in Hs as Hl. destruct Hl as [_ Hl]. specialize (Hl E).
    destruct (IH (length p) ltac:(lia) p eq_refl) as [st1 H1].
    exists st1. eapply ends_later; eauto.
Qed.

Lemma ends_in_ok seps s st : ends_in seps s st -> state_ok st.
Proof.
  induction 1; [|assumption].
  eapply scan_ok; [apply init_state_ok|eassumption].
Qed.

Lemma ends_in_unique seps s st1 st2 :
  ends_in seps s st1 -> ends_in seps s st2 -> st1 = st2.
Proof.
  intros H1. revert st2. induction H1; intros st2 H2; inversion H2; subst.
  - congruence.
  - congruence.
  - congruence.
  - rewrite H in H0. inversion H0; subst. eauto.
Qed.

(** The error code of the loop is decided by the state in which the end
    of the buffer is reached. *)
Lemma collect_ends_in seps s st :
  ends_in seps s st ->
  forall fuel tok, (length s < fuel)%nat ->
  exists toks,
    (let '(e, s', tok') := gettok s tok seps in
     collect fuel seps e s' tok')
    = Some (if unresolved st then -1 else 0, toks).
Proof.
  induction 1 as [s st p Hs|s st' p st Hs Hin IH]; intros fuel tok Hf.
  - destruct (gettok_cases s tok seps)
      as [[Hd G]|(Hd & st1 & p1 & x & Hs1 & Hok & G)]; rewrite G.
    + rewrite (scan_at_nul _ _ _ Hd) in Hs. inversion Hs; subst.
      exists []. apply collect_null.
    + rewrite Hs in Hs1. inversion Hs1; subst.
      destruct (unresolved st1).
      * exists []. apply collect_err. lia.
      * destruct fuel as [|f]; [lia|].
        apply scan_end in Hs. simpl.
        destruct (gettok_cases p1 (Some (out (end_flush st1))) seps)
          as [[_ G1]|(Hd1 & _)].
        -- rewrite G1, collect_null. eexists. reflexivity.
        -- rewrite (skip_spaces_at_nul _ _ Hs) in Hd1. contradiction.
  - destruct (gettok_cases s tok seps)
      as [[Hd G]|(Hd & st1 & p1 & x & Hs1 & Hok & G)]; rewrite G.
    + rewrite (scan_at_nul _ _ _ Hd) in Hs. discriminate.
    + rewrite Hs in Hs1. inversion Hs1; subst.
      destruct (scan_sep _ _ _ _ _ Hs) as [He Hq].
      assert (unresolved st1 = false) as ->.
      { unfold unresolved. rewrite He, Hq. reflexivity. }
      destruct fuel as [|f]; [lia|].
      pose proof (skip_spaces_length s seps).
      apply scan_length in Hs. destruct Hs as [_ Hs]. specialize (Hs Hd).
      destruct (IH f (Some (out (end_flush st1))) ltac:(lia)) as [toks Ht].
      simpl.
      destruct (gettok p1 (Some (out (end_flush st1))) seps) as [[e s'] tok'].
      rewrite Ht. eexists. reflexivity.
Qed.

Lemma tokenize_ends_in tok0 seps s st :
  ends_in seps s st ->
  exists toks,
    tokenize tok0 seps s = Some (if unresolved st then -1 else 0, toks).
Proof.
  intros H. unfold tokenize.
  apply (collect_ends_in _ _ _ H (S (length s)) tok0). lia.
Qed.

(** The token sequence is always defined: the loop bound is enough. *)
Lemma tokenize_total tok0 seps s :
  exists e toks, tokenize tok0 seps s = Some (e, toks).
Proof.
  destruct (ends_in_total seps s) as [st H].
  destruct (tokenize_ends_in tok0 _ _ _ H) as [toks Ht]. eauto.
Qed.

End PureFacts.

(** ** The in-place tokenizer stores what the tokenizer core says *)

Module InPlaceFacts.
Import TokFacts.

Lemma rd_lookup b i c : b !! i = Some c -> InPlace.rd b i = c.
Proof. unfold InPlace.rd. intros ->. reflexivity. Qed.

Lemma rd_nonzero b i :
  InPlace.rd b i <> NUL ->
  (i < length b)%nat /\ b !! i = Some (InPlace.rd b i).
Proof.
  unfold InPlace.rd. destruct (b !! i) as [c|] eqn:E; simpl; [|congruence].
  intros _. split; [|reflexivity]. apply lookup_lt_Some in E. assumption.
Qed.

Lemma rd_beyond b i : (length b <= i)%nat -> InPlace.rd b i = NUL.
Proof.
  intros H. unfold InPlace.rd. rewrite lookup_ge_None_2 by assumption.
  reflexivity.
Qed.

Lemma seg_put b t o v :
  (t <= o)%nat -> (o < length b)%nat ->
  InPlace.seg (<[o := v]> b) t (S o) = InPlace.seg b t o ++ [v].
Proof.
  intros Ht Ho. unfold InPlace.seg.
  replace (S o - t)%nat with (S (o - t)) by lia.
  rewrite drop_insert_ge by assumption.
  rewrite (take_S_r _ _ v).
  - rewrite take_insert_ge by lia. reflexivity.
  - apply list_lookup_insert_eq. rewrite length_drop. lia.
Qed.

Lemma seg_frame b b' t o :
  (forall i, (t <= i < o)%nat -> b' !! i = b !! i) ->
  InPlace.seg b' t o = InPlace.seg b t o.
Proof.
  intros H. unfold InPlace.seg. apply list_eq. intros i.
  rewrite !lookup_take, !lookup_drop.
  case_decide; [|reflexivity]. apply H. lia.
Qed.

Lemma seg_nil b t : InPlace.seg b t t = [].
Proof. unfold InPlace.seg. rewrite Nat.sub_diag. reflexivity. Qed.

(** A store through [o] keeps the invariant, given room behind [p]. *)
Lemma inv_put b0 t r v :
  inv b0 t r -> (InPlace.o r < InPlace.p r)%nat ->
  abs t (InPlace.put v r) = emit v (abs t r) /\
  (t <= S (InPlace.o r) <= InPlace.p r)%nat /\
  length (InPlace.buf (InPlace.put v r)) = length b0 /\
  (forall i, (InPlace.p r <= i)%nat ->
             InPlace.buf (InPlace.put v r) !! i = b0 !! i) /\
  (forall i, (i < t)%nat -> InPlace.buf (InPlace.put v r) !! i = b0 !! i).
Proof.
  intros (Hto & Hop & Hp & Hl & Hs & Hb & _) Hlt. simpl.
  split; [|split; [lia|split; [|split]]].
  - unfold abs, emit. simpl. rewrite seg_put by lia. reflexivity.
  - rewrite length_insert. assumption.
  - intros i Hi. rewrite list_lookup_insert_ne by lia. auto.
  - intros i Hi. rewrite list_lookup_insert_ne by lia. auto.
Qed.

Ltac solve_inv :=
  unfold inv in *; simpl in *;
  repeat match goal with H : _ /\ _ |- _ => destruct H end;
  repeat split; intros;
  rewrite ?length_insert;
  try (rewrite list_lookup_insert_ne by lia);
  auto with zarith; try lia.

(** [process_char], given that [p] is at a byte of the buffer. *)
Lemma process_char_sim seps b0 t r r' k :
  inv b0 t r -> InPlace.escape r = 0 ->
  InPlace.rd (InPlace.buf r) (InPlace.p r) <> NUL ->
  InPlace.process_char seps r = (r', k) ->
  process_char seps (abs t r) (InPlace.rd (InPlace.buf r) (InPlace.p r))
  = (abs t r', k) /\
  inv b0 t (InPlace.advance r') /\
  (k = Break -> (InPlace.o r' <= InPlace.p r')%nat).
Proof.
  intros Hi He Hc H.
  destruct (rd_nonzero _ _ Hc) as [Hlt _].
  assert (InPlace.p r < length b0)%nat as Hp by (unfold inv in Hi; lia).
  unfold InPlace.process_char in H. unfold process_char.
  change (Tok.inquote (abs t r)) with (InPlace.inquote r).
  repeat case_match; inversion H; subst; clear H;
    (split; [try reflexivity|split; [solve_inv|]]);
    try discriminate; try (intros _; unfold inv in Hi; lia).
  unfold abs, emit. simpl. rewrite seg_put; [reflexivity| |];
    unfold inv in Hi; lia.
Qed.

(** One iteration of the loop, and [p++]. *)
Lemma step_sim seps b0 t r r' k :
  inv b0 t r ->
  InPlace.rd (InPlace.buf r) (InPlace.p r) <> NUL ->
  InPlace.step seps r = (r', k) ->
  step seps (abs t r) (InPlace.rd (InPlace.buf r) (InPlace.p r))
  = (abs t r', k) /\
  inv b0 t (InPlace.advance r') /\
  (k = Break -> (InPlace.o r' <= InPlace.p r')%nat).
Proof.
  intros Hi Hc H.
  destruct (rd_nonzero _ _ Hc) as [Hlt _].
  assert (InPlace.p r < length b0)%nat as Hp by (unfold inv in Hi; lia).
  unfold InPlace.step in H. unfold step.
  change (Tok.escape (abs t r)) with (InPlace.escape r).
  change (Tok.base (abs t r)) with (InPlace.base r).
  change (Tok.cval (abs t r)) with (InPlace.cval r).
  set (c := InPlace.rd (InPlace.buf r) (InPlace.p r)) in *.
  destruct (Z.eqb_spec (InPlace.escape r) 0) as [E0|E0]; simpl in H |- *.
  { eapply process_char_sim; eauto. }
  destruct (Z.eqb_spec (InPlace.escape r) 1) as [E1|E1].
  { destruct (isodigit c); [|destruct (c =? 120)];
      inversion H; subst; clear H; simpl;
      (split; [try reflexivity|split; [solve_inv|discriminate]]).
    unfold abs, emit, set_escape, set_cval. simpl.
    rewrite seg_put; [reflexivity| |]; unfold inv in Hi; lia. }
  destruct (Z.leb_spec 2 (InPlace.escape r)) as [E2|E2].
  2:{ inversion H; subst; clear H.
      split; [reflexivity|split; [solve_inv|discriminate]]. }
  destruct (((InPlace.base r =? 16) && isxdigit c) || isodigit c).
  { simpl in H. destruct (Z.leb_spec 3 (InPlace.escape r));
      inversion H; subst; clear H; simpl;
      (split; [try reflexivity|split; [solve_inv|discriminate]]).
    unfold abs, emit, set_escape, set_cval. simpl.
    rewrite seg_put; [reflexivity| |]; unfold inv in Hi; lia. }
  (* the digits are cut short *)
  set (r1 := InPlace.with_escape 0 (InPlace.put (InPlace.cval r) r)) in *.
  assert (inv b0 t r1) as Hi1 by (subst r1; solve_inv).
  assert (InPlace.rd (InPlace.buf r1) (InPlace.p r1) = c) as Hc1.
  { subst r1 c. simpl. unfold InPlace.rd.
    rewrite list_lookup_insert_ne; [reflexivity|].
    unfold inv in Hi. lia. }
  assert (abs t r1 = set_escape 0 (emit (InPlace.cval r) (abs t r))) as Ha.
  { subst r1. unfold abs, emit, set_escape. simpl.
    rewrite seg_put; [reflexivity| |]; unfold inv in Hi; lia. }
  rewrite <- Ha, <- Hc1.
  eapply process_char_sim; eauto. rewrite Hc1. assumption.
Qed.

Lemma process_char_p seps r r' k :
  InPlace.process_char seps r = (r', k) -> InPlace.p r' = InPlace.p r.
Proof.
  unfold InPlace.process_char. intros H.
  repeat case_match; inversion H; subst; reflexivity.
Qed.

Lemma step_p seps r r' k :
  InPlace.step seps r = (r', k) -> InPlace.p r' = InPlace.p r.
Proof.
  unfold InPlace.step. intros H.
  repeat case_match; try (inversion H; subst; reflexivity);
    apply process_char_p in H; assumption.
Qed.

Lemma deref_drop b i : deref (drop i b) = InPlace.rd b i.
Proof.
  unfold InPlace.rd. destruct (b !! i) as [c|] eqn:E.
  - rewrite (drop_S _ _ _ E). reflexivity.
  - apply lookup_ge_None in E. rewrite drop_ge by assumption. reflexivity.
Qed.

(** The loop of [gettok] on the buffer does what [scan] does on the bytes
    from [p] on, and never runs out of iterations. *)
Lemma loop_sim seps b0 t : forall n r,
  inv b0 t r -> (length b0 - InPlace.p r <= n)%nat ->
  exists r' e,
    InPlace.loop n seps r = Some (r', e) /\
    scan seps (abs t r) (drop (InPlace.p r) b0)
    = (abs t r', drop (InPlace.p r') b0, e) /\
    inv b0 t r' /\ (InPlace.p r <= InPlace.p r')%nat /\
    (e = AtEnd -> InPlace.rd b0 (InPlace.p r') = NUL) /\
    (e = AtSep -> (InPlace.o r' < InPlace.p r')%nat).
Proof.
  induction n as [|n IH]; intros r Hi Hn.
  - assert (InPlace.rd (InPlace.buf r) (InPlace.p r) = NUL) as Hz.
    { apply rd_beyond. unfold inv in Hi. lia. }
    assert (InPlace.rd b0 (InPlace.p r) = NUL) as Hz0.
    { apply rd_beyond. lia. }
    exists r, AtEnd. simpl. rewrite Hz. simpl.
    rewrite PureFacts.scan_at_nul by (rewrite deref_drop; assumption).
    split_and!; auto. discriminate.
  - assert (InPlace.rd b0 (InPlace.p r)
            = InPlace.rd (InPlace.buf r) (InPlace.p r)) as Hrd.
    { unfold InPlace.rd. f_equal. symmetry.
      destruct Hi as (_ & _ & _ & _ & Hs & _). apply Hs. lia. }
    cbn [InPlace.loop].
    destruct (Z.eqb_spec (InPlace.rd (InPlace.buf r) (InPlace.p r)) NUL)
      as [Hz|Hz].
    + exists r, AtEnd.
      rewrite PureFacts.scan_at_nul by (rewrite deref_drop; congruence).
      split_and!; auto; [intros _; congruence|discriminate].
    + rewrite <- Hrd in Hz. destruct (rd_nonzero _ _ Hz) as [Hlt Hl].
      rewrite (drop_S _ _ _ Hl). cbn [scan].
      destruct (Z.eqb_spec (InPlace.rd b0 (InPlace.p r)) NUL);
        [contradiction|].
      destruct (InPlace.step seps r) as [r1 k] eqn:Hs.
      rewrite Hrd in Hz |- *.
      destruct (step_sim _ _ _ _ _ _ Hi Hz Hs) as (Hst & Hi1 & Hbr).
      pose proof (step_p _ _ _ _ Hs) as Hp1.
      rewrite Hst. destruct k.
      * destruct (IH (InPlace.advance r1) Hi1)
          as (r' & e & H1 & H2 & H3 & H4 & H5 & H6).
        { simpl. lia. }
        exists r', e. simpl in H2, H4. rewrite Hp1 in H2, H4.
        split_and!; auto. lia.
      * exists (InPlace.advance r1), AtSep. simpl. rewrite Hp1.
        split_and!; auto; [discriminate|].
        intros _. specialize (Hbr eq_refl). lia.
Qed.

Lemma skip_spaces_sim seps b : forall n s,
  (length b - s <= n)%nat -> (s <= length b)%nat ->
  skip_spaces (drop s b) seps = drop (InPlace.skip_spaces n b s seps) b /\
  (s <= InPlace.skip_spaces n b s seps <= length b)%nat /\
  (InPlace.rd b s = NUL -> InPlace.skip_spaces n b s seps = s).
Proof.
  induction n as [|n IH]; intros s Hn Hs.
  - simpl. rewrite drop_ge by lia. simpl. split_and!; auto; lia.
  - cbn [InPlace.skip_spaces]. unfold InPlace.rd.
    destruct (b !! s) as [c|] eqn:E; simpl.
    + rewrite (drop_S _ _ _ E). simpl.
      pose proof (lookup_lt_Some _ _ _ E) as Hlt.
      destruct (is_sep_space c seps) eqn:Hc.
      * destruct (IH (S s)) as (H1 & H2 & _); [lia|lia|].
        split_and!; try assumption; try lia.
        intros ->. discriminate.
      * rewrite (drop_S _ _ _ E). split_and!; auto; lia.
    + apply lookup_ge_None in E. rewrite drop_ge by lia. simpl.
      split_and!; auto; lia.
Qed.

Lemma end_flush_sim b0 t r :
  inv b0 t r ->
  abs t (InPlace.end_flush r) = end_flush (abs t r) /\
  (t <= InPlace.o (InPlace.end_flush r) <= InPlace.p r)%nat /\
  InPlace.p (InPlace.end_flush r) = InPlace.p r /\
  length (InPlace.buf (InPlace.end_flush r)) = length b0 /\
  (forall i, (InPlace.p r <= i)%nat ->
             InPlace.buf (InPlace.end_flush r) !! i = b0 !! i) /\
  (forall i, (i < t)%nat -> InPlace.buf (InPlace.end_flush r) !! i = b0 !! i)
  /\ (InPlace.o r < InPlace.p r ->
      InPlace.o (InPlace.end_flush r) < InPlace.p r)%nat.
Proof.
  intros Hi. unfold InPlace.end_flush, end_flush.
  change (Tok.escape (abs t r)) with (InPlace.escape r).
  change (Tok.base (abs t r)) with (InPlace.base r).
  change (Tok.cval (abs t r)) with (InPlace.cval r).
  destruct (((InPlace.base r =? 8) && (1 <? InPlace.escape r))
            || ((InPlace.base r =? 16) && (2 <? InPlace.escape r))) eqn:E.
  - assert (2 <= InPlace.escape r) as He.
    { revert E. split_tests; simpl; intros; try discriminate; lia. }
    assert (InPlace.o r + 2 <= InPlace.p r)%nat as Hm
      by (unfold inv in Hi; tauto).
    destruct (inv_put _ _ _ (InPlace.cval r) Hi ltac:(lia))
      as (Ha & Hb & Hl & Hs & Hp).
    simpl. split_and!; auto; try lia.
    unfold abs, set_escape, emit in *. simpl in *.
    inversion Ha. reflexivity.
  - unfold inv in Hi. split_and!; try tauto; try lia; auto.
Qed.

Lemma seg_length b t o :
  (t <= o <= length b)%nat -> length (InPlace.seg b t o) = (o - t)%nat.
Proof.
  intros H. unfold InPlace.seg. rewrite length_take, length_drop. lia.
Qed.

(** The final [*o = 0] leaves the bytes from [p] on as they are. *)
Lemma terminate_frame b0 buf o p :
  length buf = length b0 ->
  (forall i, (p <= i)%nat -> buf !! i = b0 !! i) ->
  (o <= p)%nat -> (o = p -> InPlace.rd b0 p = NUL) ->
  drop p (<[o := NUL]> buf) = drop p b0.
Proof.
  intros Hl Hs Ho Hz. apply list_eq. intros i. rewrite !lookup_drop.
  destruct (decide (o = p + i)%nat) as [E|E].
  - assert (o = p) as Hop by lia. assert (i = 0)%nat as -> by lia.
    specialize (Hz Hop). subst o. rewrite Nat.add_0_r.
    destruct (decide (p < length buf)%nat) as [Hlt|Hge].
    + rewrite list_lookup_insert_eq by assumption.
      unfold InPlace.rd in Hz.
      destruct (b0 !! p) as [c|] eqn:Hc; simpl in Hz; [congruence|].
      apply lookup_ge_None in Hc. lia.
    + rewrite list_insert_ge by lia. apply Hs. lia.
  - rewrite list_lookup_insert_ne by assumption. apply Hs. lia.
Qed.

Lemma gettok_sim seps b s tok tokb :
  (s <= length b)%nat -> gettok_refines seps b s tok tokb.
Proof.
  intros Hs. unfold gettok_refines, InPlace.gettok, gettok.
  destruct (skip_spaces_sim seps b (length b) s ltac:(lia) Hs)
    as (Hsk & Ht & Hsz).
  set (t := InPlace.skip_spaces (length b) b s seps) in *.
  rewrite Hsk, deref_drop.
  destruct (Z.eqb_spec (InPlace.rd b t) NUL) as [Hz|Hz].
  { exists 0, b, t, None, None. split_and!; auto; try lia.
    right. left. auto. }
  set (r0 := {| InPlace.buf := b; InPlace.p := t; InPlace.o := t;
               InPlace.inquote := NUL; InPlace.escape := 0;
               InPlace.base := 8; InPlace.cval := 0 |}).
  assert (inv b t r0) as Hi0.
  { unfold inv, r0. simpl. split_and!; auto; lia. }
  assert (abs t r0 = init_state) as Ha0.
  { unfold abs, r0, init_state. simpl. rewrite seg_nil. reflexivity. }
  destruct (loop_sim seps b t (length b) r0 Hi0 ltac:(lia))
    as (r' & e & Hl & Hsc & Hi & Hp & Hend & Hsep).
  rewrite Ha0 in Hsc. simpl in Hsc, Hp. rewrite Hl, Hsc.
  destruct (end_flush_sim _ _ _ Hi) as (Hf & Ho & Hpf & Hlen & Hfr & Hbk & Hlt).
  rewrite <- Hf.
  change (Tok.inquote (abs t (InPlace.end_flush r')))
    with (InPlace.inquote (InPlace.end_flush r')).
  change (Tok.escape (abs t (InPlace.end_flush r')))
    with (InPlace.escape (InPlace.end_flush r')).
  set (rf := InPlace.end_flush r') in *.
  assert (InPlace.p r' <= length b)%nat as Hpl by (unfold inv in Hi; lia).
  assert (forall P : Prop, InPlace.rd b s = NUL -> P) as Hns.
  { intros P Hz'. exfalso. apply Hz. rewrite (Hsz Hz'). assumption. }
  destruct (negb (InPlace.inquote rf =? 0) || negb (InPlace.escape rf =? 0)).
  - exists (-1), (InPlace.buf rf), (InPlace.p rf), tok, tokb.
    rewrite Hpf.
    split_and!; auto; try lia; try (intros Hz'; exact (Hns _ Hz')).
    + f_equal. f_equal. apply list_eq. intros i. rewrite !lookup_drop.
      symmetry. apply Hfr. lia.
    + intros i Hi'. apply Hbk. lia.
  - exists 0, (<[InPlace.o rf := NUL]> (InPlace.buf rf)), (InPlace.p rf),
      (Some t), (Some (Tok.out (abs t rf))).
    rewrite Hpf.
    split_and!; auto; try lia; try (intros Hz'; exact (Hns _ Hz')).
    + f_equal. f_equal. symmetry. apply terminate_frame; auto; try lia.
      intros Hop. apply Hend. destruct e; [reflexivity|].
      specialize (Hsep eq_refl). specialize (Hlt Hsep). lia.
    + rewrite length_insert. assumption.
    + intros i Hi'. rewrite list_lookup_insert_ne by lia. apply Hbk. lia.
    + right. right. split; [reflexivity|].
      exists t, (Tok.out (abs t rf)).
      assert (length (Tok.out (abs t rf)) = (InPlace.o rf - t)%nat) as Hlo.
      { unfold abs. simpl. apply seg_length. lia. }
      split_and!; auto; try lia.
      unfold InPlace.string_at. rewrite Hlo.
      replace (t + (InPlace.o rf - t))%nat with (InPlace.o rf) by lia.
      split.
      * unfold abs. simpl. apply seg_frame. intros i Hi'.
        apply list_lookup_insert_ne. lia.
      * destruct (decide (InPlace.o rf < length b)%nat) as [Hin|Hout].
        -- apply rd_lookup. apply list_lookup_insert_eq. lia.
        -- apply rd_beyond. rewrite length_insert. lia.
Qed.

(** A string in front of [s] stays where it is when the bytes in front of
    [s] stay, and the byte at [s] too if it is a terminator. *)
Lemma string_at_frame b b' t bytes s :
  InPlace.string_at b t bytes -> (t + length bytes <= s)%nat ->
  length b' = length b ->
  (forall i, (i < s)%nat -> b' !! i = b !! i) ->
  (InPlace.rd b s = NUL -> b' = b) ->
  InPlace.string_at b' t bytes.
Proof.
  intros [Hseg Hz] Hle Hl Hfr Hsame.
  destruct (decide (t + length bytes = s)%nat) as [E|E].
  - rewrite E in Hz. rewrite (Hsame Hz). split; [assumption|].
    rewrite E. assumption.
  - split.
    + etransitivity; [|exact Hseg].
      apply seg_frame. intros i Hi. apply Hfr. lia.
    + unfold InPlace.rd in *. rewrite Hfr by lia. assumption.
Qed.

Lemma inplace_collect_stop fuel seps err b s tok :
  err <> 0 \/ tok = None ->
  InPlace.collect fuel seps err b s tok = Some (err, [], b).
Proof.
  intros [H| ->]; [apply Z.eqb_neq in H|];
    destruct fuel; simpl; try destruct tok; rewrite ?H; reflexivity.
Qed.

(** The calls of [gettok] on the buffer leave every token they hand out
    in the buffer: in the end the string at each position handed out is
    the token of the token sequence. *)
Lemma collect_sim seps : forall fuel err b s tok tokb e toks,
  (s <= length b)%nat ->
  pending err b s tok tokb ->
  Pure.collect fuel seps err (drop s b) tokb = Some (e, toks) ->
  exists offs bfin,
    InPlace.collect fuel seps err b s tok = Some (e, offs, bfin) /\
    length bfin = length b /\
    Forall2 (InPlace.string_at bfin) offs toks /\
    (forall i, (i < s)%nat -> bfin !! i = b !! i) /\
    (InPlace.rd b s = NUL -> bfin = b).
Proof.
  induction fuel as [|fuel IH]; intros err b s tok tokb e toks Hs Hp Hc.
  - destruct Hp as [Hp|[[-> ->]|(t & bytes & -> & -> & Hp)]].
    + rewrite PureFacts.collect_err in Hc by assumption.
      inversion Hc; subst.
      rewrite inplace_collect_stop by auto.
      exists [], b. split_and!; auto.
    + simpl in Hc. inversion Hc; subst. exists [], b.
      split_and!; auto.
    + simpl in *. destruct (err =? 0); [discriminate|].
      inversion Hc; subst. exists [], b. split_and!; auto.
  - destruct Hp as [Hp|[[-> ->]|(t & bytes & -> & -> & Hst & Hle)]].
    + rewrite PureFacts.collect_err in Hc by assumption.
      inversion Hc; subst.
      rewrite inplace_collect_stop by auto.
      exists [], b. split_and!; auto.
    + simpl in Hc. inversion Hc; subst. exists [], b.
      split_and!; auto.
    + destruct (Z.eq_dec err 0) as [->|E].
      2:{ rewrite PureFacts.collect_err in Hc by assumption.
          inversion Hc; subst.
          rewrite inplace_collect_stop by auto.
          exists [], b. split_and!; auto. }
      cbn [Pure.collect InPlace.collect] in *.
      change (0 =? 0) with true in *. cbv iota in *.
      destruct (gettok_sim seps b s (Some t) (Some bytes) Hs)
        as (e1 & b' & s' & tok' & tokb' & G1 & G2 & Gl & Gs & Gfr & Gz & Gt).
      rewrite G1. rewrite G2 in Hc.
      destruct (Pure.collect fuel seps e1 (drop s' b') tokb')
        as [[e2 toks']|] eqn:Hc'; [|discriminate].
      inversion Hc; subst e2 toks; clear Hc.
      assert (pending e1 b' s' tok' tokb') as Hp'.
      { destruct Gt as [(-> & _)|[(_ & -> & -> & _)|Gt]];
          [| |destruct Gt as (_ & t1 & by1 & -> & -> & _ & H1 & H2)].
        - left. lia.
        - right. left. auto.
        - right. right. eauto 6. }
      destruct (IH e1 b' s' tok' tokb' e toks' ltac:(lia) Hp' Hc')
        as (offs & bfin & I1 & I2 & I3 & I4 & I5).
      rewrite I1. exists (t :: offs), bfin.
      assert (InPlace.rd b s = NUL -> bfin = b) as Hsame.
      { intros Hz. destruct (Gz Hz) as (-> & -> & ->).
        rewrite inplace_collect_stop in I1 by auto. congruence. }
      split_and!; auto.
      * congruence.
      * constructor; [|assumption].
        apply (string_at_frame b' bfin t bytes s'); auto; try lia.
        -- apply (string_at_frame b b' t bytes s); auto.
           intros Hz. apply (Gz Hz).
      * intros i Hi. rewrite I4 by lia. apply Gfr. assumption.
Qed.

(** The whole token sequence, on the buffer. *)
Theorem tokenize_sim seps b tok0 tokb0 e toks :
  Pure.tokenize tokb0 seps b = Some (e, toks) ->
  exists offs bfin,
    InPlace.tokenize tok0 seps b = Some (e, offs, bfin) /\
    length bfin = length b /\
    Forall2 (InPlace.string_at bfin) offs toks.
Proof.
  unfold Pure.tokenize, InPlace.tokenize. intros H.
  destruct (gettok_sim seps b 0 tok0 tokb0 ltac:(lia))
    as (e1 & b' & s' & tok' & tokb' & G1 & G2 & Gl & Gs & Gfr & Gz & Gt).
  rewrite G1. rewrite drop_0 in G2. rewrite G2 in H.
  assert (pending e1 b' s' tok' tokb') as Hp'.
  { destruct Gt as [(-> & _)|[(_ & -> & -> & _)|Gt]];
      [| |destruct Gt as (_ & t1 & by1 & -> & -> & _ & H1 & H2)].
    - left. lia.
    - right. left. auto.
    - right. right. eauto 6. }
  rewrite <- Gl in H.
  assert (s' <= length b')%nat as Hs' by lia.
  destruct (collect_sim seps _ _ _ _ _ _ _ _ Hs' Hp' H)
    as (offs & bfin & I1 & I2 & I3 & _).
  exists offs, bfin. rewrite <- Gl. split_and!; auto.
Qed.

End InPlaceFacts.

(** ** Facts about the memory operations *)

Module MemFacts.

(** The outcome of a request for a new block. *)
Lemma alloc_cases o w :
  (alloc_ok w (requests w) = true /\
   exists b, heap w !! b = None /\
     alloc o w = Returns (Some b) (set_heap (<[b := o]> (heap w)) (tick w)))
  \/ (alloc_ok w (requests w) = false /\
      alloc o w = Returns None (tick w)).
Proof.
  unfold alloc. destruct (alloc_ok w (requests w)); [left|right; auto].
  split; [reflexivity|]. exists (fresh (dom (heap w))).
  split; [|reflexivity].
  apply not_elem_of_dom, is_fresh.
Qed.

Lemma free_block b o H w :
  heap w = <[b := o]> H -> H !! b = None ->
  free b w = Returns tt (set_heap H w).
Proof.
  intros Hh Hb. unfold free. rewrite Hh, lookup_insert_eq.
  rewrite delete_insert_id by assumption. reflexivity.
Qed.

Lemma store_slot a i v sl H w :
  heap w = <[a := Array sl]> H ->
  0 <= i < Z.of_nat (length sl) ->
  store a i v w
  = Returns tt (set_heap (<[a := Array (<[Z.to_nat i := v]> sl)]> H) w).
Proof.
  intros Hh Hi. unfold store. rewrite Hh, lookup_insert_eq.
  destruct (Z.leb_spec 0 i); [|lia].
  destruct (Z.ltb_spec i (Z.of_nat (length sl))); [|lia].
  simpl. rewrite insert_insert_eq. reflexivity.
Qed.

Lemma realloc_cases a n sl H w :
  heap w = <[a := Array sl]> H -> H !! a = None ->
  (alloc_ok w (requests w) = true /\
   exists b, H !! b = None /\ b <> a /\
     realloc_array a n w
     = Returns (Some b)
         (set_heap (<[b := Array (resize sl n)]> H) (tick w)))
  \/ (alloc_ok w (requests w) = false /\
      realloc_array a n w = Returns None (tick w)).
Proof.
  intros Hh Ha. unfold realloc_array. rewrite Hh, lookup_insert_eq.
  destruct (alloc_cases (Array (resize sl n)) w)
    as [(Hok & b & Hb & ->)|(Hok & ->)]; [left|right; auto].
  split; [assumption|]. exists b.
  rewrite Hh in Hb. apply lookup_insert_None in Hb. destruct Hb as [Hb Hne].
  split; [assumption|]. split; [congruence|].
  simpl. rewrite Hh.
  rewrite delete_insert_ne by congruence.
  rewrite delete_insert_id by assumption. reflexivity.
Qed.

(** A block that grows keeps its slots and gains uninitialized ones. *)
Lemma resize_grow sl n :
  Z.of_nat (length sl) <= n ->
  resize sl n = sl ++ replicate (Z.to_nat n - length sl) Uninit.
Proof.
  intros H. unfold resize. rewrite take_ge by lia. reflexivity.
Qed.

End MemFacts.

(** ** Facts about the argument-vector builder *)

Module ArgvFacts.
Import TokFacts PureFacts MemFacts.

Lemma u32_small z : 0 <= z < two32 -> u32 z = z.
Proof. intros H. unfold u32. apply Z.mod_small. assumption. Qed.

Lemma to_int_small z : 0 <= z <= INT_MAX -> to_int z = z.
Proof.
  intros H. unfold to_int, INT_MAX in *.
  rewrite u32_small by (unfold two32; lia).
  destruct (Z.ltb_spec z 2147483648); lia.
Qed.

(** The code after the loop. *)
Lemma argv_finish orig_s h0 argv args argc err pre junk w :
  heap w = <[argv := Array (pre ++ junk)]> (<[orig_s := StrBuf]> h0) ->
  h0 !! argv = None -> h0 !! orig_s = None -> argv <> orig_s ->
  argc = Z.of_nat (length pre) ->
  args = Z.of_nat (length (pre ++ junk)) ->
  argc + 2 <= args -> argc <= INT_MAX ->
  post h0 orig_s w pre err []
    ((let! _ := store argv argc Null in
      let! _ := store argv (u32 (argc + 1)) (BufPtr orig_s) in
      out_label orig_s argv argc err) w).
Proof.
  intros Hh Ha Ho Hne Hc Hs Hle Hmax.
  rewrite length_app in Hs.
  destruct junk as [|j0 [|j1 rest]]; simpl in Hs; try lia.
  unfold bind.
  rewrite (store_slot _ _ _ _ _ _ Hh) by (rewrite length_app; simpl; lia).
  rewrite insert_app_r_alt by lia.
  replace (Z.to_nat argc - length pre)%nat with 0%nat by lia. simpl.
  rewrite u32_small by (unfold two32, INT_MAX in *; lia).
  erewrite store_slot; [|reflexivity|rewrite length_app; simpl; lia].
  rewrite insert_app_r_alt by lia.
  replace (Z.to_nat (argc + 1) - length pre)%nat with 1%nat by lia. simpl.
  unfold out_label.
  destruct (Z.eqb_spec err 0) as [E|E]; simpl.
  - unfold bind, write_results, ret. simpl.
    split; [reflexivity|]. right. right.
    rewrite to_int_small by lia.
    repeat split; try assumption; try lia.
    exists argv, rest. auto.
  - unfold bind.
    erewrite free_block; [| simpl; apply insert_insert_ne; congruence|].
    2:{ rewrite lookup_insert_ne by assumption. assumption. }
    erewrite free_block; [|reflexivity|assumption].
    unfold ret. simpl. split; [reflexivity|]. right. left. auto.
Qed.

Lemma post_step h0 orig_s w w1 pre t e toks r :
  alloc_ok w1 = alloc_ok w -> out_argc w1 = out_argc w ->
  out_argv w1 = out_argv w ->
  post h0 orig_s w1 (pre ++ [TokPtr t]) e toks r ->
  post h0 orig_s w pre e (t :: toks) r.
Proof.
  intros Ha Hc Hv. destruct r as [err w'| |]; simpl; [|tauto|tauto].
  rewrite Ha, Hc, Hv. intros [H0 H]. split; [assumption|].
  destruct H as [H|[H|H]]; [left; assumption|right; left; assumption|].
  right. right. destruct H as (E1 & E2 & E3 & argv' & rest & H).
  repeat split; try assumption.
  - rewrite E3, length_app. simpl. lia.
  - exists argv', rest. rewrite <- app_assoc in H. exact H.
Qed.

(** The failure of [realloc]: [err = ENOMEM; goto out;]. *)
Lemma argv_nomem orig_s h0 argv argc sl w w0 e toks pre :
  heap w = <[argv := Array sl]> (<[orig_s := StrBuf]> h0) ->
  h0 !! argv = None -> h0 !! orig_s = None -> argv <> orig_s ->
  alloc_ok w = alloc_ok w0 -> out_argc w = out_argc w0 ->
  out_argv w = out_argv w0 ->
  (exists n, alloc_ok w0 n = false) ->
  post h0 orig_s w0 pre e toks (out_label orig_s argv argc ENOMEM w).
Proof.
  intros Hh Ha Ho Hne E1 E2 E3 Hf.
  unfold out_label. simpl. unfold bind.
  erewrite free_block; [| rewrite Hh; apply insert_insert_ne; congruence|].
  2:{ rewrite lookup_insert_ne by assumption. assumption. }
  erewrite free_block; [|reflexivity|assumption].
  unfold ret. simpl. split; [assumption|]. left. auto.
Qed.

(** The loop of [str_to_argv] and the code after it. *)
Lemma argv_loop_post seps orig_s h0 :
  h0 !! orig_s = None ->
  forall fuel argv args argc err s tok pre junk w e toks,
  heap w = <[argv := Array (pre ++ junk)]> (<[orig_s := StrBuf]> h0) ->
  h0 !! argv = None -> argv <> orig_s ->
  argc = Z.of_nat (length pre) ->
  args = Z.of_nat (length (pre ++ junk)) ->
  argc + 2 <= args <= argc + 12 ->
  argc + Z.of_nat (length toks) <= INT_MAX ->
  collect fuel seps err s tok = Some (e, toks) ->
  post h0 orig_s w pre e toks
    (argv_loop fuel seps orig_s argv args argc err s tok w).
Proof.
  intros Ho. induction fuel as [|fuel IH];
    intros argv args argc err s tok pre junk w e toks
           Hh Ha Hne Hc Hs Hle Hmax Hcol.
  - simpl in *. destruct tok as [t|], (err =? 0); try discriminate;
      inversion Hcol; subst e toks;
      eapply argv_finish; eauto; simpl in Hmax; lia.
  - destruct tok as [t|]; [destruct (Z.eqb_spec err 0) as [E|E]|].
    2:{ rewrite collect_err in Hcol by assumption. inversion Hcol; subst.
        simpl. apply Z.eqb_neq in E. rewrite E.
        eapply argv_finish; eauto; simpl in Hmax; lia. }
    2:{ simpl in *. inversion Hcol; subst.
        eapply argv_finish; eauto; simpl in Hmax; lia. }
    subst err. simpl in Hcol.
    destruct (gettok s (Some t) seps) as [[err' s'] tok'] eqn:Hg.
    destruct (collect fuel seps err' s' tok') as [[e' toks']|] eqn:Hc';
      [|discriminate].
    inversion Hcol; subst e' toks; clear Hcol. simpl in Hmax.
    (* the store of the token and the rest of the loop *)
    assert (forall argv1 args1 junk1 w1,
      heap w1 = <[argv1 := Array (pre ++ junk1)]>
                  (<[orig_s := StrBuf]> h0) ->
      h0 !! argv1 = None -> argv1 <> orig_s ->
      args1 = Z.of_nat (length (pre ++ junk1)) ->
      argc + 3 <= args1 <= argc + 12 ->
      alloc_ok w1 = alloc_ok w -> out_argc w1 = out_argc w ->
      out_argv w1 = out_argv w ->
      post h0 orig_s w pre e (t :: toks')
        ((let! _ := store argv1 argc (TokPtr t) in
          let '(err, s, tok) := gettok s (Some t) seps in
          argv_loop fuel seps orig_s argv1 args1 (u32 (argc + 1))
                    err s tok) w1)) as Hbody.
    { intros argv1 args1 junk1 w1 Hh1 Ha1 Hne1 Hs1 Hle1 E1 E2 E3.
      rewrite length_app in Hs1.
      destruct junk1 as [|j junk2]; simpl in Hs1; [lia|].
      unfold bind.
      rewrite (store_slot _ _ _ _ _ _ Hh1)
        by (rewrite length_app; simpl; lia).
      rewrite insert_app_r_alt by lia.
      replace (Z.to_nat argc - length pre)%nat with 0%nat by lia. simpl.
      rewrite Hg.
      rewrite u32_small by (unfold two32, INT_MAX in *; lia).
      eapply post_step; [| | |eapply IH with (junk := junk2)];
        simpl; eauto;
        try (rewrite ?length_app in *; simpl in *; lia).
      rewrite <- app_assoc. reflexivity. }
    cbn [argv_loop]. rewrite Z.eqb_refl.
    unfold bind at 1.
    rewrite u32_small by (unfold two32, INT_MAX in *; lia).
    destruct (Z.leb_spec (args - 2) argc) as [Hfull|Hroom].
    + unfold bind at 1.
      destruct (realloc_cases argv (u32 (args + 10)) _ _ _ Hh)
        as [(Hok & b & Hb & Hba & ->)|(Hok & ->)].
      { rewrite lookup_insert_ne by congruence. assumption. }
      * unfold ret.
        rewrite u32_small by (unfold two32, INT_MAX in *; lia).
        rewrite resize_grow by lia.
        apply lookup_insert_None in Hb. destruct Hb as [Hb Hbo].
        eapply Hbody with
          (junk1 := junk ++ replicate (Z.to_nat (args + 10)
                                       - length (pre ++ junk)) Uninit);
          simpl; eauto;
          try (rewrite ?length_app, ?length_replicate in *; simpl in *; lia).
        rewrite <- app_assoc. reflexivity.
      * unfold ret.
        eapply argv_nomem; simpl; eauto.
    + unfold ret. eapply Hbody; eauto. lia.
Qed.

Lemma c_str_length s : (length (c_str s) <= length s)%nat.
Proof.
  induction s as [|c s IH]; simpl; [lia|].
  destruct (c =? NUL); simpl; lia.
Qed.

(** The loop stores at most one token per byte that is left. *)
Lemma collect_count seps : forall fuel err s tok e toks,
  collect fuel seps err s tok = Some (e, toks) ->
  (length toks <= S (length s))%nat
  /\ (tok = None \/ err <> 0 -> toks = []).
Proof.
  induction fuel as [|fuel IH]; intros err s tok e toks H.
  - simpl in H. destruct tok, (Z.eqb_spec err 0); try discriminate;
      inversion H; subst; simpl; split; try lia; auto.
  - destruct tok as [t|]; [destruct (Z.eq_dec err 0) as [E|E]|].
    + subst err. simpl in H.
      destruct (gettok s (Some t) seps) as [[err' s'] tok'] eqn:Hg.
      destruct (collect fuel seps err' s' tok') as [[e' toks']|] eqn:Hc;
        [|discriminate].
      inversion H; subst. split; [|intros [?|?]; congruence].
      destruct (IH _ _ _ _ _ Hc) as [Hl Hn]. simpl.
      destruct tok' as [t'|]; [destruct (Z.eq_dec err' 0) as [E'|E']|].
      * subst err'. apply gettok_shrinks in Hg. lia.
      * rewrite Hn by auto. simpl. lia.
      * rewrite Hn by auto. simpl. lia.
    + rewrite collect_err in H by assumption. inversion H; subst.
      simpl. split; [lia|auto].
    + rewrite collect_null in H. inversion H; subst.
      simpl. split; [lia|auto].
Qed.

Lemma tokenize_count tok0 seps s e toks :
  tokenize tok0 seps s = Some (e, toks) ->
  (length toks <= length s)%nat.
Proof.
  unfold tokenize. intros H.
  destruct (gettok s tok0 seps) as [[err s'] tok] eqn:Hg.
  destruct (collect_count _ _ _ _ _ _ _ H) as [Hl Hn].
  destruct tok as [t|]; [destruct (Z.eq_dec err 0) as [E|E]|].
  - subst err. apply gettok_shrinks in Hg. lia.
  - rewrite Hn by auto. simpl. lia.
  - rewrite Hn by auto. simpl. lia.
Qed.

Lemma str_to_argv_run tok0 ins seps w e toks :
  Z.of_nat (length ins) <= INT_MAX ->
  tokenize tok0 (seps_of seps) (c_str ins) = Some (e, toks) ->
  str_to_argv_post w e toks (str_to_argv tok0 ins seps w).
Proof.
  intros Hlen Htok.
  pose proof (tokenize_count _ _ _ _ _ Htok) as Hcnt.
  pose proof (c_str_length ins) as Hcl.
  unfold tokenize in Htok. unfold str_to_argv, strdup, malloc_array.
  fold (seps_of seps).
  destruct (gettok (c_str ins) tok0 (seps_of seps)) as [[err s'] tok] eqn:Hg.
  unfold bind at 1.
  destruct (alloc_cases StrBuf w)
    as [(Hok & b & Hb & ->)|(Hok & ->)].
  2:{ simpl. left. eauto 6. }
  unfold bind at 1.
  destruct (alloc_cases (Array (replicate (Z.to_nat 10) Uninit))
              (set_heap (<[b := StrBuf]> (heap w)) (tick w)))
    as [(Hok1 & a & Ha & ->)|(Hok1 & ->)].
  2:{ unfold bind. erewrite free_block; [|reflexivity|assumption].
      simpl. left. simpl in Hok1. eauto 6. }
  simpl in Ha. apply lookup_insert_None in Ha. destruct Ha as [Ha Hab].
  match goal with
  | |- str_to_argv_post _ _ _ (argv_loop _ _ _ _ _ _ _ _ _ ?w2) =>
      assert (P : post (heap w) b w2 [] e toks
                    (argv_loop (S (length (c_str ins))) (seps_of seps) b a
                       10 0 err s' tok w2))
  end.
  { apply argv_loop_post with (junk := replicate 10 Uninit);
      try assumption; try reflexivity; try congruence;
      unfold INT_MAX in *; simpl length; lia. }
  destruct (argv_loop _ _ _ _ _ _ _ _ _ _) as [r w'| |];
    try contradiction.
  unfold post in P. unfold str_to_argv_post. simpl in P.
  destruct P as [_ [P|[P|P]]]; [left; assumption|right; left; assumption|].
  right. right. destruct P as (E1 & E2 & E3 & a' & rest & P1 & P2 & P3 & P4).
  repeat split; try assumption.
  exists a', b, rest. auto.
Qed.

Lemma store_cases a i v sl H w :
  heap w = <[a := Array sl]> H ->
  store a i v w = Fault
  \/ store a i v w
     = Returns tt (set_heap (<[a := Array (<[Z.to_nat i := v]> sl)]> H) w).
Proof.
  intros Hh. unfold store. rewrite Hh, lookup_insert_eq.
  destruct ((0 <=? i) && (i <? Z.of_nat (length sl))); [right|left; auto].
  rewrite insert_insert_eq. reflexivity.
Qed.

Lemma elem_of_insert_inv (sl : list slot) i v x :
  x ∈ <[i := v]> sl -> x = v \/ x ∈ sl.
Proof.
  intros H. apply list_elem_of_lookup in H. destruct H as [j Hj].
  apply list_lookup_insert_Some in Hj.
  destruct Hj as [(_ & -> & _)|(_ & Hj)]; [left; reflexivity|right].
  apply list_elem_of_lookup. eauto.
Qed.

Lemma elem_of_resize_inv sl n x :
  x ∈ resize sl n -> x = Uninit \/ x ∈ sl.
Proof.
  unfold resize. intros H. apply elem_of_app in H. destruct H as [H|H].
  - right. apply elem_of_take in H. destruct H as (i & Hi & _).
    apply list_elem_of_lookup. eauto.
  - left. apply elem_of_replicate in H. tauto.
Qed.

Lemma out_label_released orig_s h0 w0 argv argc err e known sl w :
  heap w = <[argv := Array sl]> (<[orig_s := StrBuf]> h0) ->
  h0 !! argv = None -> h0 !! orig_s = None -> argv <> orig_s ->
  out_argc w = out_argc w0 -> out_argv w = out_argv w0 ->
  (err = ENOMEM /\ exists n, alloc_ok w0 n = false) \/ err = e ->
  (forall t, TokPtr t ∈ sl -> t ∈ known) ->
  released h0 w0 e known (out_label orig_s argv argc err w).
Proof.
  intros Hh Ha Ho Hne E2 E3 He Hk. unfold out_label.
  destruct (Z.eqb_spec err 0) as [E|E]; simpl.
  - unfold bind, write_results, ret. simpl. split; [assumption|].
    split; [lia|]. intros _. exists argv, sl.
    rewrite Hh, lookup_insert_eq. auto.
  - unfold bind.
    erewrite free_block; [| rewrite Hh; apply insert_insert_ne; congruence|].
    2:{ rewrite lookup_insert_ne by assumption. assumption. }
    erewrite free_block; [|reflexivity|assumption].
    unfold ret. simpl. split; [assumption|]. split; [auto|contradiction].
Qed.

Lemma argv_finish_released orig_s h0 w0 argv argc err known sl w :
  heap w = <[argv := Array sl]> (<[orig_s := StrBuf]> h0) ->
  h0 !! argv = None -> h0 !! orig_s = None -> argv <> orig_s ->
  out_argc w = out_argc w0 -> out_argv w = out_argv w0 ->
  (forall t, TokPtr t ∈ sl -> t ∈ known) ->
  released h0 w0 err known
    ((let! _ := store argv argc Null in
      let! _ := store argv (u32 (argc + 1)) (BufPtr orig_s) in
      out_label orig_s argv argc err) w).
Proof.
  intros Hh Ha Ho Hne E2 E3 Hk. unfold bind at 1.
  destruct (store_cases argv argc Null _ _ _ Hh) as [->| ->];
    [exact I|].
  unfold bind at 1.
  destruct (store_cases argv (u32 (argc + 1)) (BufPtr orig_s)
              (<[Z.to_nat argc := Null]> sl)
              (<[orig_s := StrBuf]> h0)
              (set_heap (<[argv := Array (<[Z.to_nat argc := Null]> sl)]>
                           (<[orig_s := StrBuf]> h0)) w)
              eq_refl) as [->| ->]; [exact I|].
  eapply out_label_released; simpl; eauto.
  intros t Ht.
  apply elem_of_insert_inv in Ht. destruct Ht as [Ht|Ht]; [discriminate|].
  apply elem_of_insert_inv in Ht. destruct Ht as [Ht|Ht]; [discriminate|].
  auto.
Qed.

Lemma argv_loop_released seps orig_s h0 w0 :
  h0 !! orig_s = None ->
  forall fuel argv args argc err s tok sl w e toks known,
  heap w = <[argv := Array sl]> (<[orig_s := StrBuf]> h0) ->
  h0 !! argv = None -> argv <> orig_s ->
  alloc_ok w = alloc_ok w0 ->
  out_argc w = out_argc w0 -> out_argv w = out_argv w0 ->
  (forall t, TokPtr t ∈ sl -> t ∈ known) ->
  collect fuel seps err s tok = Some (e, toks) ->
  released h0 w0 e (known ++ toks)
    (argv_loop fuel seps orig_s argv args argc err s tok w).
Proof.
  intros Ho. induction fuel as [|fuel IH];
    intros argv args argc err s tok sl w e toks known
           Hh Ha Hne E1 E2 E3 Hk Hcol.
  - simpl in *. destruct tok as [t|], (err =? 0); try discriminate;
      inversion Hcol; subst e toks; rewrite app_nil_r;
      eapply argv_finish_released; eauto.
  - destruct tok as [t|]; [destruct (Z.eqb_spec err 0) as [E|E]|].
    2:{ rewrite collect_err in Hcol by assumption. inversion Hcol; subst.
        simpl. apply Z.eqb_neq in E. rewrite E, app_nil_r.
        eapply argv_finish_released; eauto. }
    2:{ simpl in *. inversion Hcol; subst. rewrite app_nil_r.
        eapply argv_finish_released; eauto. }
    subst err. simpl in Hcol.
    destruct (gettok s (Some t) seps) as [[err' s'] tok'] eqn:Hg.
    destruct (collect fuel seps err' s' tok') as [[e' toks']|] eqn:Hc';
      [|discriminate].
    inversion Hcol; subst e' toks; clear Hcol.
    assert (forall argv1 args1 sl1 w1,
      heap w1 = <[argv1 := Array sl1]> (<[orig_s := StrBuf]> h0) ->
      h0 !! argv1 = None -> argv1 <> orig_s ->
      alloc_ok w1 = alloc_ok w0 -> out_argc w1 = out_argc w0 ->
      out_argv w1 = out_argv w0 ->
      (forall t, TokPtr t ∈ sl1 -> t ∈ known) ->
      released h0 w0 e (known ++ t :: toks')
        ((let! _ := store argv1 argc (TokPtr t) in
          let '(err, s, tok) := gettok s (Some t) seps in
          argv_loop fuel seps orig_s argv1 args1 (u32 (argc + 1))
                    err s tok) w1)) as Hbody.
    { intros argv1 args1 sl1 w1 Hh1 Ha1 Hne1 F1 F2 F3 Hk1. unfold bind.
      destruct (store_cases argv1 argc (TokPtr t) _ _ _ Hh1)
        as [->| ->]; [exact I|].
      rewrite Hg.
      replace (known ++ t :: toks') with ((known ++ [t]) ++ toks')
        by (rewrite <- app_assoc; reflexivity).
      eapply IH; simpl; eauto.
      intros t1 Ht1. apply elem_of_insert_inv in Ht1.
      apply elem_of_app. destruct Ht1 as [Ht1|Ht1].
      - right. inversion Ht1. apply list_elem_of_singleton. reflexivity.
      - left. auto. }
    cbn [argv_loop]. rewrite Z.eqb_refl.
    unfold bind at 1.
    destruct (u32 (args - 2) <=? argc).
    + unfold bind at 1.
      destruct (realloc_cases argv (u32 (args + 10)) _ _ _ Hh)
        as [(Hok & b & Hb & Hba & ->)|(Hok & ->)].
      { rewrite lookup_insert_ne by congruence. assumption. }
      * unfold ret.
        apply lookup_insert_None in Hb. destruct Hb as [Hb Hbo].
        eapply Hbody; simpl; eauto.
        intros t1 Ht1. apply elem_of_resize_inv in Ht1.
        destruct Ht1 as [Ht1|Ht1]; [discriminate|auto].
      * unfold ret.
        eapply out_label_released; simpl; eauto.
        -- left. split; [reflexivity|]. exists (requests w). congruence.
        -- intros t1 Ht1. apply elem_of_app. left. auto.
    + unfold ret. eapply Hbody; eauto.
Qed.

(** [str_to_argv] for inputs of any length: a failure leaves nothing
    behind, and a success hands out tokens of the token sequence only. *)
Lemma str_to_argv_released tok0 ins seps w e toks :
  tokenize tok0 (seps_of seps) (c_str ins) = Some (e, toks) ->
  released (heap w) w e toks (str_to_argv tok0 ins seps w).
Proof.
  intros Htok.
  unfold tokenize in Htok. unfold str_to_argv, strdup, malloc_array.
  fold (seps_of seps).
  destruct (gettok (c_str ins) tok0 (seps_of seps)) as [[err s'] tok] eqn:Hg.
  unfold bind at 1.
  destruct (alloc_cases StrBuf w)
    as [(Hok & b & Hb & ->)|(Hok & ->)].
  2:{ simpl. split; [left; eauto|]. split; [auto|].
      unfold ENOMEM. discriminate. }
  unfold bind at 1.
  destruct (alloc_cases (Array (replicate (Z.to_nat 10) Uninit))
              (set_heap (<[b := StrBuf]> (heap w)) (tick w)))
    as [(Hok1 & a & Ha & ->)|(Hok1 & ->)].
  2:{ unfold bind. erewrite free_block; [|reflexivity|assumption].
      simpl. simpl in Hok1. split; [left; eauto|]. split; [auto|].
      unfold ENOMEM. discriminate. }
  simpl in Ha. apply lookup_insert_None in Ha. destruct Ha as [Ha Hab].
  change toks with ([] ++ toks).
  eapply argv_loop_released; try eassumption; try reflexivity;
    try congruence.
  intros t Ht. apply elem_of_replicate in Ht. destruct Ht; discriminate.
Qed.

End ArgvFacts.

Module ProvFacts.

(** Forgetting the labels. *)
Lemma tprocess_char_erase seps ts c :
  (st (fst (tprocess_char seps ts c)), snd (tprocess_char seps ts c))
  = process_char seps (st ts) c.
Proof.
  unfold tprocess_char, process_char.
  repeat case_match; reflexivity.
Qed.

Lemma tstep_erase seps ts c :
  (st (fst (tstep seps ts c)), snd (tstep seps ts c))
  = step seps (st ts) c.
Proof.
  unfold tstep, step. simpl.
  repeat case_match; try reflexivity; try congruence;
    apply tprocess_char_erase.
Qed.

Lemma tscan_erase seps p : forall ts,
  scan seps (st ts) p
  = (st (fst (fst (tscan seps ts p))), snd (fst (tscan seps ts p)),
     snd (tscan seps ts p)).
Proof.
  induction p as [|c p IH]; intros ts; simpl; [reflexivity|].
  destruct (c =? NUL); [reflexivity|].
  rewrite <- tstep_erase.
  destruct (tstep seps ts c) as [ts' [|]]; simpl; [apply IH|reflexivity].
Qed.

Lemma tend_flush_erase ts : st (tend_flush ts) = end_flush (st ts).
Proof. unfold tend_flush, end_flush. case_match; reflexivity. Qed.

Lemma temit_labels b g ts : labels_ok ts -> labels_ok (temit b g ts).
Proof.
  unfold labels_ok, erase. simpl. intros H.
  rewrite map_app, H. reflexivity.
Qed.

Lemma tprocess_char_labels seps ts c :
  labels_ok ts -> labels_ok (fst (tprocess_char seps ts c)).
Proof.
  intros H. unfold tprocess_char.
  repeat case_match; simpl; try assumption; apply temit_labels, H.
Qed.

Lemma tstep_labels seps ts c :
  labels_ok ts -> labels_ok (fst (tstep seps ts c)).
Proof.
  intros H. unfold tstep, tprocess_char, labels_ok, erase in *.
  repeat case_match; simpl; rewrite ?map_app; simpl; congruence.
Qed.

Lemma tscan_labels seps p : forall ts,
  labels_ok ts -> labels_ok (fst (fst (tscan seps ts p))).
Proof.
  induction p as [|c p IH]; intros ts H; simpl; [assumption|].
  destruct (c =? NUL); [assumption|].
  pose proof (tstep_labels seps ts c H).
  destruct (tstep seps ts c) as [ts' [|]]; simpl in *; auto.
Qed.

Lemma tend_flush_labels ts : labels_ok ts -> labels_ok (tend_flush ts).
Proof.
  intros H. unfold tend_flush. case_match; [|assumption].
  apply (temit_labels _ _ _ H).
Qed.

(** [tgettok] is [gettok] with labels. *)
Lemma tgettok_erase s tok seps :
  gettok s (erase <$> tok) seps
  = (fst (fst (tgettok s tok seps)), snd (fst (tgettok s tok seps)),
     erase <$> snd (tgettok s tok seps)).
Proof.
  unfold gettok, tgettok.
  destruct (deref (skip_spaces s seps) =? NUL); [reflexivity|].
  change init_state with (st tinit). rewrite tscan_erase.
  pose proof (tscan_labels seps (skip_spaces s seps) tinit eq_refl) as Hl.
  destruct (tscan seps tinit (skip_spaces s seps)) as [[ts p] e].
  simpl in *. rewrite <- tend_flush_erase.
  apply tend_flush_labels in Hl.
  destruct (negb (inquote (st (tend_flush ts)) =? 0)
            || negb (escape (st (tend_flush ts)) =? 0)); simpl;
    [reflexivity|].
  rewrite Hl. reflexivity.
Qed.

Lemma tcollect_erase seps : forall fuel err s tok,
  collect fuel seps err s (erase <$> tok)
  = (fun r => (fst r, map erase (snd r))) <$> tcollect fuel seps err s tok.
Proof.
  induction fuel as [|fuel IH]; intros err s tok.
  - destruct tok; simpl; destruct (err =? 0); reflexivity.
  - destruct tok as [t|]; [|reflexivity]. simpl.
    destruct (err =? 0); [|reflexivity].
    change (Some (erase t)) with (erase <$> Some t).
    rewrite tgettok_erase.
    destruct (tgettok s (Some t) seps) as [[err' s'] tok']. simpl.
    rewrite IH.
    destruct (tcollect fuel seps err' s' tok') as [[e toks]|]; reflexivity.
Qed.

Lemma ttokenize_erase tok0 seps s :
  tokenize (erase <$> tok0) seps s
  = (fun r => (fst r, map erase (snd r))) <$> ttokenize tok0 seps s.
Proof.
  unfold tokenize, ttokenize. rewrite tgettok_erase.
  destruct (tgettok s tok0 seps) as [[err s'] tok]. cbn [fst snd].
  apply tcollect_erase.
Qed.

(** Every store is labelled by the code that makes it: outside an escape
    the only store of an iteration is the plain copy of the character
    read, labelled with the quote the scan is in; inside an escape the
    escape code stores at most one byte, and only when a digit sequence
    is cut short is the character read copied after it. *)
Lemma tstep_stores seps ts c :
  let q := inquote (st ts) in
  let new := drop (length (tout ts)) (tout (fst (tstep seps ts c))) in
  tout (fst (tstep seps ts c)) = tout ts ++ new /\
  (escape (st ts) = 0 -> new = [] \/ new = [(c, Verbatim q)]) /\
  (escape (st ts) <> 0 ->
     new = [] \/ (exists v, new = [(v, Escaped)])
     \/ (exists v, new = [(v, Escaped); (c, Verbatim q)]
                   /\ 2 <= escape (st ts))).
Proof.
  assert (forall (l k : ttoken), drop (length l) (l ++ k) = k) as Hd.
  { intros l k. rewrite drop_app_length. reflexivity. }
  assert (forall (l : ttoken), drop (length l) l = []) as Hd0.
  { intros l. apply drop_all. }
  unfold tstep, tprocess_char. simpl.
  repeat case_match; simpl; bool_hyps;
    rewrite <- ?app_assoc, ?Hd, ?Hd0, ?app_nil_r;
    (split; [reflexivity|]); split; intros; try lia; eauto 6.
Qed.

Lemma tstep_clean seps ts c :
  clean seps ts -> clean seps (fst (tstep seps ts c)).
Proof.
  intros H. unfold tstep, tprocess_char, clean in *.
  repeat case_match; simpl; rewrite ?Forall_app; repeat split;
    try assumption; (constructor; [|constructor]);
    unfold not_plain_sep; simpl; auto;
    intros Hs; right; eexists; (split; [|reflexivity]); intros Hq;
    match goal with
    | Hx : (_ =? 0) && is_sep_space _ _ = false |- _ =>
        simpl in Hx; rewrite Hq, Hs in Hx; discriminate Hx
    end.
Qed.

Lemma temit_escaped_clean seps b ts :
  clean seps ts -> clean seps (temit b Escaped ts).
Proof.
  intros H. unfold clean. simpl. apply Forall_app. split; [assumption|].
  constructor; [|constructor]. unfold not_plain_sep. simpl. auto.
Qed.

Lemma tscan_clean seps p : forall ts,
  clean seps ts -> clean seps (fst (fst (tscan seps ts p))).
Proof.
  induction p as [|c p IH]; intros ts H; simpl; [assumption|].
  destruct (c =? NUL); [assumption|].
  pose proof (tstep_clean seps ts c H).
  destruct (tstep seps ts c) as [ts' [|]]; simpl in *; auto.
Qed.

Lemma tgettok_clean s tok seps t :
  snd (tgettok s tok seps) = Some t ->
  fst (fst (tgettok s tok seps)) = 0 ->
  Forall (not_plain_sep seps) t.
Proof.
  unfold tgettok.
  destruct (deref (skip_spaces s seps) =? NUL); [discriminate|].
  pose proof (tscan_clean seps (skip_spaces s seps) tinit
                ltac:(constructor)) as Hc.
  destruct (tscan seps tinit (skip_spaces s seps)) as [[ts p] e].
  simpl in Hc.
  destruct (negb (inquote (st (tend_flush ts)) =? 0)
            || negb (escape (st (tend_flush ts)) =? 0)); simpl;
    [discriminate|].
  intros H _. inversion H; subst.
  unfold tend_flush. case_match; [|assumption].
  apply (temit_escaped_clean _ _ _ Hc).
Qed.

Lemma tcollect_clean seps : forall fuel err s tok e toks,
  (forall t, tok = Some t -> err = 0 -> Forall (not_plain_sep seps) t) ->
  tcollect fuel seps err s tok = Some (e, toks) ->
  Forall (Forall (not_plain_sep seps)) toks.
Proof.
  induction fuel as [|fuel IH]; intros err s tok e toks Ht H.
  - simpl in H. destruct tok, (err =? 0); try discriminate;
      inversion H; constructor.
  - simpl in H. destruct tok as [t|]; [|inversion H; constructor].
    destruct (Z.eqb_spec err 0) as [E|E]; [|inversion H; constructor].
    pose proof (tgettok_clean s (Some t) seps) as Hg.
    destruct (tgettok s (Some t) seps) as [[err' s'] tok']. simpl in Hg.
    destruct (tcollect fuel seps err' s' tok') as [[e' toks']|] eqn:Hc;
      [|discriminate].
    inversion H; subst. constructor; [auto|].
    eapply IH; [|exact Hc]. intros t' -> ->. auto.
Qed.

Lemma ttokenize_clean tok0 seps s e toks :
  ttokenize tok0 seps s = Some (e, toks) ->
  Forall (Forall (not_plain_sep seps)) toks.
Proof.
  unfold ttokenize. intros H.
  pose proof (tgettok_clean s tok0 seps) as Hg.
  destruct (tgettok s tok0 seps) as [[err s'] tok]. simpl in Hg.
  eapply tcollect_clean; [|exact H]. intros t -> ->. auto.
Qed.

End ProvFacts.

(** ** Inputs without quotes and escapes *)

Module PlainFacts.
Import ProvFacts.

Lemma tstep_plain seps ts c :
  all_plain ts -> c <> NUL ->
  c <> BACKSLASH /\ c <> SQUOTE /\ c <> DQUOTE ->
  all_plain (fst (tstep seps ts c)).
Proof.
  intros (He & Hq & Ht) Hc (H1 & H2 & H3).
  unfold tstep, tprocess_char. rewrite He, Hq. simpl.
  destruct (Z.eqb_spec c 0); [contradiction|].
  destruct (Z.eqb_spec c 39); [contradiction|].
  destruct (Z.eqb_spec c 34); [contradiction|].
  destruct (Z.eqb_spec c 92); [contradiction|]. simpl.
  destruct (is_sep_space c seps); simpl.
  - unfold all_plain. auto.
  - unfold all_plain. simpl. rewrite Hq. split_and!; auto.
    apply Forall_app. split; [assumption|].
    constructor; [reflexivity|constructor].
Qed.

Lemma tscan_plain seps p : forall ts,
  all_plain ts -> plain_input p ->
  all_plain (fst (fst (tscan seps ts p))) /\
  plain_input (snd (fst (tscan seps ts p))).
Proof.
  induction p as [|c p IH]; intros ts Hts Hp; simpl; [auto|].
  destruct (Z.eqb_spec c NUL); [auto|].
  inversion Hp as [|? ? Hc Hp']; subst.
  pose proof (tstep_plain seps ts c Hts n Hc) as H1.
  destruct (tstep seps ts c) as [ts' [|]]; simpl in *; auto.
Qed.

Lemma skip_spaces_plain s seps :
  plain_input s -> plain_input (skip_spaces s seps).
Proof.
  induction 1 as [|c s Hc Hs IH]; simpl; [constructor|].
  destruct (is_sep_space c seps); [assumption|]. constructor; assumption.
Qed.

Lemma tgettok_plain s tok seps :
  plain_input s ->
  plain_input (snd (fst (tgettok s tok seps))) /\
  (fst (fst (tgettok s tok seps)) = 0 ->
   forall t, snd (tgettok s tok seps) = Some t ->
             Forall (fun bg => snd bg = Verbatim NUL) t).
Proof.
  intros Hs. apply (skip_spaces_plain _ seps) in Hs. unfold tgettok.
  destruct (deref (skip_spaces s seps) =? NUL).
  { simpl. split; [assumption|]. intros _ t Ht. discriminate. }
  destruct (tscan_plain seps (skip_spaces s seps) tinit) as [Ha Hr];
    [unfold all_plain; simpl; auto|assumption|].
  destruct (tscan seps tinit (skip_spaces s seps)) as [[ts p] e].
  simpl in Ha, Hr. destruct Ha as (He & Hq & Ht).
  assert (tend_flush ts = ts) as ->.
  { unfold tend_flush. rewrite He.
    destruct (base (st ts) =? 8), (base (st ts) =? 16); reflexivity. }
  rewrite He, Hq. simpl. split; [assumption|].
  intros _ t Ht'. inversion Ht'; subst. assumption.
Qed.

Lemma tcollect_plain seps : forall fuel err s tok e toks,
  plain_input s ->
  (forall t, tok = Some t -> err = 0 ->
             Forall (fun bg => snd bg = Verbatim NUL) t) ->
  tcollect fuel seps err s tok = Some (e, toks) ->
  Forall (Forall (fun bg => snd bg = Verbatim NUL)) toks.
Proof.
  induction fuel as [|fuel IH]; intros err s tok e toks Hs Ht H.
  - simpl in H. destruct tok, (err =? 0); try discriminate;
      inversion H; constructor.
  - simpl in H. destruct tok as [t|]; [|inversion H; constructor].
    destruct (Z.eqb_spec err 0) as [E|E]; [|inversion H; constructor].
    destruct (tgettok_plain s (Some t) seps Hs) as [Hr Hg].
    destruct (tgettok s (Some t) seps) as [[err' s'] tok']. simpl in Hr, Hg.
    destruct (tcollect fuel seps err' s' tok') as [[e' toks']|] eqn:Hc;
      [|discriminate].
    inversion H; subst. constructor; [auto|].
    eapply IH; [exact Hr| |exact Hc]. intros t' -> ->. auto.
Qed.

(** On an input with no backslash and no quote character, no token of
    the token sequence contains a separator byte. *)
Lemma tokenize_plain seps s e toks :
  plain_input s ->
  tokenize None seps s = Some (e, toks) ->
  Forall (Forall (fun b => is_sep_space b seps = false)) toks.
Proof.
  intros Hs Ht.
  change (@None token) with (erase <$> @None ttoken) in Ht.
  rewrite ttokenize_erase in Ht.
  destruct (ttokenize None seps s) as [[e' ttoks]|] eqn:Htt; [|discriminate].
  simpl in Ht. inversion Ht; subst e' toks.
  pose proof (ttokenize_clean _ _ _ _ _ Htt) as Hc.
  assert (Forall (Forall (fun bg => snd bg = Verbatim NUL)) ttoks) as Hv.
  { unfold ttokenize in Htt.
    destruct (tgettok_plain s None seps Hs) as [Hr Hg].
    destruct (tgettok s None seps) as [[err s'] tok]. simpl in Hr, Hg.
    eapply tcollect_plain; [exact Hr| |exact Htt]. intros t -> ->. auto. }
  apply Forall_fmap. rewrite Forall_forall in Hc, Hv |- *.
  intros tt Hin. specialize (Hc tt Hin). specialize (Hv tt Hin).
  unfold erase. apply Forall_fmap.
  rewrite Forall_forall in Hc, Hv |- *.
  intros bg Hbg. specialize (Hc bg Hbg). specialize (Hv bg Hbg).
  simpl. destruct (is_sep_space bg.1 seps) eqn:Hsep; [|reflexivity].
  destruct (Hc Hsep) as [Hx|(q & Hq & Hx)]; rewrite Hv in Hx;
    [discriminate|inversion Hx; congruence].
Qed.

End PlainFacts.

(** ** The call as a whole *)

Module CallFacts.
Import TokFacts PureFacts MemFacts ArgvFacts.

(** On the error return [gettok] hands [*tok] back untouched, and that is
    the only use it makes of it. *)
Lemma gettok_tok s tok seps :
  (fst (fst (gettok s tok seps)) = 0 /\
   forall tok2, gettok s tok2 seps = gettok s tok seps)
  \/ (fst (fst (gettok s tok seps)) = -1 /\
      forall tok2, gettok s tok2 seps
                   = (-1, snd (fst (gettok s tok seps)), tok2)).
Proof.
  unfold gettok.
  destruct (deref (skip_spaces s seps) =? NUL); [left; auto|].
  destruct (scan seps init_state (skip_spaces s seps)) as [[st p] e].
  destruct (negb (inquote (end_flush st) =? NUL)
            || negb (escape (end_flush st) =? 0));
    [right|left]; auto.
Qed.

Lemma gettok_code s tok seps :
  fst (fst (gettok s tok seps)) = 0 \/ fst (fst (gettok s tok seps)) = -1.
Proof. destruct (gettok_tok s tok seps) as [[H _]|[H _]]; auto. Qed.

(** The value the uninitialized [tok] of [str_to_argv] happens to hold
    does not matter. *)
Lemma tokenize_uninit tok0 seps s :
  tokenize tok0 seps s = tokenize None seps s.
Proof.
  unfold tokenize.
  destruct (gettok_tok s tok0 seps) as [[_ H]|[_ H]].
  - rewrite (H None). reflexivity.
  - rewrite (H None), (H tok0).
    rewrite !collect_err by lia. reflexivity.
Qed.

Lemma argv_loop_err fuel seps orig_s argv args argc err s tok :
  err <> 0 ->
  argv_loop fuel seps orig_s argv args argc err s tok
  = argv_loop fuel seps orig_s argv args argc err s None.
Proof.
  intros H. apply Z.eqb_neq in H.
  destruct fuel, tok; simpl; rewrite ?H; reflexivity.
Qed.

Lemma str_to_argv_uninit tok0 ins seps w :
  str_to_argv tok0 ins seps w = str_to_argv None ins seps w.
Proof.
  unfold str_to_argv, bind.
  destruct (strdup ins w) as [[b|] w1| |]; try reflexivity.
  destruct (malloc_array 10 w1) as [[a|] w2| |]; try reflexivity.
  fold (seps_of seps).
  destruct (gettok_tok (c_str ins) tok0 (seps_of seps)) as [[_ H]|[_ H]].
  - rewrite (H None). reflexivity.
  - rewrite (H None), (H tok0).
    rewrite (argv_loop_err _ _ _ _ _ _ _ _ tok0) by lia. reflexivity.
Qed.

(** The code of the token sequence is 0 or -1. *)
Lemma tokenize_code tok0 seps s e toks :
  tokenize tok0 seps s = Some (e, toks) -> e = 0 \/ e = -1.
Proof.
  intros H. destruct (ends_in_total seps s) as [st Hst].
  destruct (tokenize_ends_in tok0 _ _ _ Hst) as [toks' Ht].
  rewrite Ht in H. inversion H. destruct (unresolved st); auto.
Qed.

(** With enough memory and a well-formed input the call succeeds and
    hands out the tokens of the token sequence, in order. *)
Lemma str_to_argv_success tok0 ins seps w toks :
  Z.of_nat (length ins) <= INT_MAX ->
  (forall n, alloc_ok w n = true) ->
  tokenize tok0 (seps_of seps) (c_str ins) = Some (0, toks) ->
  exists w',
    str_to_argv tok0 ins seps w = Returns 0 w' /\
    out_argc w' = Z.of_nat (length toks) /\
    result_slots w' = Some (map TokPtr toks).
Proof.
  intros Hlen Hok Htok.
  pose proof (str_to_argv_run tok0 ins seps w 0 toks Hlen Htok) as P.
  destruct (str_to_argv tok0 ins seps w) as [err w'| |];
    simpl in P; try contradiction.
  destruct P as [(_ & [n Hn] & _)|[(_ & ? & _)|P]];
    [rewrite Hok in Hn; discriminate|congruence|].
  destruct P as (-> & _ & Hc & a & b & rest & Hv & _ & _ & _ & Hh).
  exists w'. split; [reflexivity|]. split; [assumption|].
  unfold result_slots. rewrite Hv, Hh, lookup_insert_eq, Hc, Nat2Z.id.
  rewrite <- (length_map TokPtr toks) at 1.
  rewrite take_app_length. reflexivity.
Qed.

(** With enough memory and a malformed input the call fails with the
    code of [gettok] and leaves nothing behind. *)
Lemma str_to_argv_failure tok0 ins seps w e toks :
  Z.of_nat (length ins) <= INT_MAX ->
  (forall n, alloc_ok w n = true) ->
  tokenize tok0 (seps_of seps) (c_str ins) = Some (e, toks) ->
  e <> 0 ->
  exists w',
    str_to_argv tok0 ins seps w = Returns e w' /\
    heap w' = heap w /\
    out_argc w' = out_argc w /\ out_argv w' = out_argv w.
Proof.
  intros Hlen Hok Htok He.
  pose proof (str_to_argv_run tok0 ins seps w e toks Hlen Htok) as P.
  destruct (str_to_argv tok0 ins seps w) as [err w'| |];
    simpl in P; try contradiction.
  destruct P as [(_ & [n Hn] & _)|[(-> & _ & P)|(_ & ? & _)]];
    [rewrite Hok in Hn; discriminate| |congruence].
  exists w'. auto.
Qed.

(** Whenever the call succeeds, on an input that the counters of
    [str_to_argv] can count, it hands out the tokens of the token
    sequence. *)
Lemma str_to_argv_result tok0 ins seps w w' :
  Z.of_nat (length ins) <= INT_MAX ->
  str_to_argv tok0 ins seps w = Returns 0 w' ->
  exists toks,
    tokenize tok0 (seps_of seps) (c_str ins) = Some (0, toks) /\
    out_argc w' = Z.of_nat (length toks) /\
    result_slots w' = Some (map TokPtr toks).
Proof.
  intros Hlen Hr.
  destruct (tokenize_total tok0 (seps_of seps) (c_str ins))
    as (e & toks & Htok).
  pose proof (str_to_argv_run tok0 ins seps w e toks Hlen Htok) as P.
  rewrite Hr in P. simpl in P.
  destruct P as [(E & _)|[(<- & ? & _)|P]];
    [unfold ENOMEM in E; discriminate|congruence|].
  destruct P as (_ & -> & Hc & a & b & rest & Hv & _ & _ & _ & Hh).
  exists toks. split; [assumption|]. split; [assumption|].
  unfold result_slots. rewrite Hv, Hh, lookup_insert_eq, Hc, Nat2Z.id.
  rewrite <- (length_map TokPtr toks) at 1.
  rewrite take_app_length. reflexivity.
Qed.

(** The call returns, whichever requests for memory fail: it neither runs
    into undefined behaviour nor out of iterations. *)
Lemma str_to_argv_returns tok0 ins seps w :
  Z.of_nat (length ins) <= INT_MAX ->
  exists err w', str_to_argv tok0 ins seps w = Returns err w'.
Proof.
  intros Hlen.
  destruct (tokenize_total tok0 (seps_of seps) (c_str ins))
    as (e & toks & Htok).
  pose proof (str_to_argv_run tok0 ins seps w e toks Hlen Htok) as P.
  destruct (str_to_argv tok0 ins seps w) as [err w'| |];
    simpl in P; try contradiction.
  eauto.
Qed.

(** For inputs of any length: the call returns -1 only when the end of
    the buffer is reached inside a quote, right after a backslash, or
    right after backslash-x. *)
Lemma str_to_argv_malformed tok0 ins seps w w' :
  str_to_argv tok0 ins seps w = Returns (-1) w' ->
  exists st,
    ends_in (seps_of seps) (c_str ins) st /\ unresolved st = true.
Proof.
  intros Hr.
  destruct (ends_in_total (seps_of seps) (c_str ins)) as [st Hst].
  exists st. split; [assumption|].
  destruct (tokenize_ends_in tok0 _ _ _ Hst) as [toks Ht].
  pose proof (str_to_argv_released tok0 ins seps w _ _ Ht) as P.
  rewrite Hr in P. simpl in P. destruct P as ([[E _]|E] & _).
  - unfold ENOMEM in E. discriminate.
  - destruct (unresolved st); [reflexivity|discriminate].
Qed.

(** [str_to_argv_free] on the result of a successful call releases the
    array and the buffer: the allocated blocks are those of before the
    call of [str_to_argv]. *)
Lemma str_to_argv_free_releases tok0 ins seps w w' :
  Z.of_nat (length ins) <= INT_MAX ->
  str_to_argv tok0 ins seps w = Returns 0 w' ->
  exists w'',
    str_to_argv_free (out_argc w') (out_argv w') w' = Returns tt w'' /\
    heap w'' = heap w.
Proof.
  intros Hlen Hr.
  destruct (tokenize_total tok0 (seps_of seps) (c_str ins))
    as (e & toks & Htok).
  pose proof (str_to_argv_run tok0 ins seps w e toks Hlen Htok) as P.
  rewrite Hr in P. simpl in P.
  destruct P as [(E & _)|[(<- & ? & _)|P]];
    [unfold ENOMEM in E; discriminate|congruence|].
  destruct P as (_ & -> & Hc & a & b & rest & Hv & Ha & Hb & Hab & Hh).
  rewrite Hv, Hc. unfold str_to_argv_free, bind, load.
  rewrite Hh, lookup_insert_eq.
  destruct (Z.leb_spec 0 (Z.of_nat (length toks) + 1)); [|lia].
  replace (Z.to_nat (Z.of_nat (length toks) + 1))
    with (length (map TokPtr toks) + 1)%nat
    by (rewrite length_map; lia).
  rewrite lookup_app_r by lia.
  replace (length (map TokPtr toks) + 1 - length (map TokPtr toks))%nat
    with 1%nat by lia.
  simpl.
  erewrite free_block; [|rewrite Hh; apply insert_insert_ne; congruence|].
  2:{ rewrite lookup_insert_ne by congruence. assumption. }
  erewrite free_block; [|reflexivity|assumption].
  eexists. split; reflexivity.
Qed.

(** The tokens a successful call hands out are the strings that the
    calls of [gettok] leave in the working buffer, at the positions they
    hand out. *)
Lemma str_to_argv_strings tok0 ins seps w w' :
  Z.of_nat (length ins) <= INT_MAX ->
  str_to_argv tok0 ins seps w = Returns 0 w' ->
  exists toks offs bfin,
    result_slots w' = Some (map TokPtr toks) /\
    InPlace.tokenize None (seps_of seps) (c_str ins) = Some (0, offs, bfin) /\
    Forall2 (InPlace.string_at bfin) offs toks.
Proof.
  intros Hlen Hr.
  destruct (str_to_argv_result _ _ _ _ _ Hlen Hr) as (toks & Ht & _ & Hs).
  destruct (InPlaceFacts.tokenize_sim _ _ None _ _ _ Ht)
    as (offs & bfin & H1 & _ & H2).
  exists toks, offs, bfin. auto.
Qed.

End CallFacts.

(** ** Digits of an escape *)

Module DigitFacts.

Lemma isodigit_isxdigit c : isodigit c = true -> isxdigit c = true.
Proof.
  unfold isodigit, isxdigit. intros H. bool_hyps. rewrite H. reflexivity.
Qed.

(** The test of the source for one more digit is the test for the digit
    class of the base. *)
Lemma digit_test b c :
  b = 8 \/ b = 16 ->
  ((b =? 16) && isxdigit c) || isodigit c = digit_class b c.
Proof.
  unfold digit_class. intros [-> | ->]; simpl; [reflexivity|].
  destruct (isodigit c) eqn:E;
    [rewrite (isodigit_isxdigit _ E)|rewrite orb_false_r]; reflexivity.
Qed.

(** An octal digit updates the value by [value * base + digit]. *)
Lemma accumulate_octal v b c :
  isodigit c = true ->
  accumulate v b c = to_char (v * b + digit_value c).
Proof.
  unfold accumulate, digit_value. intros H. rewrite H.
  unfold isodigit in H. bool_hyps. rewrite H. f_equal. lia.
Qed.

(** A hexadecimal letter adds its offset from the first letter instead
    of its value, ten short. *)
Lemma accumulate_hex_letter v c :
  (CH_A <= c <= 70) \/ (CH_a <= c <= 102) ->
  accumulate v 16 c = to_char (v * 16 + (digit_value c - 10)).
Proof.
  unfold accumulate, digit_value, isodigit, isdigit, isupper. intros H.
  split_tests; simpl; try lia; f_equal; lia.
Qed.

(** The digits 8 and 9 of a hexadecimal escape are taken for letters. *)
Lemma accumulate_hex_89 v c :
  c = CH_8 \/ c = CH_9 ->
  accumulate v 16 c = to_char (v * 16 + c - CH_a).
Proof. intros [-> | ->]; reflexivity. Qed.

End DigitFacts.

Import DigitFacts.

Module StepFacts.
Import TokFacts.

Lemma scan_cons seps st c p :
  c <> NUL ->
  scan seps st (c :: p)
  = match step seps st c with
    | (st', Next) => scan seps st' p
    | (st', Break) => (st', p, AtSep)
    end.
Proof.
  intros H. cbn [scan]. destruct (Z.eqb_spec c NUL); [contradiction|].
  reflexivity.
Qed.

(** Outside an escape a backslash starts one, in every quote state. *)
Lemma step_backslash seps st :
  state_ok st -> escape st = 0 ->
  step seps st BACKSLASH = (set_escape 1 st, Next).
Proof.
  intros [Hq _] E. unfold step, process_char. rewrite E.
  split_tests; simpl; try lia; reflexivity.
Qed.

(** Right after a backslash, [x] starts a hexadecimal escape with the
    value 0 and no digit. *)
Lemma step_x seps st :
  escape st = 1 ->
  step seps st CH_x
  = ({| out := out st; inquote := inquote st; escape := 2; base := 16;
        cval := 0 |}, Next).
Proof.
  destruct st as [o q e b v]. simpl. intros ->. reflexivity.
Qed.

End StepFacts.

Import StepFacts.

Module SlotFacts.
Import PureFacts ArgvFacts.

(** Whenever the call succeeds, for an input of any length, every token
    the array handed out points to is a token of the token sequence. *)
Lemma str_to_argv_tokens tok0 ins seps w w' sl t :
  str_to_argv tok0 ins seps w = Returns 0 w' ->
  result_slots w' = Some sl ->
  TokPtr t ∈ sl ->
  exists toks,
    tokenize tok0 (seps_of seps) (c_str ins) = Some (0, toks) /\
    t ∈ toks.
Proof.
  intros Hr Hsl Ht.
  destruct (tokenize_total tok0 (seps_of seps) (c_str ins))
    as (e & toks & Htok).
  pose proof (str_to_argv_released tok0 ins seps w e toks Htok) as P.
  rewrite Hr in P. simpl in P. destruct P as (Hc & _ & Hs).
  destruct Hc as [[E _]| <-]; [unfold ENOMEM in E; discriminate|].
  exists toks. split; [assumption|].
  destruct (Hs eq_refl) as (a & sl0 & Hv & Hh & Hk).
  unfold result_slots in Hsl. rewrite Hv, Hh in Hsl.
  inversion Hsl; subst sl. apply Hk.
  apply elem_of_take in Ht. destruct Ht as (i & Hi & _).
  apply list_elem_of_lookup. eauto.
Qed.

(** On an input with no backslash and no quote character, no token
    handed out contains a separator byte. *)
Lemma str_to_argv_plain tok0 ins seps w w' sl t :
  plain_input (c_str ins) ->
  str_to_argv tok0 ins seps w = Returns 0 w' ->
  result_slots w' = Some sl ->
  TokPtr t ∈ sl ->
  Forall (fun b => is_sep_space b (seps_of seps) = false) t.
Proof.
  intros Hp Hr Hsl Ht.
  destruct (str_to_argv_tokens _ _ _ _ _ _ _ Hr Hsl Ht) as (toks & Htok & Hin).
  rewrite CallFacts.tokenize_uninit in Htok.
  pose proof (PlainFacts.tokenize_plain _ _ _ _ Hp Htok) as Hf.
  rewrite Forall_forall in Hf. auto.
Qed.

End SlotFacts.

Import SlotFacts.

(** * The claims *)

Import TokFacts PureFacts ArgvFacts ProvFacts CallFacts.

(** C1 (the code departs from the claim).  While a hexadecimal escape is
    collected, a letter digit adds its offset from the first letter
    instead of its numeric value: the letter A is worth 0, not 10.  On
    the input backslash, x, 4, A the value accumulated is 4 * 16 + 0 = 64
    where value * 16 + digit is 4 * 16 + 10 = 74, and the token handed
    out is the single byte 64. *)
Theorem C1_hex_letter_adds_offset_not_value :
  digit_value CH_A = 10 /\
  accumulate 4 16 CH_A = 64 /\
  accumulate 4 16 CH_A <> to_char (4 * 16 + digit_value CH_A) /\
  gettok [92; 120; 52; 65] None default_seps = (0, [], Some [64]) /\
  exists w',
    str_to_argv None [92; 120; 52; 65] None fresh_world = Returns 0 w' /\
    result_slots w' = Some [TokPtr [64]].
Proof.
  split; [reflexivity|]. split; [reflexivity|].
  split; [vm_compute; discriminate|]. split; [reflexivity|].
  destruct (CallFacts.str_to_argv_success None [92; 120; 52; 65] None
              fresh_world [[64]]) as (w' & H1 & _ & H2);
    [vm_compute; discriminate|reflexivity|reflexivity|].
  exists w'. auto.
Qed.

(** C2.  For an input that the counters of [str_to_argv] can count and
    with enough memory: the end of the buffer is reached in some scan
    state [st]; when that state is inside a quote, right after a
    backslash, or right after backslash-x with no digit, the call returns
    -1 and leaves the memory and the caller's outputs as they were;
    otherwise it returns 0.  So the call fails as malformed exactly in
    those states at the end of the buffer, and nowhere else. *)
Theorem C2_malformed_exactly_when_unresolved_at_end
    (tok0 : option token) (ins : list Z) (seps : option (list Z))
    (w : world) :
  Z.of_nat (length ins) <= INT_MAX ->
  (forall n, alloc_ok w n = true) ->
  exists st,
    ends_in (seps_of seps) (c_str ins) st /\
    ((unresolved st = true /\
      exists w', str_to_argv tok0 ins seps w = Returns (-1) w' /\
                 heap w' = heap w /\
                 out_argc w' = out_argc w /\ out_argv w' = out_argv w)
     \/ (unresolved st = false /\
         exists w', str_to_argv tok0 ins seps w = Returns 0 w')).
Proof.
  intros Hlen Hok.
  destruct (ends_in_total (seps_of seps) (c_str ins)) as [st Hst].
  exists st. split; [assumption|].
  destruct (tokenize_ends_in tok0 _ _ _ Hst) as [toks Ht].
  destruct (unresolved st); [left|right]; (split; [reflexivity|]).
  - apply (str_to_argv_failure tok0 ins seps w (-1) toks); auto; lia.
  - destruct (str_to_argv_success tok0 ins seps w toks) as (w' & H & _);
      eauto.
Qed.

Lemma C2_witness :
  exists st,
    ends_in (seps_of None) (c_str [34; 97]) st /\
    ((unresolved st = true /\
      exists w', str_to_argv None [34; 97] None fresh_world = Returns (-1) w'
                 /\ heap w' = heap fresh_world /\
                 out_argc w' = out_argc fresh_world /\
                 out_argv w' = out_argv fresh_world)
     \/ (unresolved st = false /\
         exists w', str_to_argv None [34; 97] None fresh_world
                    = Returns 0 w')).
Proof.
  apply (C2_malformed_exactly_when_unresolved_at_end None [34; 97] None
           fresh_world).
  - vm_compute. discriminate.
  - intros n. reflexivity.
Defined.



(** C4.  While the digits of an octal or hexadecimal escape are collected
    ([escape] is 2 or 3), a character [c] that is not a digit of the class
    of the base ends the escape: the accumulated value is stored as one
    byte, the escape is over, and [c] itself is processed under the normal
    rules in the state after the store; it is not consumed by the escape.
    The normal rules, one by one: [c] closes the open quotation; or, outside
    a quotation, a quote character opens one; or a backslash starts a new
    escape; or, outside a quotation, a separator ends the token; or else
    [c] is copied behind the stored byte.  The iteration is the one the
    loop makes on [c] from the state after the store, so the scan goes on
    as from that state with [c] still to be read.  On whole inputs, with
    the default separators: a, backslash, 1, z, space, b gives the token
    a, 1, z and leaves b; backslash, 1, space, b gives the token 1 and
    leaves b; backslash, 1, backslash, n gives the token 1, newline;
    backslash, 1, double quote, space, double quote gives the token
    1, space; double quote, backslash, 1, double quote gives the token 1;
    backslash, 1, 2, z gives the token 10, z; and backslash, x, 4, g gives
    the token 4, g. *)
Theorem C4_interrupted_digits_flush_and_reprocess
    (seps : list Z) (st : scan_state) (c : Z) (p : list Z)
    (tok0 : option token) :
  c <> NUL ->
  escape st = 2 \/ escape st = 3 ->
  base st = 8 \/ base st = 16 ->
  digit_class (base st) c = false ->
  let stored := out st ++ [cval st] in
  let flushed := {| out := stored; inquote := inquote st; escape := 0;
                    base := base st; cval := cval st |} in
  (* the quote toggle: [c] closes the quotation *)
  (c = inquote st ->
   step seps st c
   = ({| out := stored; inquote := NUL; escape := 0;
         base := base st; cval := cval st |}, Next)) /\
  (* the quote toggle: [c] opens a quotation *)
  (inquote st = NUL -> c = SQUOTE \/ c = DQUOTE ->
   step seps st c
   = ({| out := stored; inquote := c; escape := 0;
         base := base st; cval := cval st |}, Next)) /\
  (* a new escape starts *)
  (c = BACKSLASH -> c <> inquote st ->
   step seps st c
   = ({| out := stored; inquote := inquote st; escape := 1;
         base := base st; cval := cval st |}, Next)) /\
  (* a separator ends the token, after the stored byte *)
  (inquote st = NUL -> is_sep_space c seps = true ->
   c <> SQUOTE -> c <> DQUOTE -> c <> BACKSLASH ->
   step seps st c = (flushed, Break)) /\
  (* the verbatim copy *)
  (c <> inquote st -> c <> BACKSLASH ->
   inquote st <> NUL
   \/ (c <> SQUOTE /\ c <> DQUOTE /\ is_sep_space c seps = false) ->
   step seps st c
   = ({| out := out st ++ [cval st; c]; inquote := inquote st; escape := 0;
         base := base st; cval := cval st |}, Next)) /\
  (* [c] is not consumed: the iteration is that on [c] after the store *)
  step seps st c = step seps flushed c /\
  step seps flushed c = process_char seps flushed c /\
  scan seps st (c :: p) = scan seps flushed (c :: p) /\
  (* whole inputs *)
  gettok [97; 92; 49; 122; 32; 98] tok0 default_seps
  = (0, [98], Some [97; 1; 122]) /\
  gettok [92; 49; 32; 98] tok0 default_seps = (0, [98], Some [1]) /\
  gettok [92; 49; 92; 110] tok0 default_seps = (0, [], Some [1; 10]) /\
  gettok [92; 49; 34; 32; 34] tok0 default_seps = (0, [], Some [1; 32]) /\
  gettok [34; 92; 49; 34] tok0 default_seps = (0, [], Some [1]) /\
  gettok [92; 49; 50; 122] tok0 default_seps = (0, [], Some [10; 122]) /\
  gettok [92; 120; 52; 103] tok0 default_seps = (0, [], Some [4; 103]).
Proof.
  intros Hc He Hb Hd stored flushed.
  assert (step seps st c = process_char seps flushed c) as Hs.
  { unfold step. rewrite (digit_test _ c Hb), Hd.
    destruct He as [-> | ->]; reflexivity. }
  assert (step seps flushed c = process_char seps flushed c) as Hf
    by reflexivity.
  rewrite Hs, Hf.
  split_and!; try reflexivity.
  - intros ->. unfold process_char. cbn [inquote flushed].
    rewrite Z.eqb_refl. reflexivity.
  - intros Hq Hc'. unfold process_char. cbn [inquote flushed]. rewrite Hq.
    destruct (Z.eqb_spec c NUL); [contradiction|].
    destruct Hc' as [-> | ->]; reflexivity.
  - intros -> Hq. unfold process_char. cbn [inquote flushed].
    destruct (Z.eqb_spec BACKSLASH (inquote st)); [contradiction|].
    rewrite andb_false_r. reflexivity.
  - intros Hq Hsep H1 H2 H3. unfold process_char. cbn [inquote flushed].
    rewrite Hq, Hsep.
    destruct (Z.eqb_spec c NUL); [contradiction|].
    destruct (Z.eqb_spec c SQUOTE); [contradiction|].
    destruct (Z.eqb_spec c DQUOTE); [contradiction|].
    destruct (Z.eqb_spec c BACKSLASH); [contradiction|]. reflexivity.
  - intros Hq Hbs Hv. unfold process_char. cbn [inquote flushed].
    destruct (Z.eqb_spec c (inquote st)); [contradiction|].
    destruct (Z.eqb_spec c BACKSLASH); [contradiction|].
    assert (emit c flushed
            = {| out := out st ++ [cval st; c]; inquote := inquote st;
                 escape := 0; base := base st; cval := cval st |}) as ->.
    { unfold emit, flushed, stored. cbn [out inquote escape base cval].
      rewrite <- app_assoc. reflexivity. }
    destruct Hv as [Hv|(H1 & H2 & H3)].
    + destruct (Z.eqb_spec (inquote st) NUL); [contradiction|]. reflexivity.
    + rewrite H3, andb_false_r.
      destruct (Z.eqb_spec c SQUOTE); [contradiction|].
      destruct (Z.eqb_spec c DQUOTE); [contradiction|].
      rewrite andb_false_r. reflexivity.
  - simpl. rewrite Hs, Hf.
    destruct (Z.eqb_spec c NUL); [contradiction|reflexivity].
Qed.

Lemma C4_witness :
  let st := {| out := [97]; inquote := 0; escape := 2; base := 8;
               cval := 1 |} in
  let c := 122 in
  let stored := out st ++ [cval st] in
  let flushed := {| out := stored; inquote := inquote st; escape := 0;
                    base := base st; cval := cval st |} in
  (c = inquote st ->
   step default_seps st c
   = ({| out := stored; inquote := NUL; escape := 0;
         base := base st; cval := cval st |}, Next)) /\
  (inquote st = NUL -> c = SQUOTE \/ c = DQUOTE ->
   step default_seps st c
   = ({| out := stored; inquote := c; escape := 0;
         base := base st; cval := cval st |}, Next)) /\
  (c = BACKSLASH -> c <> inquote st ->
   step default_seps st c
   = ({| out := stored; inquote := inquote st; escape := 1;
         base := base st; cval := cval st |}, Next)) /\
  (inquote st = NUL -> is_sep_space c default_seps = true ->
   c <> SQUOTE -> c <> DQUOTE -> c <> BACKSLASH ->
   step default_seps st c = (flushed, Break)) /\
  (c <> inquote st -> c <> BACKSLASH ->
   inquote st <> NUL
   \/ (c <> SQUOTE /\ c <> DQUOTE /\ is_sep_space c default_seps = false) ->
   step default_seps st c
   = ({| out := out st ++ [cval st; c]; inquote := inquote st; escape := 0;
         base := base st; cval := cval st |}, Next)) /\
  step default_seps st c = step default_seps flushed c /\
  step default_seps flushed c = process_char default_seps flushed c /\
  scan default_seps st (c :: [32]) = scan default_seps flushed (c :: [32]) /\
  gettok [97; 92; 49; 122; 32; 98] None default_seps
  = (0, [98], Some [97; 1; 122]) /\
  gettok [92; 49; 32; 98] None default_seps = (0, [98], Some [1]) /\
  gettok [92; 49; 92; 110] None default_seps = (0, [], Some [1; 10]) /\
  gettok [92; 49; 34; 32; 34] None default_seps = (0, [], Some [1; 32]) /\
  gettok [34; 92; 49; 34] None default_seps = (0, [], Some [1]) /\
  gettok [92; 49; 50; 122] None default_seps = (0, [], Some [10; 122]) /\
  gettok [92; 120; 52; 103] None default_seps = (0, [], Some [4; 103]).
Proof.
  apply (C4_interrupted_digits_flush_and_reprocess default_seps
           {| out := [97]; inquote := 0; escape := 2; base := 8;
              cval := 1 |} 122 [32] None).
  - discriminate.
  - left. reflexivity.
  - left. reflexivity.
  - reflexivity.
Defined.

(** C5, as stated, fails inside a quote: on the input double quote,
    backslash, 1 the end of the buffer is reached with one octal digit
    collected, and [gettok] returns -1. *)
Lemma C5_counterexample_open_quote :
  scan default_seps init_state [34; 92; 49]
  = ({| out := []; inquote := 34; escape := 2; base := 8; cval := 1 |},
     [], AtEnd) /\
  partial_digits {| out := []; inquote := 34; escape := 2; base := 8;
                    cval := 1 |} = true /\
  gettok [34; 92; 49] None default_seps = (-1, [], None).
Proof. repeat split. Qed.

(** C5, amended.  When the end of the buffer is reached with at least one
    digit of an octal or hexadecimal escape collected and fewer than the
    escape takes, [gettok] stores the accumulated value as one last byte;
    outside quotes it then hands out the token and returns 0, and inside
    a quote it returns -1. *)
Theorem C5_partial_digits_flushed_at_end
    (seps s : list Z) (tok : option token) (st : scan_state) (p : list Z) :
  deref (skip_spaces s seps) <> NUL ->
  scan seps init_state (skip_spaces s seps) = (st, p, AtEnd) ->
  partial_digits st = true ->
  out (end_flush st) = out st ++ [cval st] /\
  (inquote st = NUL ->
   gettok s tok seps = (0, p, Some (out st ++ [cval st]))) /\
  (inquote st <> NUL -> gettok s tok seps = (-1, p, tok)).
Proof.
  intros Hd Hs Hp.
  pose proof (scan_ok _ _ _ _ _ _ init_state_ok Hs) as Hok.
  rewrite (end_flush_partial _ Hok Hp). split; [reflexivity|].
  unfold gettok.
  destruct (Z.eqb_spec (deref (skip_spaces s seps)) NUL); [contradiction|].
  rewrite Hs, (end_flush_partial _ Hok Hp). simpl.
  split; intros Hq.
  - rewrite Hq. reflexivity.
  - apply Z.eqb_neq in Hq. rewrite Hq. reflexivity.
Qed.

Lemma C5_witness :
  out (end_flush {| out := [97]; inquote := 0; escape := 2; base := 8;
                    cval := 1 |}) = [97] ++ [1] /\
  (0 = NUL ->
   gettok [97; 92; 49] None default_seps = (0, [], Some ([97] ++ [1]))) /\
  (0 <> NUL -> gettok [97; 92; 49] None default_seps = (-1, [], None)).
Proof.
  apply (C5_partial_digits_flushed_at_end default_seps [97; 92; 49] None
           {| out := [97]; inquote := 0; escape := 2; base := 8;
              cval := 1 |} []).
  - discriminate.
  - reflexivity.
  - reflexivity.
Defined.

(** C6.  With enough memory, the input a, backslash, space, b parsed with
    the default separators succeeds and gives exactly one token, whose
    bytes are a, space, b. *)
Theorem C6_escaped_separator_is_not_a_delimiter
    (tok0 : option token) (w : world) :
  (forall n, alloc_ok w n = true) ->
  exists w',
    str_to_argv tok0 [97; 92; 32; 98] None w = Returns 0 w' /\
    out_argc w' = 1 /\
    result_slots w' = Some [TokPtr [97; 32; 98]].
Proof.
  intros Hok.
  apply (str_to_argv_success tok0 [97; 92; 32; 98] None w [[97; 32; 98]]);
    [vm_compute; discriminate|assumption|reflexivity].
Qed.

Lemma C6_witness :
  exists w',
    str_to_argv None [97; 92; 32; 98] None fresh_world = Returns 0 w' /\
    out_argc w' = 1 /\
    result_slots w' = Some [TokPtr [97; 32; 98]].
Proof.
  apply (C6_escaped_separator_is_not_a_delimiter None fresh_world).
  intros n. reflexivity.
Defined.

(** C8.  With enough memory, the input backslash, 1, 0, 1 parsed with the
    default separators succeeds and gives exactly one token, of the
    single byte 65: the escape consumes all three digits.  The same four
    bytes between double quotes, six characters, give the same token. *)
Theorem C8_three_digit_octal_escape
    (tok0 : option token) (w : world) :
  (forall n, alloc_ok w n = true) ->
  (exists w',
     str_to_argv tok0 [92; 49; 48; 49] None w = Returns 0 w' /\
     out_argc w' = 1 /\
     result_slots w' = Some [TokPtr [65]]) /\
  (exists w',
     str_to_argv tok0 [34; 92; 49; 48; 49; 34] None w = Returns 0 w' /\
     out_argc w' = 1 /\
     result_slots w' = Some [TokPtr [65]]).
Proof.
  intros Hok. split.
  - apply (str_to_argv_success tok0 [92; 49; 48; 49] None w [[65]]);
      [vm_compute; discriminate|assumption|reflexivity].
  - apply (str_to_argv_success tok0 [34; 92; 49; 48; 49; 34] None w [[65]]);
      [vm_compute; discriminate|assumption|reflexivity].
Qed.

Lemma C8_witness :
  (exists w',
     str_to_argv None [92; 49; 48; 49] None fresh_world = Returns 0 w' /\
     out_argc w' = 1 /\
     result_slots w' = Some [TokPtr [65]]) /\
  (exists w',
     str_to_argv None [34; 92; 49; 48; 49; 34] None fresh_world
     = Returns 0 w' /\
     out_argc w' = 1 /\
     result_slots w' = Some [TokPtr [65]]).
Proof.
  apply (C8_three_digit_octal_escape None fresh_world).
  intros n. reflexivity.
Defined.

(** C7.  Whenever [str_to_argv] succeeds, for any input and any
    separators, every token it hands out is a token of the labelled token
    sequence of its input with the labels forgotten, and each separator
    byte of such a token was stored by the escape code or copied inside a
    quote; none is a plain copy made outside quotes.  In particular, when
    the input has no backslash and no quote character, the token has no
    separator byte at all. *)
Theorem C7_no_plain_separator_in_a_token
    (tok0 : option token) (ins : list Z) (seps : option (list Z))
    (w w' : world) (sl : list slot) (t : token) :
  str_to_argv tok0 ins seps w = Returns 0 w' ->
  result_slots w' = Some sl ->
  TokPtr t ∈ sl ->
  (exists ttoks tt,
     ttokenize None (seps_of seps) (c_str ins) = Some (0, ttoks) /\
     tt ∈ ttoks /\ erase tt = t /\
     Forall (not_plain_sep (seps_of seps)) tt) /\
  (plain_input (c_str ins) ->
   Forall (fun b => is_sep_space b (seps_of seps) = false) t).
Proof.
  intros Hr Hsl Ht. split.
  - destruct (str_to_argv_tokens _ _ _ _ _ _ _ Hr Hsl Ht)
      as (toks & Htok & Hin).
    rewrite tokenize_uninit in Htok.
    change (@None token) with (erase <$> @None ttoken) in Htok.
    rewrite ttokenize_erase in Htok.
    destruct (ttokenize None (seps_of seps) (c_str ins))
      as [[e ttoks]|] eqn:Htt; [|discriminate].
    simpl in Htok. inversion Htok; subst e toks.
    apply list_elem_of_fmap in Hin. destruct Hin as (tt & -> & Hin).
    exists ttoks, tt. repeat split; try assumption.
    pose proof (ttokenize_clean _ _ _ _ _ Htt) as Hc.
    rewrite Forall_forall in Hc. auto.
  - intros Hp. eapply str_to_argv_plain; eauto.
Qed.

Lemma C7_witness :
  (exists ttoks tt,
     ttokenize None (seps_of None) (c_str [97; 92; 32; 98])
     = Some (0, ttoks) /\
     tt ∈ ttoks /\ erase tt = [97; 32; 98] /\
     Forall (not_plain_sep (seps_of None)) tt) /\
  (plain_input (c_str [97; 92; 32; 98]) ->
   Forall (fun b => is_sep_space b (seps_of None) = false) [97; 32; 98]).
Proof.
  apply (C7_no_plain_separator_in_a_token None [97; 92; 32; 98] None
           fresh_world after_escaped_space [TokPtr [97; 32; 98]]
           [97; 32; 98]).
  - vm_compute. reflexivity.
  - vm_compute. reflexivity.
  - apply list_elem_of_singleton. reflexivity.
Defined.

(** C9.  A backslash starts an escape in every quote state, and the
    escape code, while it consumes characters, does not look at the quote
    state: quoting does not switch escapes off.  With enough memory, the
    input double quote, a, backslash, n, b, double quote gives one token
    of the bytes a, newline, b. *)
Theorem C9_escapes_inside_quotes
    (seps : list Z) (st : scan_state) (q c : Z)
    (tok0 : option token) (w : world) :
  state_ok st ->
  (forall n, alloc_ok w n = true) ->
  (escape st = 0 -> step seps st BACKSLASH = (set_escape 1 st, Next)) /\
  (escape st = 1 \/
   (2 <= escape st /\
    ((base st =? 16) && isxdigit c) || isodigit c = true) ->
   step seps (set_inquote q st) c
   = (set_inquote q (fst (step seps st c)), Next) /\
   snd (step seps st c) = Next) /\
  exists w',
    str_to_argv tok0 [34; 97; 92; 110; 98; 34] None w = Returns 0 w' /\
    out_argc w' = 1 /\
    result_slots w' = Some [TokPtr [97; 10; 98]].
Proof.
  intros Hst Hok. split; [|split].
  - intros E. apply step_backslash; assumption.
  - clear Hst. destruct st as [o q0 e b v]. unfold step. simpl.
    intros [E|[E Hd]].
    + subst e. simpl.
      destruct (isodigit c); [split; reflexivity|].
      destruct (c =? 120); split; reflexivity.
    + rewrite Hd.
      destruct (Z.eqb_spec e 0); [lia|].
      destruct (Z.eqb_spec e 1); [lia|].
      destruct (Z.leb_spec 2 e); [|lia]. simpl.
      destruct (3 <=? e); split; reflexivity.
  - apply (str_to_argv_success tok0 [34; 97; 92; 110; 98; 34] None w
             [[97; 10; 98]]);
      [vm_compute; discriminate|assumption|reflexivity].
Qed.

Lemma C9_witness :
  let st := {| out := [97]; inquote := 34; escape := 1; base := 8;
               cval := 0 |} in
  (escape st = 0 -> step default_seps st BACKSLASH = (set_escape 1 st, Next))
  /\
  (escape st = 1 \/
   (2 <= escape st /\
    ((base st =? 16) && isxdigit 110) || isodigit 110 = true) ->
   step default_seps (set_inquote 0 st) 110
   = (set_inquote 0 (fst (step default_seps st 110)), Next) /\
   snd (step default_seps st 110) = Next) /\
  exists w',
    str_to_argv None [34; 97; 92; 110; 98; 34] None fresh_world
    = Returns 0 w' /\
    out_argc w' = 1 /\
    result_slots w' = Some [TokPtr [97; 10; 98]].
Proof.
  apply (C9_escapes_inside_quotes default_seps
           {| out := [97]; inquote := 34; escape := 1; base := 8;
              cval := 0 |} 0 110 None fresh_world).
  - unfold state_ok. simpl. lia.
  - intros n. reflexivity.
Defined.

(** C10.  Backslash, x and then a character [c] that is no hexadecimal
    digit and not the end of the buffer: the escape stores the value 0 as
    one byte and is over, and [c] is processed as any character outside
    an escape; the scan goes on as from the state with the zero byte
    stored.  With enough memory, the input backslash, x, g gives one
    token of the bytes 0 and g; the escape is an error only when the
    buffer ends right after backslash, x. *)
Theorem C10_hex_escape_without_digits_stores_nul
    (seps : list Z) (st : scan_state) (c : Z) (p : list Z)
    (tok0 : option token) (w : world) :
  state_ok st -> escape st = 0 ->
  c <> NUL -> isxdigit c = false ->
  (forall n, alloc_ok w n = true) ->
  let st' := {| out := out st ++ [0]; inquote := inquote st; escape := 0;
                base := 16; cval := 0 |} in
  scan seps st (BACKSLASH :: CH_x :: c :: p) = scan seps st' (c :: p) /\
  step seps st' c = process_char seps st' c /\
  (exists w',
     str_to_argv tok0 [92; 120; 103] None w = Returns 0 w' /\
     out_argc w' = 1 /\
     result_slots w' = Some [TokPtr [0; 103]]) /\
  gettok [92; 120] tok0 default_seps = (-1, [], tok0).
Proof.
  intros Hst E Hc Hx Hok st'. split; [|split; [|split]].
  - assert (isodigit c = false) as Ho.
    { destruct (isodigit c) eqn:Ho; [|reflexivity].
      apply isodigit_isxdigit in Ho. congruence. }
    rewrite scan_cons by discriminate.
    rewrite (step_backslash _ _ Hst E).
    rewrite scan_cons by discriminate.
    rewrite step_x by reflexivity.
    rewrite (scan_cons _ _ c) by assumption.
    rewrite (scan_cons _ st' c) by assumption.
    unfold step. cbn [escape base cval set_escape set_inquote emit out inquote].
    rewrite Hx, Ho. reflexivity.
  - reflexivity.
  - apply (str_to_argv_success tok0 [92; 120; 103] None w [[0; 103]]);
      [vm_compute; discriminate|assumption|reflexivity].
  - reflexivity.
Qed.

Lemma C10_witness :
  let st := init_state in
  let st' := {| out := out st ++ [0]; inquote := inquote st; escape := 0;
                base := 16; cval := 0 |} in
  scan default_seps st (BACKSLASH :: CH_x :: 103 :: [98])
  = scan default_seps st' (103 :: [98]) /\
  step default_seps st' 103 = process_char default_seps st' 103 /\
  (exists w',
     str_to_argv None [92; 120; 103] None fresh_world = Returns 0 w' /\
     out_argc w' = 1 /\
     result_slots w' = Some [TokPtr [0; 103]]) /\
  gettok [92; 120] None default_seps = (-1, [], None).
Proof.
  apply (C10_hex_escape_without_digits_stores_nul default_seps init_state
           103 [98] None fresh_world).
  - apply init_state_ok.
  - reflexivity.
  - discriminate.
  - reflexivity.
  - intros n. reflexivity.
Defined.

(** * Further properties *)

(** ** Prefixes and numbers *)

Module UtilFacts.

Lemma strlen_c_str s : strlen s = Z.of_nat (length (c_str s)).
Proof.
  induction s as [|c s IH]; simpl; [reflexivity|].
  destruct (c =? NUL); simpl; lia.
Qed.

Lemma deref_c_str s : deref s = NUL <-> c_str s = [].
Proof.
  destruct s as [|c s]; simpl; [tauto|].
  destruct (Z.eqb_spec c NUL); split; intros; congruence.
Qed.

Lemma c_str_cons c s : c <> NUL -> c_str (c :: s) = c :: c_str s.
Proof. intros H. simpl. destruct (Z.eqb_spec c NUL); congruence. Qed.

(** [strncmp] over the length of the second string tests for a prefix. *)
Lemma strncmp_prefix prefix : forall s,
  strncmp s prefix (strlen prefix) = 0 <-> c_str prefix `prefix_of` c_str s.
Proof.
  induction prefix as [|c prefix IH]; intros s.
  - simpl. split; [intros _; apply prefix_nil|intros _].
    destruct s; reflexivity.
  - simpl strlen. simpl c_str. destruct (Z.eqb_spec c NUL) as [->|Hc].
    + split; [intros _; apply prefix_nil|intros _]. destruct s; reflexivity.
    + pose proof (strlen_c_str prefix) as Hl.
      assert (strncmp s (c :: prefix) (1 + strlen prefix)
              = if negb (deref s =? c) then deref s - c
                else if deref s =? NUL then 0
                else match s with
                     | [] => 0
                     | _ :: s1 => strncmp s1 prefix (strlen prefix)
                     end) as ->.
      { destruct s as [|d s]; simpl;
          (destruct (Z.leb_spec (1 + strlen prefix) 0); [lia|]);
          replace (1 + strlen prefix - 1) with (strlen prefix) by lia;
          reflexivity. }
      destruct (Z.eqb_spec (deref s) c) as [E|E]; simpl.
      * destruct s as [|d s]; simpl in E; [congruence|]. subst d.
        rewrite (c_str_cons c s Hc). simpl deref.
        destruct (Z.eqb_spec c NUL); [contradiction|].
        rewrite IH.
        split; [apply prefix_cons|apply prefix_cons_inv_2].
      * split; [lia|]. intros [k Hk]. exfalso.
        destruct s as [|d s]; simpl in *; [discriminate|].
        destruct (d =? NUL); inversion Hk; congruence.
Qed.

Lemma skip_zeros_spec str :
  deref (skip_zeros str) = NUL <-> Forall (eq CH_0) (c_str str).
Proof.
  induction str as [|c str IH]; simpl; [split; auto|].
  destruct (Z.eqb_spec c CH_0) as [->|Hc]; simpl.
  - rewrite IH. split; [constructor; auto|]. inversion 1; auto.
  - destruct (Z.eqb_spec c NUL) as [->|Hn]; [split; auto|].
    split; [contradiction|]. inversion 1; congruence.
Qed.

Lemma strisallzero_spec str :
  strisallzero str
  = if decide (c_str str <> [] /\ Forall (eq CH_0) (c_str str)) then 1 else 0.
Proof.
  unfold strisallzero.
  pose proof (deref_c_str str) as H1. pose proof (skip_zeros_spec str) as H2.
  destruct (Z.eqb_spec (deref str) NUL) as [E|E].
  - case_decide; [|reflexivity]. tauto.
  - destruct (Z.eqb_spec (deref (skip_zeros str)) NUL) as [F|F];
      case_decide; try reflexivity; tauto.
Qed.

Lemma isdigit_range c : isdigit c = true <-> CH_0 <= c <= CH_9.
Proof. unfold isdigit. rewrite andb_true_iff, !Z.leb_le. tauto. Qed.

Lemma decimal_from_ge ds : forall acc,
  0 <= acc -> Forall (fun c => isdigit c = true) ds ->
  acc <= decimal_from acc ds.
Proof.
  unfold decimal_from.
  induction ds as [|d ds IH]; simpl; intros acc Ha Hd; [lia|].
  inversion Hd as [|? ? Hd1 Hd2]; subst. apply isdigit_range in Hd1.
  specialize (IH (acc * 10 + (d - CH_0)) ltac:(lia) Hd2). lia.
Qed.

Lemma scan_int_loop_c_str s : forall rv,
  scan_int_loop rv s = scan_int_loop rv (c_str s).
Proof.
  induction s as [|c s IH]; intros rv; simpl; [reflexivity|].
  destruct (Z.eqb_spec c NUL) as [->|Hc]; [reflexivity|].
  simpl. destruct (isdigit c); [|destruct (Z.eqb_spec c NUL); congruence].
  destruct (_ && _); [apply IH|reflexivity].
Qed.

(** The loop over digits, then the rest. *)
Lemma scan_int_loop_digits ds : forall rv rest,
  0 <= rv -> Forall (fun c => isdigit c = true) ds ->
  scan_int_loop rv (ds ++ rest)
  = if decimal_from rv ds <=? INT_MAX
    then scan_int_loop (decimal_from rv ds) rest
    else if rv <=? INT_MAX then None
    else scan_int_loop rv (ds ++ rest).
Proof.
  induction ds as [|d ds IH]; intros rv rest Hrv Hd.
  - unfold decimal_from. simpl.
    destruct (Z.leb_spec rv INT_MAX); reflexivity.
  - inversion Hd as [|? ? Hd1 Hd2]; subst.
    pose proof Hd1 as Hr. apply isdigit_range in Hr.
    change (decimal_from rv (d :: ds))
      with (decimal_from (rv * 10 + (d - CH_0)) ds).
    pose proof (decimal_from_ge ds (rv * 10 + (d - CH_0)) ltac:(lia) Hd2) as Hge.
    destruct (Z.leb_spec (decimal_from (rv * 10 + (d - CH_0)) ds) INT_MAX).
    + simpl. rewrite Hd1.
      destruct (Z.leb_spec (rv * 10) INT_MAX); [|lia].
      destruct (Z.leb_spec (rv * 10 + (d - CH_0)) INT_MAX); [|lia].
      simpl. rewrite IH by (auto; lia).
      destruct (Z.leb_spec (decimal_from (rv * 10 + (d - CH_0)) ds) INT_MAX);
        [reflexivity|lia].
    + destruct (Z.leb_spec rv INT_MAX); [|reflexivity].
      simpl. rewrite Hd1.
      destruct (Z.leb_spec (rv * 10) INT_MAX); [|reflexivity].
      destruct (Z.leb_spec (rv * 10 + (d - CH_0)) INT_MAX); [|reflexivity].
      simpl. rewrite IH by (auto; lia).
      destruct (Z.leb_spec (decimal_from (rv * 10 + (d - CH_0)) ds) INT_MAX);
        [lia|].
      destruct (Z.leb_spec (rv * 10 + (d - CH_0)) INT_MAX); [reflexivity|lia].
Qed.

(** A string splits into its leading digits and the rest, which is empty or
    starts with a byte that is no digit. *)
Lemma leading_digits s :
  exists ds rest,
    s = ds ++ rest /\ Forall (fun c => isdigit c = true) ds /\
    (rest = [] \/ exists c r, rest = c :: r /\ isdigit c = false).
Proof.
  induction s as [|c s (ds & rest & -> & Hd & Hr)].
  - exists [], []. auto.
  - destruct (isdigit c) eqn:E.
    + exists (c :: ds), rest. auto.
    + exists [], (c :: ds ++ rest). split_and!; eauto.
Qed.

Lemma c_str_no_nul s : Forall (fun c => c <> NUL) (c_str s).
Proof.
  induction s as [|c s IH]; simpl; [constructor|].
  destruct (Z.eqb_spec c NUL); constructor; auto.
Qed.

(** What [scan_int] returns, by the shape of the string. *)
Lemma scan_int_cases s ds rest :
  c_str s = ds ++ rest ->
  Forall (fun c => isdigit c = true) ds ->
  (rest = [] \/ exists c r, rest = c :: r /\ isdigit c = false) ->
  scan_int s
  = if decide (c_str s = []) then Some (-1)
    else if INT_MAX <? decimal ds then None
    else match rest with
         | [] => Some (decimal ds)
         | _ => Some (-1)
         end.
Proof.
  intros Hs Hd Hr. unfold scan_int.
  pose proof (deref_c_str s) as Hz.
  destruct (Z.eqb_spec (deref s) NUL) as [E|E]; case_decide; try tauto.
  rewrite scan_int_loop_c_str, Hs, scan_int_loop_digits by (auto; lia).
  fold (decimal ds).
  destruct (Z.leb_spec (decimal ds) INT_MAX), (Z.ltb_spec INT_MAX (decimal ds));
    try lia; [|reflexivity].
  destruct Hr as [->|(c & r & -> & Hc)]; [reflexivity|].
  simpl. rewrite Hc.
  pose proof (c_str_no_nul s) as Hn. rewrite Hs in Hn.
  apply Forall_app in Hn. destruct Hn as [_ Hn]. inversion Hn; subst.
  destruct (Z.eqb_spec c NUL); [contradiction|reflexivity].
Qed.

(** [scan_int] returns a number that is not negative exactly for the
    non-empty digit strings that denote at most [INT_MAX]. *)
Lemma scan_int_value s n :
  (scan_int s = Some n /\ 0 <= n)
  <-> (c_str s <> [] /\
       Forall (fun c => isdigit c = true) (c_str s) /\
       decimal (c_str s) = n /\ n <= INT_MAX).
Proof.
  destruct (leading_digits (c_str s)) as (ds & rest & Hs & Hd & Hr).
  rewrite (scan_int_cases s ds rest Hs Hd Hr).
  pose proof (decimal_from_ge ds 0 ltac:(lia) Hd) as Hge.
  fold (decimal ds) in Hge.
  case_decide as Hn.
  { split; [intros [H ?]; inversion H; lia|tauto]. }
  destruct (Z.ltb_spec INT_MAX (decimal ds)) as [Ho|Ho].
  - split; [intros [H _]; discriminate|].
    intros (_ & Hall & Hv & Hm). exfalso.
    destruct Hr as [->|(c & r & -> & Hc)].
    + rewrite app_nil_r in Hs. rewrite Hs in Hv. lia.
    + rewrite Hs in Hall. apply Forall_app in Hall. destruct Hall as [_ Hall].
      inversion Hall; congruence.
  - destruct Hr as [->|(c & r & -> & Hc)].
    + rewrite app_nil_r in Hs. rewrite Hs in *.
      split; [intros [H ?]; inversion H; auto|].
      intros (_ & _ & <- & _). auto.
    + split; [intros [H ?]; inversion H; lia|].
      intros (_ & Hall & _). exfalso.
      rewrite Hs in Hall. apply Forall_app in Hall. destruct Hall as [_ Hall].
      inversion Hall; congruence.
Qed.

(** A digit string denotes 0 exactly when all its digits are 0. *)
Lemma decimal_from_zero ds : forall acc,
  0 <= acc -> Forall (fun c => isdigit c = true) ds ->
  (decimal_from acc ds = 0 <-> acc = 0 /\ Forall (eq CH_0) ds).
Proof.
  unfold decimal_from.
  induction ds as [|d ds IH]; simpl; intros acc Ha Hd.
  - split; [auto|tauto].
  - inversion Hd as [|? ? Hd1 Hd2]; subst. apply isdigit_range in Hd1.
    rewrite (IH (acc * 10 + (d - CH_0)) ltac:(lia) Hd2).
    split.
    + intros [H1 H2]. split; [lia|]. constructor; [lia|assumption].
    + intros [-> H]. inversion H; subst. split; [reflexivity|assumption].
Qed.

(** A string is the digits it starts with and a rest that is empty or
    starts with a byte that is no digit. *)
Lemma digit_run_split s :
  exists rest,
    s = digit_run s ++ rest /\
    Forall (fun c => isdigit c = true) (digit_run s) /\
    (rest = [] \/ exists c r, rest = c :: r /\ isdigit c = false).
Proof.
  induction s as [|c s (rest & Hs & Hd & Hr)]; simpl.
  - exists []. auto.
  - destruct (isdigit c) eqn:E.
    + exists rest. simpl. split_and!; auto. congruence.
    + exists (c :: s). split_and!; eauto.
Qed.

(** What [scan_int] returns when it stays within [int]. *)
Lemma scan_int_fits s rest :
  fits_int s -> c_str s = digit_run (c_str s) ++ rest ->
  scan_int s
  = if decide (c_str s = []) then Some (-1)
    else match rest with
         | [] => Some (decimal (digit_run (c_str s)))
         | _ => Some (-1)
         end.
Proof.
  intros Hf Hs.
  destruct (digit_run_split (c_str s)) as (rest' & Hs' & Hd & Hr).
  assert (rest' = rest) as ->.
  { rewrite Hs in Hs' at 1. apply app_inv_head in Hs'. congruence. }
  rewrite (scan_int_cases s _ rest Hs Hd Hr).
  case_decide; [reflexivity|].
  unfold fits_int in Hf.
  destruct (Z.ltb_spec INT_MAX (decimal (digit_run (c_str s)))); [lia|].
  reflexivity.
Qed.

End UtilFacts.

(** ** Writing to a descriptor *)

Module IoFacts.
Import Io.

Lemma take_take_drop_Z (data : list Z) (a b : Z) :
  0 <= a -> 0 <= b ->
  take (Z.to_nat a) data ++ take (Z.to_nat b) (drop (Z.to_nat a) data)
  = take (Z.to_nat (a + b)) data.
Proof.
  intros Ha Hb. rewrite Z2Nat.inj_add by assumption.
  apply take_take_drop.
Qed.

(** The loop: it ends within [count + 1] calls, the bytes taken are the
    first [k] bytes of the data, and when [k] is short of [count] the call
    that ended the loop failed or took nothing. *)
Lemma write_loop_spec : forall fuel data count ch,
  0 <= count <= Z.of_nat (length data) ->
  (Z.to_nat count < fuel)%nat ->
  exists ch' k,
    write_loop fuel data count ch = Some ch' /\
    0 <= k <= count /\
    sent ch' = sent ch ++ take (Z.to_nat k) data /\
    answers ch' = answers ch /\
    (calls ch < calls ch')%nat /\
    (Z.of_nat (calls ch') <= Z.of_nat (calls ch) + k + 1) /\
    (k < count ->
     answers ch (pred (calls ch')) = Fails
     \/ answers ch (pred (calls ch')) = Takes 0).
Proof.
  induction fuel as [|fuel IH]; intros data count ch Hc Hf; [lia|].
  cbn [write_loop]. unfold write.
  destruct (answers ch (calls ch)) as [n|] eqn:Ea.
  - destruct (Z.ltb_spec 0 (Z.min (Z.of_nat n) count)) as [Hk|Hk].
    + set (k0 := Z.min (Z.of_nat n) count) in *.
      edestruct (IH (drop (Z.to_nat k0) data) (count - k0)
                   {| sent := sent ch ++ take (Z.to_nat k0) data;
                      calls := S (calls ch); answers := answers ch |})
        as (ch' & k & Hr & Hk1 & Hs & Han & Hc1 & Hc2 & Hl).
      { rewrite length_drop. lia. }
      { lia. }
      simpl in *. exists ch', (k0 + k). rewrite Hr.
      split_and!; auto; try lia.
      * rewrite Hs, <- app_assoc. f_equal. apply take_take_drop_Z; lia.
      * intros Hlt. apply Hl. lia.
    + exists {| sent := sent ch ++ take (Z.to_nat (Z.min (Z.of_nat n) count))
                                     data;
                calls := S (calls ch); answers := answers ch |}, 0.
      simpl. split_and!; auto; try lia.
      * replace (Z.to_nat (Z.min (Z.of_nat n) count)) with 0%nat by lia.
        reflexivity.
      * intros Hlt. right. rewrite Ea. f_equal. lia.
  - exists {| sent := sent ch; calls := S (calls ch);
              answers := answers ch |}, 0.
    simpl. split_and!; auto; try lia.
    rewrite app_nil_r. reflexivity.
Qed.

End IoFacts.

(** ** The baud rate tables *)

Module BaudFacts.
Import Baud.

(** The search by rate. *)
Lemma by_rate tbl rate v :
  (exists e, e ∈ tbl /\ real_rate e = rate /\
     get_baud_rate_from tbl rate v
     = (1, match v with Some _ => Some (val e) | None => None end))
  \/ ((rate ∉ map real_rate tbl) /\ get_baud_rate_from tbl rate v = (0, v)).
Proof.
  induction tbl as [|e tbl IH]; simpl.
  - right. split; [apply not_elem_of_nil|reflexivity].
  - destruct (Z.eqb_spec rate (real_rate e)) as [E|E].
    + left. exists e. split_and!; auto. left.
    + destruct IH as [(e' & H1 & H2 & H3)|[H1 H2]].
      * left. exists e'. split_and!; auto. right. assumption.
      * right. split; [|assumption]. rewrite not_elem_of_cons. auto.
Qed.

(** The search by speed code. *)
Lemma by_code tbl v :
  (exists e, e ∈ tbl /\ val e = v /\
     get_rate_from_baud_rate_from tbl v = real_rate e /\
     get_baud_rate_str_from tbl v = str e)
  \/ ((v ∉ map val tbl) /\
      get_rate_from_baud_rate_from tbl v = 0 /\
      get_baud_rate_str_from tbl v = bytes "unknown speed"%string).
Proof.
  induction tbl as [|e tbl IH]; simpl.
  - right. split; [apply not_elem_of_nil|auto].
  - destruct (Z.eqb_spec v (val e)) as [E|E].
    + left. exists e. split_and!; auto. left.
    + destruct IH as [(e' & H1 & H2 & H3 & H4)|(H1 & H2 & H3)].
      * left. exists e'. split_and!; auto. right. assumption.
      * right. split_and!; auto. rewrite not_elem_of_cons. auto.
Qed.

(** In a table without two entries of the same rate, the search by rate
    finds the entry itself. *)
Lemma by_rate_entry tbl e x :
  NoDup (map real_rate tbl) -> e ∈ tbl ->
  get_baud_rate_from tbl (real_rate e) (Some x) = (1, Some (val e)).
Proof.
  induction tbl as [|e' tbl IH]; simpl; intros Hn He.
  - apply elem_of_nil in He. contradiction.
  - apply NoDup_cons in Hn. destruct Hn as [Hn1 Hn2].
    apply elem_of_cons in He. destruct He as [->|He].
    + rewrite Z.eqb_refl. reflexivity.
    + destruct (Z.eqb_spec (real_rate e) (real_rate e')) as [E|E]; [|auto].
      exfalso. apply Hn1. rewrite <- E.
      apply list_elem_of_fmap. eauto.
Qed.

Lemma by_code_entry tbl e :
  NoDup (map val tbl) -> e ∈ tbl ->
  get_rate_from_baud_rate_from tbl (val e) = real_rate e.
Proof.
  induction tbl as [|e' tbl IH]; simpl; intros Hn He.
  - apply elem_of_nil in He. contradiction.
  - apply NoDup_cons in Hn. destruct Hn as [Hn1 Hn2].
    apply elem_of_cons in He. destruct He as [->|He].
    + rewrite Z.eqb_refl. reflexivity.
    + destruct (Z.eqb_spec (val e) (val e')) as [E|E]; [|auto].
      exfalso. apply Hn1. rewrite <- E.
      apply list_elem_of_fmap. eauto.
Qed.

Lemma entry_entry_ok T r s :
  scan_int (bytes s) = Some r -> r <> 0 -> entry_ok (entry T r s).
Proof. intros H1 H2. split; assumption. Qed.

Lemma ifdef_ok T r s :
  scan_int (bytes s) = Some r -> r <> 0 -> Forall entry_ok (ifdef T r s).
Proof.
  intros H1 H2. unfold ifdef.
  destruct (defined_B T r); repeat constructor; assumption.
Qed.

Lemma baud_rates_ok T : Forall entry_ok (baud_rates T).
Proof.
  unfold baud_rates.
  repeat apply Forall_app_2;
    try (apply ifdef_ok; [reflexivity|discriminate]).
  repeat apply Forall_cons_2; try apply Forall_nil_2;
    (apply entry_entry_ok; [reflexivity|discriminate]).
Qed.

Lemma ifdef_rates T r s : map real_rate (ifdef T r s) `sublist_of` [r].
Proof.
  unfold ifdef. destruct (defined_B T r); simpl.
  - reflexivity.
  - apply sublist_nil_l.
Qed.

Lemma baud_rates_sublist T :
  map real_rate (baud_rates T) `sublist_of` always ++ optional.
Proof.
  change (always ++ optional)
    with (always ++ [230400] ++ [460800] ++ [500000] ++ [576000]
          ++ [921600] ++ [1000000] ++ [1152000] ++ [1500000] ++ [2000000]
          ++ [2500000] ++ [3000000] ++ [3500000] ++ [4000000]).
  unfold baud_rates. rewrite !map_app.
  repeat (apply sublist_app; [first [apply ifdef_rates|reflexivity]|]).
  apply ifdef_rates.
Qed.

Lemma baud_rates_NoDup T : NoDup (map real_rate (baud_rates T)).
Proof.
  eapply sublist_NoDup; [|apply baud_rates_sublist].
  refine (bool_decide_unpack _ _). vm_compute. exact I.
Qed.

Lemma found_iff T v :
  get_rate_from_baud_rate T v <> 0 <-> v ∈ map val (baud_rates T).
Proof.
  unfold get_rate_from_baud_rate.
  destruct (by_code (baud_rates T) v) as [(e & H1 & H2 & H3 & _)|(H1 & H2 & _)].
  - rewrite H3. pose proof (baud_rates_ok T) as Hok.
    rewrite Forall_forall in Hok. destruct (Hok e H1) as [_ Hr].
    split; [intros _|auto]. apply list_elem_of_fmap. eauto.
  - rewrite H2. split; [congruence|contradiction].
Qed.

(** The rates the table holds: the seventeen that are always there, and
    those of the others whose speed code the system defines. *)
Lemma ifdef_elem T r s x :
  x ∈ map real_rate (ifdef T r s) <-> x = r /\ defined_B T r = true.
Proof.
  unfold ifdef. destruct (defined_B T r); simpl.
  - rewrite list_elem_of_singleton. intuition congruence.
  - split; [intros H; apply elem_of_nil in H; contradiction|].
    intros [_ ?]; discriminate.
Qed.

(** The rates [get_baud_rate] knows: those that are always in the table,
    and those under [#ifdef] whose speed code the system defines. *)
Lemma rate_listed T x :
  x ∈ map real_rate (baud_rates T)
  <-> x ∈ always \/ (x ∈ optional /\ defined_B T x = true).
Proof.
  unfold baud_rates. rewrite !map_app, !elem_of_app, !ifdef_elem.
  unfold always, optional. cbn [map real_rate entry].
  rewrite !elem_of_cons, !elem_of_nil. split.
  - intros H. repeat destruct H as [H|H]; try tauto;
      destruct H as [-> H]; right; tauto.
  - intros [H|[H Hd]]; [tauto|].
    repeat destruct H as [H|H]; try contradiction; subst x; tauto.
Qed.

Lemma get_baud_rate_supported T rate v :
  fst (get_baud_rate T rate v) = 1
  <-> rate ∈ always \/ (rate ∈ optional /\ defined_B T rate = true).
Proof.
  etransitivity; [|apply rate_listed]. unfold get_baud_rate.
  destruct (by_rate (baud_rates T) rate v) as [(e & H1 & H2 & H3)|[H1 H2]].
  - rewrite H3. cbn [fst]. split; [intros _|reflexivity].
    apply list_elem_of_fmap. eauto.
  - rewrite H2. cbn [fst]. split; [discriminate|contradiction].
Qed.

End BaudFacts.

Module CiscoFacts.
Import Cisco.


End CiscoFacts.

(** ** The token sequence *)

Module SeqFacts.

(** More iterations than needed change nothing. *)
Lemma collect_fuel seps : forall f1 f2 err s tok r,
  collect f1 seps err s tok = Some r -> (f1 <= f2)%nat ->
  collect f2 seps err s tok = Some r.
Proof.
  induction f1 as [|f1 IH]; intros f2 err s tok r H Hf.
  - destruct tok as [t|]; simpl in H.
    + destruct (err =? 0) eqn:E; [discriminate|].
      destruct f2; simpl; rewrite E; assumption.
    + destruct f2; simpl; assumption.
  - destruct f2 as [|f2]; [lia|]. simpl in *.
    destruct tok as [t|]; [|assumption].
    destruct (err =? 0); [|assumption].
    destruct (gettok s (Some t) seps) as [[e' s'] tok'].
    destruct (collect f1 seps e' s' tok') as [[e toks]|] eqn:Hc;
      [|discriminate].
    rewrite (IH f2 _ _ _ _ Hc) by lia. assumption.
Qed.

(** The token sequence, one call of [gettok] at a time. *)
Lemma tokenize_step tok0 seps s :
  tokenize tok0 seps s
  = let '(e, s', tok) := gettok s tok0 seps in
    match tok with
    | Some t =>
        if e =? 0 then
          match tokenize (Some t) seps s' with
          | Some (e', toks) => Some (e', t :: toks)
          | None => None
          end
        else Some (e, [])
    | None => Some (e, [])
    end.
Proof.
  unfold tokenize at 1.
  destruct (gettok s tok0 seps) as [[e s'] tok] eqn:Hg.
  destruct tok as [t|]; [|apply collect_null].
  destruct (Z.eqb_spec e 0) as [->|He]; [|apply collect_err; assumption].
  apply gettok_shrinks in Hg.
  destruct (tokenize_total (Some t) seps s') as (e' & toks & Ht).
  rewrite Ht. unfold tokenize in Ht. cbn [collect]. simpl.
  destruct (gettok s' (Some t) seps) as [[e1 s1] tok1].
  rewrite (collect_fuel _ _ (length s) _ _ _ _ Ht) by lia. reflexivity.
Qed.

(** [gettok] looks at its input from the first byte that is no separator
    on. *)
Lemma gettok_skip s tok seps :
  gettok (skip_spaces s seps) tok seps = gettok s tok seps.
Proof.
  unfold gettok.
  assert (skip_spaces (skip_spaces s seps) seps = skip_spaces s seps) as ->;
    [|reflexivity].
  induction s as [|c s IH]; simpl; [reflexivity|].
  destruct (is_sep_space c seps) eqn:E; [assumption|].
  simpl. rewrite E. reflexivity.
Qed.

Lemma tokenize_skip tok0 seps s :
  tokenize tok0 seps (skip_spaces s seps) = tokenize tok0 seps s.
Proof. rewrite (tokenize_step _ _ s), tokenize_step, gettok_skip. reflexivity. Qed.

(** Nothing but separators: no token. *)
Lemma tokenize_blank tok0 seps s :
  Forall (fun c => is_sep_space c seps = true) s ->
  tokenize tok0 seps s = Some (0, []).
Proof.
  intros H. rewrite tokenize_step. unfold gettok.
  assert (skip_spaces s seps = []) as ->; [|reflexivity].
  induction H as [|c s Hc Hs IH]; simpl; [reflexivity|].
  rewrite Hc. assumption.
Qed.

End SeqFacts.

Import SeqFacts.

Module FieldFacts.

Lemma c_str_id s : no_nul s -> c_str s = s.
Proof.
  induction 1 as [|c s Hc Hs IH]; simpl; [reflexivity|].
  destruct (Z.eqb_spec c NUL); [contradiction|]. rewrite IH. reflexivity.
Qed.

(** Outside quotes and escapes, a byte that is no quote and no backslash
    ends the token when it is a separator and is copied otherwise. *)
Lemma step_plain seps st c :
  escape st = 0 -> inquote st = NUL ->
  c <> NUL -> c <> BACKSLASH /\ c <> SQUOTE /\ c <> DQUOTE ->
  step seps st c
  = if is_sep_space c seps then (st, Break) else (emit c st, Next).
Proof.
  intros He Hq Hc (H1 & H2 & H3). unfold step, process_char.
  rewrite He, Hq. simpl.
  destruct (Z.eqb_spec c 0); [contradiction|].
  destruct (Z.eqb_spec c 39); [contradiction|].
  destruct (Z.eqb_spec c 34); [contradiction|].
  destruct (Z.eqb_spec c 92); [contradiction|]. reflexivity.
Qed.

Lemma end_flush_idle st : escape st = 0 -> end_flush st = st.
Proof.
  intros He. unfold end_flush. rewrite He. simpl.
  rewrite !andb_false_r. reflexivity.
Qed.

Lemma scan_plain seps p : forall st,
  escape st = 0 -> inquote st = NUL -> plain_input p -> no_nul p ->
  exists st' p' ex,
    scan seps st p = (st', p', ex) /\
    escape st' = 0 /\ inquote st' = NUL /\
    (exists run, out st' = out st ++ run) /\
    plain_input p' /\ no_nul p' /\
    fields_from seps (out st) p
    = match out st' with
      | [] => []
      | _ => [out st']
      end ++ fields seps p'.
Proof.
  induction p as [|c p IH]; intros st He Hq Hp Hn.
  - exists st, [], AtEnd. simpl. split_and!; auto.
    + exists []. rewrite app_nil_r. reflexivity.
    + destruct (out st); reflexivity.
  - inversion Hp as [|? ? Hc Hp']; inversion Hn as [|? ? Hc0 Hn']; subst.
    rewrite scan_cons by assumption.
    rewrite step_plain by assumption. simpl.
    destruct (is_sep_space c seps) eqn:Es.
    + exists st, p, AtSep. split_and!; auto.
      * exists []. rewrite app_nil_r. reflexivity.
      * destruct (out st); reflexivity.
    + destruct (IH (emit c st)) as (st' & p' & ex & H1 & H2 & H3 & H4 & H5 & H6 & H7);
        auto.
      exists st', p', ex. split_and!; auto.
      destruct H4 as [run Hr]. exists (c :: run). rewrite Hr. simpl.
      rewrite <- app_assoc. reflexivity.
Qed.

Lemma fields_skip seps s :
  fields seps (skip_spaces s seps) = fields seps s.
Proof.
  unfold fields. induction s as [|c s IH]; simpl; [reflexivity|].
  destruct (is_sep_space c seps) eqn:E; [assumption|].
  simpl. rewrite E. reflexivity.
Qed.

Lemma skip_spaces_keeps (P : Z -> Prop) s seps :
  Forall P s -> Forall P (skip_spaces s seps).
Proof.
  induction 1 as [|c s Hc Hs IH]; simpl; [constructor|].
  destruct (is_sep_space c seps); [assumption|]. constructor; assumption.
Qed.

(** One call of [gettok] on an input without quotes and backslashes takes
    the first field. *)
Lemma gettok_plain s tok seps :
  plain_input s -> no_nul s ->
  (gettok s tok seps = (0, [], None) /\ fields seps s = [])
  \/ (exists t s',
        gettok s tok seps = (0, s', Some t) /\
        fields seps s = t :: fields seps s' /\
        plain_input s' /\ no_nul s').
Proof.
  intros Hp Hn. rewrite <- gettok_skip, <- fields_skip.
  pose proof (skip_spaces_stops s seps) as Hst.
  apply (skip_spaces_keeps _ _ seps) in Hp, Hn.
  destruct (skip_spaces s seps) as [|c r] eqn:Et.
  - left. split; reflexivity.
  - right. simpl in Hst.
    inversion Hp as [|? ? Hc Hp']; inversion Hn as [|? ? Hc0 Hn']; subst.
    unfold gettok. simpl skip_spaces. rewrite Hst. simpl deref.
    destruct (Z.eqb_spec c NUL); [contradiction|].
    rewrite scan_cons by assumption.
    rewrite step_plain by (auto; reflexivity). rewrite Hst.
    destruct (scan_plain seps r (emit c init_state))
      as (st' & p' & ex & H1 & H2 & H3 & [run Hr] & H5 & H6 & H7); auto.
    rewrite H1, (end_flush_idle _ H2), H2, H3. simpl.
    exists (out st'), p'. split_and!; auto.
    unfold fields at 1. simpl. rewrite Hst.
    simpl in H7. rewrite H7, Hr. reflexivity.
Qed.

(** The token sequence of an input without quotes and backslashes is the
    sequence of its fields. *)
Lemma tokenize_fields tok0 seps s :
  plain_input s -> no_nul s ->
  tokenize tok0 seps s = Some (0, fields seps s).
Proof.
  remember (length s) as n eqn:Hl. revert tok0 s Hl.
  induction n as [n IH] using lt_wf_ind. intros tok0 s -> Hp Hn.
  rewrite tokenize_step.
  destruct (gettok_plain s tok0 seps Hp Hn)
    as [[-> ->]|(t & s' & Hg & -> & Hp' & Hn')]; [reflexivity|].
  rewrite Hg. simpl. apply gettok_shrinks in Hg.
  rewrite (IH (length s') Hg (Some t) s' eq_refl Hp' Hn'). reflexivity.
Qed.

End FieldFacts.

Import FieldFacts.

Module EscapeFacts.

Lemma isodigit_offset d : 0 <= d <= 7 -> isodigit (CH_0 + d) = true.
Proof.
  intros H. unfold isodigit, isdigit.
  destruct (Z.leb_spec 48 (48 + d)); [|lia].
  destruct (Z.leb_spec (48 + d) 57); [|lia].
  destruct (Z.eqb_spec (48 + d) 56); [lia|].
  destruct (Z.eqb_spec (48 + d) 57); [lia|]. reflexivity.
Qed.

(** The first digit after the backslash. *)
Lemma step_digit1 seps st c :
  escape st = 1 -> isodigit c = true ->
  step seps st c
  = ({| out := out st; inquote := inquote st; escape := 2; base := 8;
        cval := c - CH_0 |}, Next).
Proof.
  destruct st as [o q e b v]. simpl. intros -> H. unfold step. simpl.
  rewrite H. reflexivity.
Qed.

(** The second octal digit. *)
Lemma step_digit2 seps st c :
  escape st = 2 -> base st = 8 -> isodigit c = true ->
  step seps st c
  = ({| out := out st; inquote := inquote st; escape := 3; base := 8;
        cval := accumulate (cval st) 8 c |}, Next).
Proof.
  destruct st as [o q e b v]. simpl. intros -> -> H. unfold step. simpl.
  rewrite H. rewrite ?orb_true_r. reflexivity.
Qed.

(** The third octal digit completes the escape. *)
Lemma step_digit3 seps st c :
  escape st = 3 -> base st = 8 -> isodigit c = true ->
  step seps st c
  = ({| out := out st ++ [accumulate (cval st) 8 c]; inquote := inquote st;
        escape := 0; base := 8; cval := accumulate (cval st) 8 c |}, Next).
Proof.
  destruct st as [o q e b v]. simpl. intros -> -> H. unfold step. simpl.
  rewrite H. rewrite ?orb_true_r. reflexivity.
Qed.

Lemma accumulate_digit v d :
  0 <= d <= 7 -> accumulate v 8 (CH_0 + d) = to_char (v * 8 + d).
Proof.
  intros H. unfold accumulate. rewrite (isodigit_offset d H).
  f_equal. lia.
Qed.

(** A backslash and the three octal digits of a byte store the byte. *)
Lemma scan_octal seps st b rest :
  state_ok st -> escape st = 0 -> 0 < b < 256 ->
  scan seps st (octal_escape b ++ rest)
  = scan seps {| out := out st ++ [b]; inquote := inquote st; escape := 0;
                 base := 8; cval := b |} rest.
Proof.
  intros Hok He Hb. unfold octal_escape. cbn [app].
  assert (0 <= b / 64 <= 7) as H2 by (Z.div_mod_to_equations; lia).
  assert (0 <= (b / 8) mod 8 <= 7) as H1 by (Z.div_mod_to_equations; lia).
  assert (0 <= b mod 8 <= 7) as H0 by (Z.div_mod_to_equations; lia).
  rewrite scan_cons, (step_backslash _ _ Hok He) by lia.
  rewrite scan_cons, step_digit1
    by (try apply isodigit_offset; simpl; lia).
  rewrite scan_cons, step_digit2
    by (try apply isodigit_offset; simpl; lia).
  rewrite scan_cons, step_digit3
    by (try apply isodigit_offset; simpl; lia).
  cbn [out inquote escape base cval set_escape].
  rewrite !accumulate_digit by lia.
  assert (to_char (to_char ((48 + b / 64 - 48) * 8 + (b / 8) mod 8) * 8
                   + b mod 8) = b) as ->; [|reflexivity].
  unfold to_char.
  replace ((48 + b / 64 - 48) * 8 + (b / 8) mod 8) with (b / 8)
    by (Z.div_mod_to_equations; lia).
  rewrite (Z.mod_small (b / 8)) by (Z.div_mod_to_equations; lia).
  replace (b / 8 * 8 + b mod 8) with b by (Z.div_mod_to_equations; lia).
  apply Z.mod_small. lia.
Qed.

Lemma octal_encode_cons b t :
  octal_encode (b :: t) = octal_escape b ++ octal_encode t.
Proof. reflexivity. Qed.

Lemma scan_octal_encode seps t : forall st,
  state_ok st -> escape st = 0 ->
  Forall (fun b => 0 < b < 256) t ->
  exists st',
    scan seps st (octal_encode t) = (st', [], AtEnd) /\
    out st' = out st ++ t /\ escape st' = 0 /\ inquote st' = inquote st.
Proof.
  induction t as [|b t IH]; intros st Hok He Ht.
  - exists st. simpl. rewrite app_nil_r. auto.
  - inversion Ht as [|? ? Hb Ht']; subst.
    rewrite octal_encode_cons, (scan_octal _ _ _ _ Hok He Hb).
    destruct (IH {| out := out st ++ [b]; inquote := inquote st;
                    escape := 0; base := 8; cval := b |})
      as (st' & H1 & H2 & H3 & H4); [|reflexivity|exact Ht'|].
    { destruct Hok as [Hq _]. split; simpl; [exact Hq|left; reflexivity]. }
    exists st'. rewrite H1, H2, H3, H4. simpl.
    rewrite <- app_assoc. auto.
Qed.

Lemma octal_encode_no_nul t :
  Forall (fun b => 0 < b < 256) t -> no_nul (octal_encode t).
Proof.
  induction 1 as [|b t Hb Ht IH]; [constructor|].
  rewrite octal_encode_cons. apply Forall_app. split; [|assumption].
  unfold octal_escape.
  repeat (apply Forall_cons_2; [Z.div_mod_to_equations; lia|]).
  apply Forall_nil_2.
Qed.

Lemma octal_encode_length t :
  length (octal_encode t) = (4 * length t)%nat.
Proof.
  induction t as [|b t IH]; [reflexivity|].
  rewrite octal_encode_cons, length_app, IH. simpl. lia.
Qed.

(** The octal spelling of a non-empty string is one token, the string. *)
Lemma tokenize_octal tok0 seps t :
  t <> [] -> Forall (fun b => 0 < b < 256) t ->
  is_sep_space BACKSLASH seps = false ->
  tokenize tok0 seps (octal_encode t) = Some (0, [t]).
Proof.
  intros Hne Ht Hs. rewrite tokenize_step. unfold gettok.
  destruct t as [|b t]; [contradiction|].
  destruct (scan_octal_encode seps (b :: t) init_state init_state_ok eq_refl Ht)
    as (st' & H1 & H2 & H3 & H4).
  rewrite octal_encode_cons in *. unfold octal_escape in *.
  cbn [app skip_spaces deref] in *. rewrite Hs. cbn [deref].
  rewrite H1, (end_flush_idle _ H3), H3, H4, H2. simpl.
  reflexivity.
Qed.

(** Inside a quotation a byte that is not the quote and not a backslash is
    copied. *)
Lemma step_quoted seps st c :
  escape st = 0 -> inquote st <> NUL ->
  c <> BACKSLASH -> c <> inquote st ->
  step seps st c = (emit c st, Next).
Proof.
  intros He Hq H1 H2. unfold step, process_char. rewrite He. simpl.
  destruct (Z.eqb_spec c (inquote st)); [contradiction|].
  destruct (Z.eqb_spec (inquote st) NUL); [contradiction|]. simpl.
  destruct (Z.eqb_spec c 92); [contradiction|]. reflexivity.
Qed.

Lemma scan_quoted seps t : forall st rest,
  escape st = 0 -> inquote st <> NUL -> quotable (inquote st) t ->
  scan seps st (t ++ rest)
  = scan seps {| out := out st ++ t; inquote := inquote st;
                 escape := escape st; base := base st; cval := cval st |}
         rest.
Proof.
  induction t as [|c t IH]; intros st rest He Hq Ht.
  - simpl. rewrite app_nil_r. destruct st; reflexivity.
  - inversion Ht as [|? ? (H0 & H1 & H2) Ht']; subst. cbn [app].
    rewrite scan_cons, step_quoted by assumption.
    rewrite IH by assumption. simpl. rewrite <- app_assoc. reflexivity.
Qed.

(** A string between two quotes is one token, the string. *)
Lemma gettok_quoted tok seps q t :
  q = SQUOTE \/ q = DQUOTE -> quotable q t ->
  is_sep_space q seps = false ->
  gettok (q :: t ++ [q]) tok seps = (0, [], Some t).
Proof.
  intros Hq Ht Hs. unfold gettok. cbn [skip_spaces]. rewrite Hs.
  cbn [deref].
  destruct (Z.eqb_spec q NUL) as [E|E]; [lia|].
  rewrite scan_cons by assumption.
  assert (step seps init_state q = (set_inquote q init_state, Next)) as ->.
  { unfold step, process_char. simpl.
    destruct (Z.eqb_spec q 0); [contradiction|].
    destruct Hq as [-> | ->]; reflexivity. }
  rewrite scan_quoted by (simpl; auto).
  rewrite scan_cons by assumption.
  unfold step, process_char. simpl. rewrite Z.eqb_refl. simpl.
  reflexivity.
Qed.

Lemma tokenize_quoted tok0 seps q t :
  q = SQUOTE \/ q = DQUOTE -> quotable q t ->
  is_sep_space q seps = false ->
  tokenize tok0 seps (q :: t ++ [q]) = Some (0, [t]).
Proof.
  intros Hq Ht Hs.
  rewrite tokenize_step, (gettok_quoted _ _ _ _ Hq Ht Hs). reflexivity.
Qed.

End EscapeFacts.

Module AppFacts.

Lemma skip_spaces_app s X seps :
  skip_spaces (s ++ X) seps
  = match skip_spaces s seps with
    | [] => skip_spaces X seps
    | t => t ++ X
    end.
Proof.
  induction s as [|c s IH]; simpl; [reflexivity|].
  destruct (is_sep_space c seps); [assumption|reflexivity].
Qed.

Lemma scan_app seps X p0 : forall st0,
  no_nul p0 ->
  scan seps st0 (p0 ++ X)
  = match scan seps st0 p0 with
    | (st, p, AtSep) => (st, p ++ X, AtSep)
    | (st, _, AtEnd) => scan seps st X
    end.
Proof.
  induction p0 as [|c p0 IH]; intros st0 Hn; [reflexivity|].
  inversion Hn as [|? ? Hc Hn']; subst. cbn [app].
  rewrite !scan_cons by assumption.
  destruct (step seps st0 c) as [st1 [|]]; [apply IH; assumption|reflexivity].
Qed.

Lemma scan_suffix seps p0 : forall st0 st p e,
  scan seps st0 p0 = (st, p, e) -> exists pre, p0 = pre ++ p.
Proof.
  induction p0 as [|c p0 IH]; simpl; intros st0 st p e H.
  - inversion H; subst. exists []. reflexivity.
  - destruct (c =? NUL).
    + inversion H; subst. exists []. reflexivity.
    + destruct (step seps st0 c) as [st1 [|]].
      * destruct (IH _ _ _ _ H) as [pre ->]. exists (c :: pre). reflexivity.
      * inversion H; subst. exists [c]. reflexivity.
Qed.

Lemma skip_spaces_suffix s seps : exists pre, s = pre ++ skip_spaces s seps.
Proof.
  induction s as [|c s [pre IH]]; simpl; [exists []; reflexivity|].
  destruct (is_sep_space c seps).
  - exists (c :: pre). simpl. congruence.
  - exists []. reflexivity.
Qed.

(** An ordinary separator after a token that could end there ends it,
    with what the flush at the end of the buffer would store. *)
Lemma step_sep_end seps st c :
  state_ok st -> unresolved st = false -> ordinary_sep seps c ->
  step seps st c = (end_flush st, Break).
Proof.
  intros Hok Hu (Hs & H1 & H2 & H3 & Hx).
  assert (isodigit c = false) as Ho.
  { destruct (isodigit c) eqn:E; [|reflexivity].
    apply DigitFacts.isodigit_isxdigit in E. congruence. }
  assert (c <> NUL) as Hc.
  { intros ->. unfold is_sep_space in Hs. simpl in Hs. discriminate. }
  unfold unresolved in Hu. bool_hyps.
  destruct (partial_digits st) eqn:Hp.
  - rewrite (end_flush_partial _ Hok Hp).
    destruct Hok as [_ He]. unfold partial_digits in Hp.
    unfold step, process_char. rewrite Hx, Ho, andb_false_r. simpl.
    rewrite H.
    destruct (Z.eqb_spec c 0); [contradiction|].
    destruct (Z.eqb_spec c 39); [contradiction|].
    destruct (Z.eqb_spec c 34); [contradiction|].
    destruct (Z.eqb_spec c 92); [contradiction|]. simpl. rewrite Hs.
    revert Hp. split_tests; simpl; intros; try discriminate;
      try reflexivity; lia.
  - rewrite (end_flush_other _ Hok Hp).
    assert (escape st = 0) as He.
    { destruct Hok as [_ He]. unfold partial_digits in Hp.
      revert Hp H0 H4. split_tests; simpl; intros; try discriminate; lia. }
    unfold step, process_char. rewrite He, H. simpl.
    destruct (Z.eqb_spec c 0); [contradiction|].
    destruct (Z.eqb_spec c 39); [contradiction|].
    destruct (Z.eqb_spec c 34); [contradiction|].
    destruct (Z.eqb_spec c 92); [contradiction|]. simpl. rewrite Hs.
    reflexivity.
Qed.

Lemma end_flush_twice st : state_ok st -> end_flush (end_flush st) = end_flush st.
Proof.
  intros Hok. destruct (partial_digits st) eqn:Hp.
  - rewrite (end_flush_partial _ Hok Hp). apply end_flush_idle. reflexivity.
  - rewrite (end_flush_other _ Hok Hp). apply end_flush_other; assumption.
Qed.

(** The token sequence of two inputs joined by an ordinary separator. *)
Lemma tokenize_app seps sep s2 e2 toks2 : forall s1 tok0 toks1,
  no_nul s1 -> ordinary_sep seps sep ->
  tokenize tok0 seps s1 = Some (0, toks1) ->
  tokenize tok0 seps s2 = Some (e2, toks2) ->
  tokenize tok0 seps (s1 ++ sep :: s2) = Some (e2, toks1 ++ toks2).
Proof.
  intros s1. remember (length s1) as n eqn:Hl. revert s1 Hl.
  induction n as [n IH] using lt_wf_ind.
  intros s1 -> tok0 toks1 Hn Hsep H1 H2.
  pose proof Hsep as (Hs & _).
  rewrite tokenize_step in H1. rewrite <- tokenize_skip.
  rewrite skip_spaces_app.
  unfold gettok in H1.
  destruct (skip_spaces_suffix s1 seps) as [pre Hpre].
  assert (no_nul (skip_spaces s1 seps)) as Hnt.
  { unfold no_nul in *. rewrite Hpre in Hn. apply Forall_app in Hn. tauto. }
  pose proof (skip_spaces_length s1 seps) as Hlen.
  pose proof (skip_spaces_stops s1 seps) as Hst.
  destruct (skip_spaces s1 seps) as [|c r] eqn:Et.
  - simpl in H1. inversion H1; subst. simpl. rewrite Hs.
    rewrite tokenize_skip. assumption.
  - inversion Hnt as [|? ? Hc _]; subst. cbn [deref] in H1.
    destruct (Z.eqb_spec c NUL); [contradiction|].
    destruct (scan seps init_state (c :: r)) as [[st p] ex] eqn:Hsc.
    pose proof (scan_ok _ _ _ _ _ _ init_state_ok Hsc) as Hok.
    rewrite (end_flush_test _ Hok) in H1.
    destruct (unresolved st) eqn:Hu; [destruct tok0; simpl in H1; discriminate|].
    simpl in H1.
    match type of H1 with
    | context [tokenize ?a seps p] =>
        destruct (tokenize a seps p) as [[e' toks']|] eqn:Htp;
          [|discriminate]
    end.
    inversion H1; subst e' toks1. clear H1.
    destruct (scan_suffix _ _ _ _ _ _ Hsc) as [pre' Hpre'].
    assert (no_nul p) as Hnp.
    { unfold no_nul in *. rewrite Hpre' in Hnt. apply Forall_app in Hnt.
      tauto. }
    pose proof (scan_length _ _ _ _ _ _ Hsc) as [_ Hlt].
    specialize (Hlt ltac:(simpl; assumption)).
    assert (skip_spaces ((c :: r) ++ sep :: s2) seps = (c :: r) ++ sep :: s2)
      as Hsk.
    { simpl in Hst. simpl. rewrite Hst. reflexivity. }
    rewrite tokenize_step. unfold gettok. rewrite Hsk.
    cbn [app deref]. destruct (Z.eqb_spec c NUL); [contradiction|].
    change (c :: r ++ sep :: s2) with ((c :: r) ++ sep :: s2).
    rewrite scan_app, Hsc by assumption.
    destruct ex.
    + (* the token ends at the end of [s1] *)
      apply scan_end in Hsc as Hd.
      assert (p = []) as ->.
      { destruct p as [|d p]; [reflexivity|].
        inversion Hnp; subst. simpl in Hd. contradiction. }
      assert (sep <> NUL) as Hz.
      { intros ->. unfold is_sep_space in Hs. simpl in Hs. discriminate. }
      rewrite scan_cons, (step_sep_end _ _ _ Hok Hu Hsep) by assumption.
      rewrite (end_flush_twice _ Hok), (end_flush_test _ Hok), Hu. simpl.
      rewrite tokenize_step in Htp. simpl in Htp. inversion Htp; subst.
      rewrite CallFacts.tokenize_uninit in H2.
      rewrite CallFacts.tokenize_uninit, H2. reflexivity.
    + (* the token ends at a separator inside [s1] *)
      rewrite (end_flush_test _ Hok), Hu. simpl.
      erewrite (IH (length p));
        [reflexivity|simpl in *; lia|reflexivity|assumption|assumption
        |exact Htp|].
      rewrite CallFacts.tokenize_uninit in H2.
      rewrite CallFacts.tokenize_uninit. assumption.
Qed.

End AppFacts.

(** ** Escaping with backslashes *)

Module QuoteFacts.

(** After a backslash, a byte that stands for itself is stored. *)
Lemma step_literal seps st c :
  escape st = 1 -> literal_after_backslash c ->
  step seps st c
  = ({| out := out st ++ [c]; inquote := inquote st; escape := 0;
        base := base st; cval := 0 |}, Next).
Proof.
  destruct st as [o q e b v]. simpl. intros -> (H1 & H2 & H3).
  unfold step. simpl. rewrite H1.
  destruct (Z.eqb_spec c 120); [contradiction|].
  unfold emit, set_escape. simpl. rewrite H3. reflexivity.
Qed.

Lemma special_literal seps c :
  seps_escapable seps -> special seps c = true -> literal_after_backslash c.
Proof.
  intros Hs H. unfold special in H.
  destruct (is_sep_space c seps) eqn:E; [auto|]. simpl in H.
  destruct (Z.eqb_spec c 92) as [->|]; [repeat split; discriminate|].
  destruct (Z.eqb_spec c 39) as [->|]; [repeat split; discriminate|].
  destruct (Z.eqb_spec c 34) as [->|]; [repeat split; discriminate|].
  discriminate.
Qed.

Lemma backslash_escape_cons seps c t :
  backslash_escape seps (c :: t)
  = (if special seps c then [BACKSLASH; c] else [c])
    ++ backslash_escape seps t.
Proof. reflexivity. Qed.

Lemma scan_backslash_escape seps t : forall st,
  no_nul t -> seps_escapable seps ->
  escape st = 0 -> inquote st = NUL ->
  exists st',
    scan seps st (backslash_escape seps t) = (st', [], AtEnd) /\
    out st' = out st ++ t /\ escape st' = 0 /\ inquote st' = NUL.
Proof.
  induction t as [|c t IH]; intros st Hn Hs He Hq.
  - exists st. simpl. rewrite app_nil_r. auto.
  - inversion Hn as [|? ? Hc Hn']; subst. rewrite backslash_escape_cons.
    destruct (special seps c) eqn:Esp; cbn [app].
    + assert (state_ok st) as Hok.
      { split; [left; assumption|left; assumption]. }
      rewrite scan_cons, (step_backslash _ _ Hok He) by lia.
      rewrite scan_cons by assumption.
      rewrite step_literal
        by (try reflexivity; eapply special_literal; eassumption).
      edestruct (IH {| out := out (set_escape 1 st) ++ [c];
                       inquote := inquote (set_escape 1 st); escape := 0;
                       base := base (set_escape 1 st); cval := 0 |})
        as (st' & H1 & H2 & H3 & H4); try assumption; try reflexivity.
      exists st'. rewrite H1, H2. simpl. rewrite <- app_assoc. auto.
    + unfold special in Esp. bool_hyps.
      rewrite scan_cons by assumption.
      rewrite step_plain by auto. rewrite H.
      destruct (IH (emit c st)) as (st' & G1 & G2 & G3 & G4); auto.
      exists st'. rewrite G1, G2. simpl. rewrite <- app_assoc. auto.
Qed.

Lemma backslash_escape_no_nul seps t :
  no_nul t -> no_nul (backslash_escape seps t).
Proof.
  induction 1 as [|c t Hc Ht IH]; [constructor|].
  rewrite backslash_escape_cons.
  destruct (special seps c); repeat constructor; auto; lia.
Qed.

(** A non-empty string with its special bytes escaped is one token, the
    string. *)
Lemma tokenize_backslash_escape tok0 seps t :
  t <> [] -> no_nul t -> seps_escapable seps ->
  is_sep_space BACKSLASH seps = false ->
  tokenize tok0 seps (backslash_escape seps t) = Some (0, [t]).
Proof.
  intros Hne Hn Hs Hb. rewrite tokenize_step. unfold gettok.
  destruct (scan_backslash_escape seps t init_state Hn Hs eq_refl eq_refl)
    as (st' & H1 & H2 & H3 & H4).
  assert (skip_spaces (backslash_escape seps t) seps
          = backslash_escape seps t /\
          deref (backslash_escape seps t) <> NUL) as [-> Hd].
  { destruct t as [|c t]; [contradiction|].
    inversion Hn; subst. rewrite backslash_escape_cons.
    destruct (special seps c) eqn:Esp; cbn [app skip_spaces deref].
    - rewrite Hb. split; [reflexivity|lia].
    - unfold special in Esp. bool_hyps. rewrite H. auto. }
  destruct (Z.eqb_spec (deref (backslash_escape seps t)) NUL);
    [contradiction|].
  rewrite H1, (end_flush_idle _ H3), H3, H4, H2. simpl. reflexivity.
Qed.

End QuoteFacts.

(** * Further statements *)

(** ** Statements about [cmpstrval], [strisallzero] and [scan_int] *)

(** X1.  [cmpstrval(s, prefix, &end)], for a prefix of at most [INT_MAX]
    bytes: when [s] starts with [prefix] it returns 1 and sets [*end] to
    the length of the prefix, and otherwise it returns 0 and leaves
    [*end] as it was.  The empty prefix always matches. *)
Theorem X1_cmpstrval_tests_prefix (s prefix : list Z) (e : Z) :
  Z.of_nat (length (c_str prefix)) <= INT_MAX ->
  (c_str prefix `prefix_of` c_str s ->
   cmpstrval s prefix e = Some (1, Z.of_nat (length (c_str prefix))))
  /\ (~ c_str prefix `prefix_of` c_str s ->
      cmpstrval s prefix e = Some (0, e)).
Proof.
  intros Hl. unfold cmpstrval.
  pose proof (UtilFacts.strncmp_prefix prefix s) as Hp.
  rewrite UtilFacts.strlen_c_str in *.
  destruct (Z.ltb_spec INT_MAX (Z.of_nat (length (c_str prefix)))); [lia|].
  destruct (Z.eqb_spec
              (strncmp s prefix (Z.of_nat (length (c_str prefix)))) 0)
    as [E|E]; simpl; split; intros H1; try reflexivity; tauto.
Qed.

Lemma X1_witness :
  (c_str [98; 61] `prefix_of` c_str [98; 61; 57] ->
   cmpstrval [98; 61; 57] [98; 61] 7
   = Some (1, Z.of_nat (length (c_str [98; 61]))))
  /\ (~ c_str [98; 61] `prefix_of` c_str [98; 61; 57] ->
      cmpstrval [98; 61; 57] [98; 61] 7 = Some (0, 7)).
Proof.
  apply (X1_cmpstrval_tests_prefix [98; 61; 57] [98; 61] 7).
  vm_compute. discriminate.
Defined.

(** X2.  [strisallzero] returns 1 exactly for the non-empty strings made
    of the character 0 only, and 0 for every other string, the empty
    string included. *)
Theorem X2_strisallzero_accepts_zeros_only (str : list Z) :
  (strisallzero str = 1
   <-> c_str str <> [] /\ Forall (eq CH_0) (c_str str))
  /\ (strisallzero str = 1 \/ strisallzero str = 0).
Proof.
  rewrite UtilFacts.strisallzero_spec.
  case_decide; split; auto; split; intros; [tauto|reflexivity|discriminate|tauto].
Qed.

(** X3.  As long as [scan_int] stays within [int], that is when the
    digits the string starts with denote a number of at most [INT_MAX]:
    it returns a number that is not negative exactly when the string is a
    non-empty string of decimal digits, and then it returns the number
    the string denotes; leading zeros are allowed.  What it returns is
    then -1 or a number from 0 to [INT_MAX]. *)
Theorem X3_scan_int_reads_a_decimal_numeral (s : list Z) (n : Z) :
  fits_int s ->
  ((scan_int s = Some n /\ 0 <= n)
   <-> (c_str s <> [] /\
        Forall (fun c => isdigit c = true) (c_str s) /\
        decimal (c_str s) = n))
  /\ (scan_int s = Some n -> -1 <= n <= INT_MAX).
Proof.
  intros Hf.
  destruct (UtilFacts.digit_run_split (c_str s)) as (rest & Hs & Hd & Hr).
  rewrite (UtilFacts.scan_int_fits s rest Hf Hs).
  pose proof (UtilFacts.decimal_from_ge _ 0 ltac:(lia) Hd) as Hge.
  fold (decimal (digit_run (c_str s))) in Hge.
  unfold fits_int in Hf.
  case_decide as Hn.
  { split; [split; [intros [H ?]; inversion H; lia|tauto]|].
    intros H. inversion H. unfold INT_MAX. lia. }
  destruct Hr as [->|(c & r & -> & Hc)].
  - rewrite app_nil_r in Hs. rewrite <- Hs in *. split.
    + split; [intros [H ?]; inversion H; auto|].
      intros (_ & _ & <-). auto.
    + intros H. inversion H. lia.
  - split.
    + split; [intros [H ?]; inversion H; lia|].
      intros (_ & Hall & _). exfalso.
      rewrite Hs in Hall. apply Forall_app in Hall. destruct Hall as [_ Hall].
      inversion Hall; congruence.
    + intros H. inversion H. unfold INT_MAX. lia.
Qed.

Lemma X3_witness :
  ((scan_int [57; 54; 48; 48] = Some 9600 /\ 0 <= 9600)
   <-> (c_str [57; 54; 48; 48] <> [] /\
        Forall (fun c => isdigit c = true) (c_str [57; 54; 48; 48]) /\
        decimal (c_str [57; 54; 48; 48]) = 9600))
  /\ (scan_int [57; 54; 48; 48] = Some 9600 -> -1 <= 9600 <= INT_MAX).
Proof.
  apply (X3_scan_int_reads_a_decimal_numeral [57; 54; 48; 48] 9600).
  vm_compute. discriminate.
Defined.

(** X4.  As long as [scan_int] stays within [int], that is when the
    digits the string starts with denote a number of at most [INT_MAX]:
    it returns -1 exactly when the string is empty or holds a byte that
    is no decimal digit. *)
Theorem X4_scan_int_rejects_non_numerals (s : list Z) :
  fits_int s ->
  (scan_int s = Some (-1)
   <-> (c_str s = []
        \/ Exists (fun c => isdigit c = false) (c_str s))).
Proof.
  intros Hf.
  destruct (UtilFacts.digit_run_split (c_str s)) as (rest & Hs & Hd & Hr).
  rewrite (UtilFacts.scan_int_fits s rest Hf Hs).
  pose proof (UtilFacts.decimal_from_ge _ 0 ltac:(lia) Hd) as Hge.
  fold (decimal (digit_run (c_str s))) in Hge.
  case_decide as Hn; [tauto|].
  destruct Hr as [->|(c & r & -> & Hc)].
  - rewrite app_nil_r in Hs. rewrite <- Hs in *.
    split; [intros H; inversion H; lia|].
    intros [H|H]; [contradiction|]. exfalso.
    apply Exists_exists in H. destruct H as (c & Hin & Hc).
    rewrite Forall_forall in Hd. rewrite (Hd c Hin) in Hc. discriminate.
  - split; [intros _|reflexivity]. right. rewrite Hs.
    apply Exists_app. right. apply Exists_cons_hd. assumption.
Qed.

Lemma X4_witness :
  scan_int [57; 120] = Some (-1)
  <-> (c_str [57; 120] = []
       \/ Exists (fun c => isdigit c = false) (c_str [57; 120])).
Proof.
  apply (X4_scan_int_rejects_non_numerals [57; 120]).
  vm_compute. discriminate.
Defined.

(** X5.  [scan_int] has no overflow check: the signed arithmetic
    [rv * 10 + digit] overflows, which is undefined behaviour, exactly
    when the string starts with digits that denote more than
    [INT_MAX]. *)
Theorem X5_scan_int_overflows_past_INT_MAX (s : list Z) :
  scan_int s = None
  <-> exists ds rest,
        c_str s = ds ++ rest /\
        Forall (fun d => isdigit d = true) ds /\ INT_MAX < decimal ds.
Proof.
  split.
  - destruct (UtilFacts.leading_digits (c_str s))
      as (ds & rest & Hs & Hd & Hr).
    rewrite (UtilFacts.scan_int_cases s ds rest Hs Hd Hr).
    case_decide as Hn; [discriminate|].
    destruct (Z.ltb_spec INT_MAX (decimal ds)) as [Ho|Ho].
    + intros _. exists ds, rest. auto.
    + destruct rest; discriminate.
  - intros (ds & rest & Hs & Hd & Ho). unfold scan_int.
    destruct (Z.eqb_spec (deref s) NUL) as [E|E].
    + apply UtilFacts.deref_c_str in E. rewrite E in Hs.
      symmetry in Hs. apply app_eq_nil in Hs. destruct Hs as [-> _].
      vm_compute in Ho. discriminate.
    + rewrite UtilFacts.scan_int_loop_c_str, Hs,
        UtilFacts.scan_int_loop_digits by (auto; lia).
      fold (decimal ds).
      destruct (Z.leb_spec (decimal ds) INT_MAX); [lia|reflexivity].
Qed.

(** X6.  [scan_int] and [strisallzero] on zero: for every string for
    which [strisallzero] returns 1, [scan_int] returns 0; and as long as
    [scan_int] stays within [int], that is when the digits the string
    starts with denote a number of at most [INT_MAX], [scan_int] returns
    0 for no other string. *)
Theorem X6_scan_int_zero_iff_strisallzero (s : list Z) :
  (strisallzero s = 1 -> scan_int s = Some 0)
  /\ (fits_int s -> scan_int s = Some 0 -> strisallzero s = 1).
Proof.
  rewrite UtilFacts.strisallzero_spec.
  pose proof (UtilFacts.scan_int_value s 0) as Hv.
  case_decide as H; split.
  - intros _. destruct H as [Hn Hz].
    apply Hv. split_and!; auto.
    + eapply Forall_impl; [exact Hz|]. intros c <-. reflexivity.
    + apply UtilFacts.decimal_from_zero; auto; [lia|].
      eapply Forall_impl; [exact Hz|]. intros c <-. reflexivity.
    + vm_compute. discriminate.
  - reflexivity.
  - discriminate.
  - intros Hf Hs. exfalso. apply H.
    destruct (UtilFacts.digit_run_split (c_str s)) as (rest & Hr & Hd & Hc).
    rewrite (UtilFacts.scan_int_fits s rest Hf Hr) in Hs.
    case_decide as Hn; [discriminate|].
    destruct Hc as [->|(c & r & -> & _)]; [|discriminate].
    rewrite app_nil_r in Hr. rewrite <- Hr in *. inversion Hs as [Hz].
    split; [assumption|].
    apply (UtilFacts.decimal_from_zero (c_str s) 0 (Z.le_refl 0) Hd).
    assumption.
Qed.

(** ** Statements about [write_ignore_fail] *)

(** X7.  [write_ignore_fail], for [count] bytes that are there: it
    returns after at most [count + 1] calls of [write]; what the
    descriptor has taken is the first [k] bytes of the data, in order,
    for some [k] of at most [count]; and when [k] is less than [count],
    the last call of [write] failed or took nothing, which ends the loop
    without an error being reported. *)
Theorem X7_write_ignore_fail_sends_a_prefix
    (data : list Z) (count : Z) (ch : Io.channel) :
  0 <= count <= Z.of_nat (length data) ->
  exists ch' k,
    Io.write_ignore_fail data count ch = Some ch' /\
    0 <= k <= count /\
    Io.sent ch' = Io.sent ch ++ take (Z.to_nat k) data /\
    Z.of_nat (Io.calls ch') <= Z.of_nat (Io.calls ch) + count + 1 /\
    (k < count ->
     Io.answers ch (pred (Io.calls ch')) = Io.Fails
     \/ Io.answers ch (pred (Io.calls ch')) = Io.Takes 0).
Proof.
  intros Hc. unfold Io.write_ignore_fail.
  destruct (IoFacts.write_loop_spec (S (Z.to_nat count)) data count ch Hc)
    as (ch' & k & H1 & H2 & H3 & _ & _ & H4 & H5); [lia|].
  exists ch', k. split_and!; auto; lia.
Qed.

Lemma X7_witness :
  exists ch' k,
    Io.write_ignore_fail [1; 2; 3; 4; 5] 5 fails_after_two = Some ch' /\
    0 <= k <= 5 /\
    Io.sent ch' = Io.sent fails_after_two ++ take (Z.to_nat k) [1; 2; 3; 4; 5]
    /\
    Z.of_nat (Io.calls ch') <= Z.of_nat (Io.calls fails_after_two) + 5 + 1 /\
    (k < 5 ->
     Io.answers fails_after_two (pred (Io.calls ch')) = Io.Fails
     \/ Io.answers fails_after_two (pred (Io.calls ch')) = Io.Takes 0).
Proof.
  apply (X7_write_ignore_fail_sends_a_prefix [1; 2; 3; 4; 5] 5
           fails_after_two).
  simpl. lia.
Defined.

(** X8.  When the descriptor takes at least one byte at every call,
    [write_ignore_fail] delivers all [count] bytes, in order, however
    they are split over the calls. *)
Theorem X8_write_ignore_fail_completes_short_writes
    (data : list Z) (count : Z) (ch : Io.channel) :
  0 <= count <= Z.of_nat (length data) ->
  always_takes ch ->
  exists ch',
    Io.write_ignore_fail data count ch = Some ch' /\
    Io.sent ch' = Io.sent ch ++ take (Z.to_nat count) data.
Proof.
  intros Hc Ha. unfold Io.write_ignore_fail.
  destruct (IoFacts.write_loop_spec (S (Z.to_nat count)) data count ch Hc)
    as (ch' & k & H1 & H2 & H3 & _ & _ & _ & H5); [lia|].
  exists ch'. split; [assumption|].
  destruct (Z.eq_dec k count) as [->|Hk]; [assumption|].
  exfalso. destruct (Ha (pred (Io.calls ch'))) as [m Hm].
  destruct H5 as [H5|H5]; [lia| |]; rewrite Hm in H5; discriminate.
Qed.

Lemma X8_witness :
  exists ch',
    Io.write_ignore_fail [1; 2; 3; 4; 5] 5 three_at_a_time = Some ch' /\
    Io.sent ch'
    = Io.sent three_at_a_time ++ take (Z.to_nat 5) [1; 2; 3; 4; 5].
Proof.
  apply (X8_write_ignore_fail_completes_short_writes [1; 2; 3; 4; 5] 5
           three_at_a_time).
  - simpl. lia.
  - intros n. exists 2%nat. reflexivity.
Defined.

(** ** Statements about [str_to_argv] and [str_to_argv_free] *)

(** X9.  After a successful call of [str_to_argv], the call
    [str_to_argv_free( *r_argc, *r_argv)] releases the array and the
    working buffer: the allocated blocks are again those of before the
    call of [str_to_argv]. *)
Theorem X9_free_undoes_a_successful_call
    (tok0 : option token) (ins : list Z) (seps : option (list Z))
    (w w' : world) :
  Z.of_nat (length ins) <= INT_MAX ->
  str_to_argv tok0 ins seps w = Returns 0 w' ->
  exists w'',
    str_to_argv_free (out_argc w') (out_argv w') w' = Returns tt w'' /\
    heap w'' = heap w.
Proof. apply str_to_argv_free_releases. Qed.

Lemma X9_witness :
  exists w'',
    str_to_argv_free (out_argc after_escaped_space)
      (out_argv after_escaped_space) after_escaped_space = Returns tt w'' /\
    heap w'' = heap fresh_world.
Proof.
  apply (X9_free_undoes_a_successful_call None [97; 92; 32; 98] None
           fresh_world after_escaped_space).
  - vm_compute. discriminate.
  - vm_compute. reflexivity.
Defined.

(** X10.  On an input of at most [INT_MAX] bytes [str_to_argv] returns,
    whichever requests for memory fail and whatever the separators are:
    no store falls outside the array, also when the array has to grow, no
    block is released twice, and the loop ends. *)
Theorem X10_str_to_argv_is_memory_safe
    (tok0 : option token) (ins : list Z) (seps : option (list Z))
    (w : world) :
  Z.of_nat (length ins) <= INT_MAX ->
  exists err w', str_to_argv tok0 ins seps w = Returns err w'.
Proof. apply str_to_argv_returns. Qed.

Lemma X10_witness :
  exists err w',
    str_to_argv None [97; 32; 98] None second_request_fails
    = Returns err w'.
Proof.
  apply (X10_str_to_argv_is_memory_safe None [97; 32; 98] None
           second_request_fails).
  vm_compute. discriminate.
Defined.

(** X11.  What a successful call on an input of at most [INT_MAX] bytes
    hands out: [*r_argc] is the number of tokens, [*r_argv] is a new
    array that holds the tokens in order, however many there are, then
    the null pointer at the index [*r_argc], then at the index
    [*r_argc + 1] the pointer to the new working buffer, which stays
    allocated. *)
Theorem X11_argv_is_null_terminated
    (tok0 : option token) (ins : list Z) (seps : option (list Z))
    (w w' : world) :
  Z.of_nat (length ins) <= INT_MAX ->
  str_to_argv tok0 ins seps w = Returns 0 w' ->
  exists toks argv orig_s sl,
    tokenize tok0 (seps_of seps) (c_str ins) = Some (0, toks) /\
    out_argc w' = Z.of_nat (length toks) /\
    out_argv w' = Some argv /\
    heap w' !! argv = Some (Array sl) /\
    take (length toks) sl = map TokPtr toks /\
    sl !! length toks = Some Null /\
    sl !! S (length toks) = Some (BufPtr orig_s) /\
    heap w' !! orig_s = Some StrBuf /\
    heap w !! argv = None /\ heap w !! orig_s = None.
Proof.
  intros Hlen Hr.
  destruct (tokenize_total tok0 (seps_of seps) (c_str ins))
    as (e & toks & Htok).
  pose proof (str_to_argv_run tok0 ins seps w e toks Hlen Htok) as P.
  rewrite Hr in P. simpl in P.
  destruct P as [(E & _)|[(<- & ? & _)|P]];
    [unfold ENOMEM in E; discriminate|congruence|].
  destruct P as (_ & -> & Hc & a & b & rest & Hv & Ha & Hb & Hab & Hh).
  exists toks, a, b, (map TokPtr toks ++ [Null; BufPtr b] ++ rest).
  rewrite Hh, lookup_insert_eq.
  rewrite lookup_insert_ne, lookup_insert_eq by congruence.
  split_and!; auto.
  - rewrite <- (length_map TokPtr toks) at 1. apply take_app_length.
  - rewrite lookup_app_r by (rewrite length_map; lia).
    rewrite length_map, Nat.sub_diag. reflexivity.
  - rewrite lookup_app_r by (rewrite length_map; lia).
    rewrite length_map.
    replace (S (length toks) - length toks)%nat with 1%nat by lia.
    reflexivity.
Qed.

Lemma X11_witness :
  exists toks argv orig_s sl,
    tokenize None (seps_of None) (c_str [97; 92; 32; 98]) = Some (0, toks) /\
    out_argc after_escaped_space = Z.of_nat (length toks) /\
    out_argv after_escaped_space = Some argv /\
    heap after_escaped_space !! argv = Some (Array sl) /\
    take (length toks) sl = map TokPtr toks /\
    sl !! length toks = Some Null /\
    sl !! S (length toks) = Some (BufPtr orig_s) /\
    heap after_escaped_space !! orig_s = Some StrBuf /\
    heap fresh_world !! argv = None /\ heap fresh_world !! orig_s = None.
Proof.
  apply (X11_argv_is_null_terminated None [97; 92; 32; 98] None
           fresh_world after_escaped_space).
  - vm_compute. discriminate.
  - vm_compute. reflexivity.
Defined.

(** X12.  [str_to_argv] returns [ENOMEM] only when a request for memory
    failed, for inputs of any length; and it does return [ENOMEM], with
    the allocated blocks as they were before the call, when the request
    of [strdup] or the first request for the array fails. *)
Theorem X12_ENOMEM_means_a_failed_request
    (tok0 : option token) (ins : list Z) (seps : option (list Z))
    (w : world) :
  (forall w', str_to_argv tok0 ins seps w = Returns ENOMEM w' ->
              exists n, alloc_ok w n = false)
  /\ (alloc_ok w (requests w) = false
      \/ alloc_ok w (S (requests w)) = false ->
      exists w', str_to_argv tok0 ins seps w = Returns ENOMEM w' /\
                 heap w' = heap w).
Proof.
  split.
  - intros w' Hr.
    destruct (tokenize_total tok0 (seps_of seps) (c_str ins))
      as (e & toks & Htok).
    pose proof (str_to_argv_released tok0 ins seps w e toks Htok) as P.
    rewrite Hr in P. simpl in P. destruct P as ([[_ H]|H] & _); [assumption|].
    destruct (tokenize_code _ _ _ _ _ Htok) as [-> | ->];
      unfold ENOMEM in H; discriminate.
  - intros H. unfold str_to_argv, strdup, malloc_array.
    unfold bind at 1.
    destruct (MemFacts.alloc_cases StrBuf w)
      as [(Hok & b & Hb & ->)|(Hok & ->)].
    2:{ eexists. split; reflexivity. }
    destruct H as [H|H]; [congruence|].
    unfold bind at 1. unfold alloc at 1. simpl. rewrite H.
    unfold bind. unfold free. simpl. rewrite lookup_insert_eq.
    eexists. split; [reflexivity|]. simpl.
    rewrite delete_insert_id by assumption. reflexivity.
Qed.

(** X13.  The local [tok] of [str_to_argv] is not initialized, and
    [gettok] leaves it alone when it fails; the loop test reads it all
    the same.  Whatever it holds, the call does the same. *)
Theorem X13_uninitialized_tok_is_harmless
    (tok0 : option token) (ins : list Z) (seps : option (list Z))
    (w : world) :
  str_to_argv tok0 ins seps w = str_to_argv None ins seps w.
Proof. apply str_to_argv_uninit. Qed.

(** X14.  [gettok] rewrites the buffer it reads, in place.  Run on the
    buffer itself, the calls that [str_to_argv] makes return the same
    code and as many tokens as the tokenizer on the bytes still to be
    read; the buffer keeps its length; and in the buffer as the last
    call leaves it, every token stands at the position handed out for
    it, followed by a 0 byte: no later store has touched an earlier
    token. *)
Theorem X14_tokens_stay_intact_in_the_buffer
    (seps b : list Z) (tok0 : option nat) :
  exists e toks offs bfin,
    tokenize None seps b = Some (e, toks) /\
    InPlace.tokenize tok0 seps b = Some (e, offs, bfin) /\
    length bfin = length b /\
    Forall2 (InPlace.string_at bfin) offs toks.
Proof.
  destruct (tokenize_total None seps b) as (e & toks & Ht).
  destruct (InPlaceFacts.tokenize_sim seps b tok0 None e toks Ht)
    as (offs & bfin & H1 & H2 & H3).
  exists e, toks, offs, bfin. auto.
Qed.

(** X15.  An input that is empty or holds separators only is no error:
    with enough memory the call succeeds with [*r_argc = 0] and no
    token. *)
Theorem X15_blank_input_gives_no_token
    (tok0 : option token) (ins : list Z) (seps : option (list Z))
    (w : world) :
  Forall (fun c => is_sep_space c (seps_of seps) = true) (c_str ins) ->
  Z.of_nat (length ins) <= INT_MAX ->
  (forall n, alloc_ok w n = true) ->
  exists w',
    str_to_argv tok0 ins seps w = Returns 0 w' /\
    out_argc w' = 0 /\ result_slots w' = Some [].
Proof.
  intros Hb Hlen Hok.
  apply (str_to_argv_success tok0 ins seps w [] Hlen Hok).
  apply tokenize_blank. assumption.
Qed.

Lemma X15_witness :
  exists w',
    str_to_argv None [32; 9; 32] None fresh_world = Returns 0 w' /\
    out_argc w' = 0 /\ result_slots w' = Some [].
Proof.
  apply (X15_blank_input_gives_no_token None [32; 9; 32] None fresh_world).
  - repeat constructor.
  - vm_compute. discriminate.
  - intros n. reflexivity.
Defined.

(** X16.  On an input with no quote and no backslash, the tokens are the
    maximal runs of bytes that are no separators, in order: with enough
    memory the call succeeds and hands out exactly these. *)
Theorem X16_plain_input_splits_into_fields
    (tok0 : option token) (ins : list Z) (seps : option (list Z))
    (w : world) :
  plain_input (c_str ins) ->
  Z.of_nat (length ins) <= INT_MAX ->
  (forall n, alloc_ok w n = true) ->
  exists w',
    str_to_argv tok0 ins seps w = Returns 0 w' /\
    out_argc w' = Z.of_nat (length (fields (seps_of seps) (c_str ins))) /\
    result_slots w'
    = Some (map TokPtr (fields (seps_of seps) (c_str ins))).
Proof.
  intros Hp Hlen Hok.
  apply (str_to_argv_success tok0 ins seps w _ Hlen Hok).
  apply tokenize_fields; [assumption|apply UtilFacts.c_str_no_nul].
Qed.

Lemma X16_witness :
  exists w',
    str_to_argv None [32; 97; 98; 32; 32; 99] None fresh_world
    = Returns 0 w' /\
    out_argc w'
    = Z.of_nat (length (fields (seps_of None)
                               (c_str [32; 97; 98; 32; 32; 99]))) /\
    result_slots w'
    = Some (map TokPtr (fields (seps_of None)
                               (c_str [32; 97; 98; 32; 32; 99]))).
Proof.
  apply (X16_plain_input_splits_into_fields None [32; 97; 98; 32; 32; 99]
           None fresh_world).
  - repeat constructor; discriminate.
  - vm_compute. discriminate.
  - intros n. reflexivity.
Defined.

(** X17.  Every non-empty string of bytes other than 0 can be passed as
    one token: written with each byte as a backslash and three octal
    digits, and with a separator set that does not hold the backslash,
    the call succeeds with that string as its only token. *)
Theorem X17_octal_spelling_round_trip
    (tok0 : option token) (t : list Z) (seps : option (list Z))
    (w : world) :
  t <> [] ->
  Forall (fun b => 0 < b < 256) t ->
  is_sep_space BACKSLASH (seps_of seps) = false ->
  Z.of_nat (length (octal_encode t)) <= INT_MAX ->
  (forall n, alloc_ok w n = true) ->
  exists w',
    str_to_argv tok0 (octal_encode t) seps w = Returns 0 w' /\
    out_argc w' = 1 /\ result_slots w' = Some [TokPtr t].
Proof.
  intros Hne Ht Hs Hlen Hok.
  apply (str_to_argv_success tok0 _ seps w [t] Hlen Hok).
  rewrite c_str_id by (apply EscapeFacts.octal_encode_no_nul; assumption).
  apply EscapeFacts.tokenize_octal; assumption.
Qed.

Lemma X17_witness :
  exists w',
    str_to_argv None (octal_encode [32; 255; 1]) None fresh_world
    = Returns 0 w' /\
    out_argc w' = 1 /\ result_slots w' = Some [TokPtr [32; 255; 1]].
Proof.
  apply (X17_octal_spelling_round_trip None [32; 255; 1] None fresh_world).
  - discriminate.
  - repeat constructor; lia.
  - reflexivity.
  - vm_compute. discriminate.
  - intros n. reflexivity.
Defined.

(** X18.  A string without 0 bytes, backslashes and the quote character
    itself, put between two single or two double quotes, is one token,
    the string as it is, separators included; the empty string gives an
    empty token.  The quote must not be a separator. *)
Theorem X18_quotation_round_trip
    (tok0 : option token) (q : Z) (t : list Z) (seps : option (list Z))
    (w : world) :
  q = SQUOTE \/ q = DQUOTE ->
  quotable q t ->
  is_sep_space q (seps_of seps) = false ->
  Z.of_nat (length (q :: t ++ [q])) <= INT_MAX ->
  (forall n, alloc_ok w n = true) ->
  exists w',
    str_to_argv tok0 (q :: t ++ [q]) seps w = Returns 0 w' /\
    out_argc w' = 1 /\ result_slots w' = Some [TokPtr t].
Proof.
  intros Hq Ht Hs Hlen Hok.
  apply (str_to_argv_success tok0 _ seps w [t] Hlen Hok).
  rewrite c_str_id.
  - apply EscapeFacts.tokenize_quoted; assumption.
  - constructor; [lia|]. apply Forall_app. split.
    + eapply Forall_impl; [exact Ht|]. simpl. tauto.
    + constructor; [lia|constructor].
Qed.

Lemma X18_witness :
  exists w',
    str_to_argv None (39 :: [97; 32; 34; 98] ++ [39]) None fresh_world
    = Returns 0 w' /\
    out_argc w' = 1 /\ result_slots w' = Some [TokPtr [97; 32; 34; 98]].
Proof.
  apply (X18_quotation_round_trip None 39 [97; 32; 34; 98] None fresh_world).
  - left. reflexivity.
  - repeat constructor; discriminate.
  - reflexivity.
  - vm_compute. discriminate.
  - intros n. reflexivity.
Defined.

(** X19.  Tokenizing composes at a separator: when the calls on [s1] and
    on [s2] succeed, the call on [s1], a separator that is no quote, no
    backslash and no hexadecimal digit, and [s2] succeeds with the tokens
    of [s1] followed by the tokens of [s2].  A token of [s1] that ends
    with an unfinished octal or hexadecimal escape is the same in
    both. *)
Theorem X19_tokens_compose_at_a_separator
    (tok0 : option token) (s1 s2 : list Z) (sep : Z)
    (seps : option (list Z)) (w w1 w2 : world) (sl1 sl2 : list slot) :
  no_nul s1 ->
  ordinary_sep (seps_of seps) sep ->
  Z.of_nat (length (s1 ++ sep :: s2)) <= INT_MAX ->
  (forall n, alloc_ok w n = true) ->
  str_to_argv tok0 s1 seps w = Returns 0 w1 ->
  result_slots w1 = Some sl1 ->
  str_to_argv tok0 s2 seps w = Returns 0 w2 ->
  result_slots w2 = Some sl2 ->
  exists w',
    str_to_argv tok0 (s1 ++ sep :: s2) seps w = Returns 0 w' /\
    out_argc w' = Z.of_nat (length (sl1 ++ sl2)) /\
    result_slots w' = Some (sl1 ++ sl2).
Proof.
  intros Hn Hsep Hlen Hok Hr1 Hs1 Hr2 Hs2.
  rewrite length_app in Hlen. simpl in Hlen.
  destruct (str_to_argv_result tok0 s1 seps w w1 ltac:(lia) Hr1)
    as (toks1 & Ht1 & _ & Hsl1).
  destruct (str_to_argv_result tok0 s2 seps w w2 ltac:(lia) Hr2)
    as (toks2 & Ht2 & _ & Hsl2).
  rewrite Hsl1 in Hs1. rewrite Hsl2 in Hs2.
  inversion Hs1; inversion Hs2; subst sl1 sl2.
  rewrite <- map_app, length_map.
  apply str_to_argv_success;
    [rewrite length_app; simpl; lia|assumption|].
  assert (c_str (s1 ++ sep :: s2) = s1 ++ sep :: c_str s2) as ->.
  { destruct Hsep as (Hs & _).
    assert (sep <> NUL) as Hz.
    { intros ->. unfold is_sep_space in Hs. simpl in Hs. discriminate. }
    clear - Hn Hz. induction Hn as [|c s Hc Hs IH]; simpl.
    - destruct (Z.eqb_spec sep NUL); [contradiction|reflexivity].
    - destruct (Z.eqb_spec c NUL); [contradiction|]. rewrite IH.
      reflexivity. }
  rewrite (c_str_id s1 Hn) in Ht1.
  apply (AppFacts.tokenize_app _ _ _ _ _ _ _ _ Hn Hsep Ht1 Ht2).
Qed.

Lemma X19_witness :
  exists w',
    str_to_argv None ([97] ++ 32 :: [98]) None fresh_world = Returns 0 w' /\
    out_argc w' = Z.of_nat (length ([TokPtr [97]] ++ [TokPtr [98]])) /\
    result_slots w' = Some ([TokPtr [97]] ++ [TokPtr [98]]).
Proof.
  apply (X19_tokens_compose_at_a_separator None [97] [98] 32 None
           fresh_world (after_one_token [97]) (after_one_token [98])
           [TokPtr [97]] [TokPtr [98]]).
  - repeat constructor; discriminate.
  - repeat split; try discriminate; reflexivity.
  - vm_compute. discriminate.
  - intros n. reflexivity.
  - vm_compute. reflexivity.
  - vm_compute. reflexivity.
  - vm_compute. reflexivity.
  - vm_compute. reflexivity.
Defined.

(** ** Statements about the baud rate tables *)

(** X20.  From a speed code to its rate and back: when
    [get_rate_from_baud_rate] finds a rate for a speed code,
    [get_baud_rate] on that rate returns 1 and stores the same speed
    code, whatever values the system gives the speed codes and whichever
    of the codes under [#ifdef] it defines. *)
Theorem X20_speed_code_round_trip (T : Baud.termios_h) (v x : Z) :
  Baud.get_rate_from_baud_rate T v <> 0 ->
  Baud.get_baud_rate T (Baud.get_rate_from_baud_rate T v) (Some x)
  = (1, Some v).
Proof.
  intros Hr. unfold Baud.get_rate_from_baud_rate, Baud.get_baud_rate in *.
  destruct (BaudFacts.by_code (Baud.baud_rates T) v)
    as [(e & H1 & H2 & H3 & _)|(_ & H2 & _)]; [|congruence].
  rewrite H3, <- H2.
  apply BaudFacts.by_rate_entry; [apply BaudFacts.baud_rates_NoDup|assumption].
Qed.

Lemma X20_witness :
  Baud.get_baud_rate linux (Baud.get_rate_from_baud_rate linux 13) (Some 0)
  = (1, Some 13).
Proof.
  apply (X20_speed_code_round_trip linux 13 0).
  vm_compute. discriminate.
Defined.

(** X21.  From a rate to its speed code and back: on a system whose speed
    codes are pairwise different, when [get_baud_rate] returns 1 for a
    rate and stores a speed code, [get_rate_from_baud_rate] on that
    speed code gives the rate back. *)
Theorem X21_rate_round_trip (T : Baud.termios_h) (rate x v : Z) :
  NoDup (map Baud.val (Baud.baud_rates T)) ->
  Baud.get_baud_rate T rate (Some x) = (1, Some v) ->
  Baud.get_rate_from_baud_rate T v = rate.
Proof.
  intros Hn Hr. unfold Baud.get_rate_from_baud_rate, Baud.get_baud_rate in *.
  destruct (BaudFacts.by_rate (Baud.baud_rates T) rate (Some x))
    as [(e & H1 & H2 & H3)|(_ & H2)]; [|congruence].
  rewrite H3 in Hr. inversion Hr; subst.
  apply BaudFacts.by_code_entry; assumption.
Qed.

Lemma X21_witness : Baud.get_rate_from_baud_rate linux 4098 = 115200.
Proof.
  apply (X21_rate_round_trip linux 115200 0 4098).
  - refine (bool_decide_unpack _ _). vm_compute. exact I.
  - vm_compute. reflexivity.
Defined.

(** X22.  The string [get_baud_rate_str] returns for a speed code of the
    table is the decimal numeral of the rate of that code: [scan_int]
    reads the rate back from it.  For every other speed code, and only
    then, [get_rate_from_baud_rate] stores 0 and the string is the text
    for an unknown speed, which [scan_int] rejects. *)
Theorem X22_speed_string_is_the_rate (T : Baud.termios_h) (v : Z) :
  (Baud.get_rate_from_baud_rate T v <> 0 /\
   scan_int (Baud.get_baud_rate_str T v)
   = Some (Baud.get_rate_from_baud_rate T v))
  \/ (Baud.get_rate_from_baud_rate T v = 0 /\
      Baud.get_baud_rate_str T v = bytes "unknown speed"%string /\
      scan_int (Baud.get_baud_rate_str T v) = Some (-1)).
Proof.
  unfold Baud.get_rate_from_baud_rate, Baud.get_baud_rate_str.
  destruct (BaudFacts.by_code (Baud.baud_rates T) v)
    as [(e & H1 & H2 & H3 & H4)|(_ & H2 & H3)].
  - left. rewrite H3, H4.
    pose proof (BaudFacts.baud_rates_ok T) as Hok.
    rewrite Forall_forall in Hok. destruct (Hok e H1). auto.
  - right. rewrite H2, H3. auto.
Qed.


(** X24.  Every rate a Cisco code converts to is a rate [get_baud_rate]
    accepts, except that the rate 230400 of the code 15 is accepted only
    on a system that defines [B230400]. *)
Theorem X24_cisco_rates_are_supported
    (T : Baud.termios_h) (c : Z) (v : option Z) :
  Cisco.cisco_baud_to_baud c <> 0 ->
  (fst (Baud.get_baud_rate T (Cisco.cisco_baud_to_baud c) v) = 1
   <-> (c = 15 -> Baud.defined_B T 230400 = true)).
Proof.
  rewrite BaudFacts.get_baud_rate_supported.
  unfold Cisco.cisco_baud_to_baud, always, optional. simpl.
  rewrite !elem_of_cons, !elem_of_nil.
  split_tests; subst; simpl; intros Hz; try (exfalso; apply Hz; reflexivity);
    (split; [intros [H|[H Hd]]; intros E; try discriminate E; try lia;
             assumption
            |intros H; try (right; split; [tauto|apply H; reflexivity]);
             left; tauto]).
Qed.

Lemma X24_witness :
  fst (Baud.get_baud_rate linux (Cisco.cisco_baud_to_baud 15) None) = 1
  <-> (15 = 15 -> Baud.defined_B linux 230400 = true).
Proof.
  apply (X24_cisco_rates_are_supported linux 15 None).
  vm_compute. discriminate.
Defined.

(** ** A statement about [gettok] on the buffer *)

(** X25.  One call of [gettok] on the buffer, with [*s] inside the buffer
    or at its terminator: the loop ends, the buffer keeps its length, the
    new [*s] is not in front of the old one and not behind the
    terminator, no byte in front of the old [*s] is changed, the return
    value is 0 or -1, on -1 [*tok] is as it was, and a token handed out
    stands in the buffer between the old and the new [*s], followed by a
    0 byte. *)
Theorem X25_gettok_stays_inside_the_buffer
    (seps b : list Z) (s : nat) (tok : option nat) :
  (s <= length b)%nat ->
  exists e b' s' tok',
    InPlace.gettok b s tok seps = Some (e, b', s', tok') /\
    length b' = length b /\ (s <= s' <= length b)%nat /\
    (forall i, (i < s)%nat -> b' !! i = b !! i) /\
    (e = 0 \/ (e = -1 /\ tok' = tok)) /\
    (e = 0 -> forall t, tok' = Some t ->
       (s <= t)%nat /\
       exists bytes,
         (t + length bytes <= s')%nat /\ InPlace.string_at b' t bytes).
Proof.
  intros Hs.
  destruct (InPlaceFacts.gettok_sim seps b s tok None Hs)
    as (e & b' & s' & tok' & tokb' & G1 & _ & Gl & Gs & Gfr & _ & Gt).
  exists e, b', s', tok'. split_and!; auto; try lia.
  - destruct Gt as [(-> & -> & _)|[(-> & _)|(-> & _)]]; auto.
  - intros -> t Ht.
    destruct Gt as [(E & _)|[(_ & E & _)|(_ & t1 & bytes & E & _ & H1 & H2 & H3)]];
      [discriminate|congruence|].
    rewrite E in Ht. inversion Ht; subst. eauto.
Qed.

Lemma X25_witness :
  exists e b' s' tok',
    InPlace.gettok [32; 97; 92; 32; 98; 32; 99] 1 None default_seps
    = Some (e, b', s', tok') /\
    length b' = length [32; 97; 92; 32; 98; 32; 99] /\
    (1 <= s' <= length [32; 97; 92; 32; 98; 32; 99])%nat /\
    (forall i, (i < 1)%nat -> b' !! i = [32; 97; 92; 32; 98; 32; 99] !! i) /\
    (e = 0 \/ (e = -1 /\ tok' = None)) /\
    (e = 0 -> forall t, tok' = Some t ->
       (1 <= t)%nat /\
       exists bytes,
         (t + length bytes <= s')%nat /\ InPlace.string_at b' t bytes).
Proof.
  apply (X25_gettok_stays_inside_the_buffer default_seps
           [32; 97; 92; 32; 98; 32; 99] 1 None).
  simpl. lia.
Defined.

(** ** A statement about escaping with backslashes *)

(** X26.  Escaping is enough to pass any argument: take a non-empty
    string without 0 bytes and put a backslash in front of every
    separator, quote and backslash in it.  When the backslash is no
    separator and no separator is an octal digit, the letter x or one of
    the letters a, b, f, n, r, t, v (as with the default separators), the
    call on the result succeeds, with enough memory, and its only token
    is the string. *)
Theorem X26_backslash_escaping_round_trip
    (tok0 : option token) (t : list Z) (seps : option (list Z))
    (w : world) :
  t <> [] ->
  no_nul t ->
  seps_escapable (seps_of seps) ->
  is_sep_space BACKSLASH (seps_of seps) = false ->
  Z.of_nat (length (backslash_escape (seps_of seps) t)) <= INT_MAX ->
  (forall n, alloc_ok w n = true) ->
  exists w',
    str_to_argv tok0 (backslash_escape (seps_of seps) t) seps w
    = Returns 0 w' /\
    out_argc w' = 1 /\ result_slots w' = Some [TokPtr t].
Proof.
  intros Hne Hn Hs Hb Hlen Hok.
  apply (str_to_argv_success tok0 _ seps w [t] Hlen Hok).
  rewrite c_str_id by (apply QuoteFacts.backslash_escape_no_nul; assumption).
  apply QuoteFacts.tokenize_backslash_escape; assumption.
Qed.

Lemma X26_witness :
  exists w',
    str_to_argv None (backslash_escape (seps_of None) [97; 32; 39; 92; 98])
      None fresh_world
    = Returns 0 w' /\
    out_argc w' = 1 /\ result_slots w' = Some [TokPtr [97; 32; 39; 92; 98]].
Proof.
  apply (X26_backslash_escaping_round_trip None [97; 32; 39; 92; 98] None
           fresh_world).
  - discriminate.
  - repeat constructor; discriminate.
  - intros c. unfold is_sep_space, seps_of, default_seps. cbn [strchr].
    split_tests; try lia; subst; simpl; intros H; try discriminate;
      repeat split; discriminate.
  - reflexivity.
  - vm_compute. discriminate.
  - intros n. reflexivity.
Defined.
